(** * Fused multi-head attention forward kernel (kernel_forward.h)

    A shallow embedding of [AttentionKernel] from
    paddle/phi/kernels/fusion/cutlass/fused_multi_head_attention/kernel_forward.h
    over real arithmetic, and the properties of the tiled streaming-softmax
    kernel proved on it.

    Conventions of the embedding.
    - [accum_t] (C++ [float]) is the extended real line with a NaN element:
      arithmetic is exact on finite values and follows IEEE-754 on the
      infinities (rounding and signed zeros are not modelled, conversions
      between [scalar_t] and [accum_t] are exact).
    - [scalar_t] values stored in the Q/K/V/mask buffers are finite reals.
    - Pointers are byte addresses in [Z]; [nullptr] is [0]; buffers are
      functions from addresses to values.
    - The integers of [Params] are taken in [Z]; they are assumed to stay in
      the range of their C++ type.
    - A thread block is modelled as a whole: the cutlass lane iterators
      ([AccumLambdaIterator::iterateRows]) visit every (row, column) of the
      [kQueriesPerBlock] x [kKeysPerBlock] tile exactly once across the
      block, so a tile is a function of (accum_m, accum_n).  Where the code
      combines per-lane partial results (the atomic maximum, the row sums)
      the split of a row among lanes is a parameter, [lane_cols].
    - The cutlass matrix products are their mathematical result, with the
      predicated iterators reading zero outside their extent. *)

From Stdlib Require Import Reals.Reals Lra Lia ZArith List Bool Permutation.
From Stdlib Require Import FunctionalExtensionality.
Import ListNotations.

Open Scope R_scope.

(** ** accum_t : extended reals *)

Inductive accum_t : Type :=
| Fin (r : R)
| NInf
| PInf
| NaN.

Definition is_fin (x : accum_t) : Prop :=
  match x with Fin _ => True | _ => False end.

Definition fneg (x : accum_t) : accum_t :=
  match x with
  | Fin r => Fin (- r)
  | NInf => PInf
  | PInf => NInf
  | NaN => NaN
  end.

Definition fadd (x y : accum_t) : accum_t :=
  match x, y with
  | NaN, _ | _, NaN => NaN
  | Fin a, Fin b => Fin (a + b)
  | PInf, NInf | NInf, PInf => NaN
  | PInf, _ | _, PInf => PInf
  | NInf, _ | _, NInf => NInf
  end.

Definition fsub (x y : accum_t) : accum_t := fadd x (fneg y).

(** Sign of an infinity multiplied by a finite factor. *)
Definition inf_times (pos : bool) (r : R) : accum_t :=
  if Rlt_dec 0 r then (if pos then PInf else NInf)
  else if Rlt_dec r 0 then (if pos then NInf else PInf)
  else NaN.

Definition fmul (x y : accum_t) : accum_t :=
  match x, y with
  | NaN, _ | _, NaN => NaN
  | Fin a, Fin b => Fin (a * b)
  | PInf, Fin r | Fin r, PInf => inf_times true r
  | NInf, Fin r | Fin r, NInf => inf_times false r
  | PInf, PInf | NInf, NInf => PInf
  | PInf, NInf | NInf, PInf => NaN
  end.

Definition fdiv (x y : accum_t) : accum_t :=
  match x, y with
  | NaN, _ | _, NaN => NaN
  | Fin a, Fin b =>
      if Rlt_dec 0 b then Fin (a / b)
      else if Rlt_dec b 0 then Fin (a / b)
      else inf_times true a
  | Fin _, (PInf | NInf) => Fin 0
  | PInf, Fin b => if Rlt_dec b 0 then NInf else PInf
  | NInf, Fin b => if Rlt_dec b 0 then PInf else NInf
  | (PInf | NInf), (PInf | NInf) => NaN
  end.

(** [a < b] on floats, as a boolean-valued test ([false] on NaN). *)
Definition flt (x y : accum_t) : bool :=
  match x, y with
  | NaN, _ | _, NaN => false
  | Fin a, Fin b => if Rlt_dec a b then true else false
  | NInf, NInf => false
  | NInf, _ => true
  | _, PInf => match x with PInf => false | _ => true end
  | _, _ => false
  end.

(** [cutlass::fast_max] on floats ([fmaxf]): the larger operand, the other
    operand when one is NaN. *)
Definition fast_max (x y : accum_t) : accum_t :=
  match x, y with
  | NaN, _ => y
  | _, NaN => x
  | _, _ => if flt x y then y else x
  end.

(** [exp2f]. *)
Definition exp2f (x : accum_t) : accum_t :=
  match x with
  | Fin r => Fin (exp (r * ln 2))
  | NInf => Fin 0
  | PInf => PInf
  | NaN => NaN
  end.

(** [cutlass::fast_log] on floats ([logf]). *)
Definition fast_log (x : accum_t) : accum_t :=
  match x with
  | Fin r => if Rlt_dec 0 r then Fin (ln r)
             else if Rlt_dec r 0 then NaN else NInf
  | PInf => PInf
  | NInf | NaN => NaN
  end.

(** [kLog2e = log_2(e)], exact in the real embedding. *)
Definition kLog2e : R := / ln 2.


(** ** Template parameters and [Params] *)

Open Scope Z_scope.

(** Template parameters of [AttentionKernel], with the facts of [scalar_t]
    and of the cutlass default configuration that the kernel reads
    ([sizeof(scalar_t)], [MM0::kAlignmentA], [MM0::kAlignmentB]). *)
Record Config : Type := {
  sizeof_scalar : Z;
  kAlignmentA : Z;
  kAlignmentB : Z;
  kMaskIsAligned : bool;
  kQueriesPerBlock : Z;
  kKeysPerBlock : Z;
  kSingleValueIteration : bool;
  kAddMask : bool;
  kMaskBroadcastRow : bool
}.

Definition kAlignLSE : Z := 32.
Definition kWarpSize : Z := 32.
Definition sizeof_accum : Z := 4.
Definition sizeof_int32 : Z := 4.

Definition kKeepOutputInRF (cfg : Config) : bool := kSingleValueIteration cfg.

Definition kNumWarpsPerBlock (cfg : Config) : Z :=
  (kQueriesPerBlock cfg * kKeysPerBlock cfg) ÷ (32 * 32).

Definition kNumThreads (cfg : Config) : Z := kWarpSize * kNumWarpsPerBlock cfg.

Definition kLinesPerWarp (cfg : Config) : Z :=
  kQueriesPerBlock cfg ÷ kNumWarpsPerBlock cfg.

Definition kAlignmentQ (cfg : Config) : Z := kAlignmentA cfg.
Definition kAlignmentK (cfg : Config) : Z := kAlignmentB cfg.
Definition kAlignmentV (cfg : Config) : Z := 1.
Definition kAlignmentM (cfg : Config) : Z :=
  if kMaskIsAligned cfg then kAlignmentQ cfg else 1.

(** The [static_assert]s of the struct, together with the two facts the
    block-level reading of the kernel relies on: thread ids fit the [int8_t]
    parameter of [iterative_softmax], and the [kLinesPerWarp] lanes of the
    warps cover every row when the row sums are folded into [s_prime]. *)
Definition config_ok (cfg : Config) : bool :=
  (0 <? kQueriesPerBlock cfg) &&
  (Z.rem (kQueriesPerBlock cfg) 32 =? 0) &&
  (Z.rem (kKeysPerBlock cfg) 32 =? 0) &&
  (kQueriesPerBlock cfg <? kNumWarpsPerBlock cfg * kWarpSize) &&
  (kNumThreads cfg <=? 128) &&
  (kNumWarpsPerBlock cfg * kLinesPerWarp cfg =? kQueriesPerBlock cfg).

Record Params : Type := {
  query_ptr : Z;
  key_ptr : Z;
  value_ptr : Z;
  mask_ptr : Z;
  cu_seqlens_q_ptr : Z;
  cu_seqlens_k_ptr : Z;
  output_ptr : Z;
  output_accum_ptr : Z;
  logsumexp_ptr : Z;
  scale : R;
  head_dim : Z;
  head_dim_value : Z;
  num_queries : Z;
  num_keys : Z;
  causal : bool;
  mask_broadcast_row : bool;
  q_strideM : Z;
  k_strideM : Z;
  v_strideM : Z;
  mask_strideM : Z;
  q_strideH : Z;
  k_strideH : Z;
  v_strideH : Z;
  o_strideH : Z;
  mask_strideH : Z;
  q_strideB : Z;
  k_strideB : Z;
  v_strideB : Z;
  o_strideB : Z;
  mask_strideB : Z;
  num_batches : Z;
  num_heads : Z
}.

Definition nullptr : Z := 0.

Definition o_strideM (p : Params) : Z := head_dim_value p.

(** [blockIdx]. *)
Record Dim3 : Type := { dx : Z; dy : Z; dz : Z }.

(** Modelled from the spec: [ceil_div] of gemm_kernel_utils.h (not among the
    sources); the spec reads it as the ceiling of the quotient, computed with
    C++ integer division. *)
Definition ceil_div (n m : Z) : Z := (n + m - 1) ÷ m.

(** [T* + n] on byte addresses. *)
Definition ptr_add (sz ptr n : Z) : Z := ptr + sz * n.

Section Block.

Variable cfg : Config.

(** Global memory holding [scalar_t] values, and the [int32_t] memory of the
    cumulative sequence-length tables. *)
Variable gmem : Z -> R.
Variable imem : Z -> Z.

Definition padd : Z -> Z -> Z := ptr_add (sizeof_scalar cfg).
Definition load (ptr idx : Z) : R := gmem (padd ptr idx).
Definition iload (ptr idx : Z) : Z := imem (ptr_add sizeof_int32 ptr idx).

(** [Params::advance_to_block]: [None] is the [false] result (no work);
    [Some p'] is [true] together with the advanced parameters. *)
Definition advance_to_block (p : Params) (blockIdx : Dim3) : option Params :=
  let batch_id := dz blockIdx in
  let head_id := dy blockIdx in
  let query_start := dx blockIdx * kQueriesPerBlock cfg in
  let lse_dim := ceil_div (num_queries p) kAlignLSE * kAlignLSE in
  let varlen := negb (cu_seqlens_q_ptr p =? nullptr) in
  let cu_q := ptr_add sizeof_int32 (cu_seqlens_q_ptr p) batch_id in
  let cu_k := ptr_add sizeof_int32 (cu_seqlens_k_ptr p) batch_id in
  let q_start := if varlen then iload cu_q 0 else 0 in
  let k_start := if varlen then iload cu_k 0 else 0 in
  let num_queries1 :=
    if varlen then iload cu_q 1 - q_start else num_queries p in
  let num_keys1 :=
    if varlen then iload cu_k 1 - k_start else num_keys p in
  if varlen && (num_queries1 <=? query_start) then None
  else
    let query_ptr1 :=
      if varlen then query_ptr p else padd (query_ptr p) (batch_id * q_strideB p) in
    let key_ptr1 :=
      if varlen then key_ptr p else padd (key_ptr p) (batch_id * k_strideB p) in
    let value_ptr1 :=
      if varlen then value_ptr p else padd (value_ptr p) (batch_id * v_strideB p) in
    let output_ptr1 :=
      if varlen then output_ptr p
      else padd (output_ptr p) (batch_id * o_strideB p) in
    let output_accum_ptr1 :=
      if varlen || (output_accum_ptr p =? nullptr) then output_accum_ptr p
      else ptr_add sizeof_accum (output_accum_ptr p) (batch_id * o_strideB p) in
    let output_ptr2 :=
      padd output_ptr1
           ((q_start + query_start) * o_strideM p + head_id * o_strideH p) in
    Some {|
      query_ptr :=
        padd query_ptr1
             ((q_start + query_start) * q_strideM p + head_id * q_strideH p);
      key_ptr := padd key_ptr1 (k_start * k_strideM p + head_id * k_strideH p);
      value_ptr :=
        padd value_ptr1 (k_start * v_strideM p + head_id * v_strideH p);
      mask_ptr :=
        if mask_ptr p =? nullptr then mask_ptr p
        else padd (mask_ptr p)
                  (batch_id * mask_strideB p + head_id * mask_strideH p);
      cu_seqlens_q_ptr := if varlen then cu_q else cu_seqlens_q_ptr p;
      cu_seqlens_k_ptr := if varlen then cu_k else cu_seqlens_k_ptr p;
      output_ptr := output_ptr2;
      output_accum_ptr :=
        if output_accum_ptr1 =? nullptr then output_ptr2
        else ptr_add sizeof_accum output_accum_ptr1
               ((q_start + query_start) * o_strideM p + head_id * o_strideH p);
      logsumexp_ptr :=
        if logsumexp_ptr p =? nullptr then logsumexp_ptr p
        else ptr_add sizeof_accum (logsumexp_ptr p)
               (batch_id * lse_dim * num_heads p + head_id * lse_dim
                + query_start);
      scale := scale p;
      head_dim := head_dim p;
      head_dim_value := head_dim_value p;
      num_queries := num_queries1 - query_start;
      num_keys :=
        if causal p
        then Z.min (query_start + kQueriesPerBlock cfg) num_keys1
        else num_keys1;
      causal := causal p;
      mask_broadcast_row := mask_broadcast_row p;
      q_strideM := q_strideM p;
      k_strideM := k_strideM p;
      v_strideM := v_strideM p;
      mask_strideM := mask_strideM p;
      q_strideH := q_strideH p;
      k_strideH := k_strideH p;
      v_strideH := v_strideH p;
      o_strideH := o_strideH p;
      mask_strideH := mask_strideH p;
      q_strideB := q_strideB p;
      k_strideB := k_strideB p;
      v_strideB := v_strideB p;
      o_strideB := o_strideB p;
      mask_strideB := mask_strideB p;
      num_batches := 0;
      num_heads := num_heads p
    |}.

(** Modelled from the spec: the macros [CHECK_ALIGNED_PTR] and
    [XFORMERS_CHECK] of gemm_kernel_utils.h are not among the sources; a
    failed check rejects the parameters ([check_supported] returns [false]).
    [CHECK_ALIGNED_PTR(PTR, A)] tests [uint64_t(PTR) % A == 0]. *)
Definition XFORMERS_CHECK (cond : bool) (rest : bool) : bool :=
  if cond then rest else false.
Definition CHECK_ALIGNED_PTR (ptr alignment : Z) (rest : bool) : bool :=
  XFORMERS_CHECK (Z.rem ptr alignment =? 0) rest.

(** [AttentionKernel::check_supported]. *)
Definition check_supported (p : Params) : bool :=
  CHECK_ALIGNED_PTR (query_ptr p) (kAlignmentQ cfg) (
  CHECK_ALIGNED_PTR (key_ptr p) (kAlignmentK cfg) (
  CHECK_ALIGNED_PTR (value_ptr p) (kAlignmentV cfg) (
  CHECK_ALIGNED_PTR (mask_ptr p) (kAlignmentM cfg) (
  (if negb (mask_ptr p =? nullptr) then
     fun rest =>
       CHECK_ALIGNED_PTR (mask_ptr p) (kAlignmentM cfg) (
       XFORMERS_CHECK (Z.rem (mask_strideB p) (kAlignmentM cfg) =? 0) (
       XFORMERS_CHECK (Z.rem (mask_strideH p) (kAlignmentM cfg) =? 0) (
       XFORMERS_CHECK (Z.rem (mask_strideM p) (kAlignmentM cfg) =? 0) rest)))
   else fun rest => rest) (
  XFORMERS_CHECK (Z.rem (q_strideM p) (kAlignmentQ cfg) =? 0) (
  XFORMERS_CHECK (Z.rem (k_strideM p) (kAlignmentK cfg) =? 0) (
  XFORMERS_CHECK (Z.rem (v_strideM p) (kAlignmentV cfg) =? 0) (
  XFORMERS_CHECK (Z.rem (q_strideH p) (kAlignmentQ cfg) =? 0) (
  XFORMERS_CHECK (Z.rem (k_strideH p) (kAlignmentK cfg) =? 0) (
  XFORMERS_CHECK (Z.rem (v_strideH p) (kAlignmentV cfg) =? 0)
  true)))))))))).

(** *** The key-tile loop of [attention_kernel] *)

(** [ScalingCoefs]: the per-row softmax statistics kept in shared memory. *)
Record ScalingCoefs : Type := {
  m_prime : nat -> accum_t;
  s_prime : nat -> accum_t;
  mi : nat -> accum_t
}.

(** A register fragment seen block-wide: a function of (accum_m, accum_n). *)
Definition Tile : Type := nat -> nat -> accum_t.

(** Columns of a row as they are split among the lanes that own a part of
    that row: [lane_cols m] lists, for every such lane, the columns it
    visits in row [m].  The split is cutlass's ([AccumLambdaIterator]), not
    among the sources, and is a parameter here. *)
Variable lane_cols : nat -> list (list nat).

Fixpoint sumR (n : nat) (f : nat -> R) : R :=
  match n with
  | O => 0%R
  | S k => (sumR k f + f k)%R
  end.

Fixpoint fsum (n : nat) (f : nat -> accum_t) (init : accum_t) : accum_t :=
  match n with
  | O => init
  | S k => fadd (fsum k f init) (f k)
  end.

Definition in_row (m : nat) : bool := Z.of_nat m <? kQueriesPerBlock cfg.

(** Rows [warp_id * kLinesPerWarp + lane_id] with
    [lane_id < kLinesPerWarp]: the rows whose [s_prime] receives the row
    total ([kLinesPerWarp < kWarpSize] by the [static_assert] on
    [kQueriesPerBlock]). *)
Definition sum_row (t : nat) : bool :=
  Z.of_nat t <? kNumWarpsPerBlock cfg * kLinesPerWarp cfg.

Definition problem_size_0_m (p : Params) : Z :=
  Z.min (kQueriesPerBlock cfg) (num_queries p).
Definition problem_size_0_n (p : Params) (iter_key_start : Z) : Z :=
  Z.min (kKeysPerBlock cfg) (num_keys p - iter_key_start).

(** MATMUL Q.K_t: the predicated iterators read zero outside
    [problem_size_0_m] x [problem_size_0_k] and
    [problem_size_0_k] x [problem_size_0_n]. *)
Definition qk_dot (p : Params) (iter_key_start : Z) (m n : nat) : R :=
  sumR (Z.to_nat (head_dim p)) (fun k =>
    load (query_ptr p) (Z.of_nat m * q_strideM p + Z.of_nat k)
    * load (padd (key_ptr p) (iter_key_start * k_strideM p))
           (Z.of_nat n * k_strideM p + Z.of_nat k))%R.

Definition mm0 (p : Params) (iter_key_start : Z) : Tile :=
  fun m n =>
    if (Z.of_nat m <? problem_size_0_m p)
       && (Z.of_nat n <? problem_size_0_n p iter_key_start)
    then Fin (qk_dot p iter_key_start m n)
    else Fin 0.

(** [if (kAddMask) accum = scale * accum]. *)
Definition scale_accum (p : Params) (accum : Tile) : Tile :=
  if kAddMask cfg then fun m n => fmul (Fin (scale p)) (accum m n) else accum.

(** The mask tile staged in shared memory by [MaskLoader::load]. *)
Definition mask_tensor_ref (p : Params) (query_start iter_key_start : Z)
  (m n : nat) : R :=
  let mask_iter_m :=
    if kMaskBroadcastRow cfg then 1 else problem_size_0_m p in
  if (Z.of_nat m <? mask_iter_m)
     && (Z.of_nat n <? problem_size_0_n p iter_key_start)
  then load (padd (mask_ptr p) (query_start * mask_strideM p + iter_key_start))
            (Z.of_nat m * mask_strideM p + Z.of_nat n)
  else 0%R.

(** [Pij += Bij]. *)
Definition add_mask (p : Params) (query_start iter_key_start : Z)
  (accum : Tile) : Tile :=
  if kAddMask cfg then
    fun m n =>
      if (Z.of_nat m <? problem_size_0_m p)
         && (Z.of_nat n <? problem_size_0_n p iter_key_start)
      then
        if kMaskBroadcastRow cfg
        then fadd (accum m n)
                  (Fin (mask_tensor_ref p query_start iter_key_start 0 n))
        else fadd (accum m n)
                  (Fin (mask_tensor_ref p query_start iter_key_start m n))
      else accum m n
  else accum.

(** "Mask out last if causal". *)
Definition causal_applies (p : Params) (iter_key_start : Z) : bool :=
  causal p && (num_keys p - iter_key_start <=? kKeysPerBlock cfg).

Definition mask_causal (p : Params) (query_start iter_key_start : Z)
  (accum : Tile) : Tile :=
  if causal_applies p iter_key_start then
    fun m n =>
      let last_col := query_start + Z.of_nat m - iter_key_start in
      if last_col <? Z.of_nat n then NInf else accum m n
  else accum.

(** *** [iterative_softmax] *)

(** The running maximum of one lane over its columns of a row. *)
Definition lane_max (kFullColumns : bool) (max_col : Z) (frag : Tile)
  (m : nat) (cols : list nat) : accum_t :=
  fold_left
    (fun mx n =>
       if kFullColumns || (Z.of_nat n <? max_col)
       then fast_max mx (frag m n) else mx)
    cols NInf.

(** [atomicMaxFloat]: the stored value becomes the larger of the two (the
    integer comparisons of the bit patterns order floats as [<] does; a NaN
    [value] is read as leaving the stored value). *)
Definition atomicMaxFloat (old value : accum_t) : accum_t :=
  if flt old value then value else old.

(** Every lane of row [m] ends the row with
    [atomicMaxFloat(&mi[accum_m], max * scaling)]. *)
Definition update_mi (kFullColumns : bool) (max_col : Z) (scaling : R)
  (frag : Tile) (m : nat) (mi_m : accum_t) : accum_t :=
  fold_left
    (fun acc cols =>
       atomicMaxFloat acc
         (fmul (lane_max kFullColumns max_col frag m cols) (Fin scaling)))
    (lane_cols m) mi_m.

(** The sum of a row accumulated lane by lane ([total_row],
    [reduceSameRow], [addition_storage]) on top of [s_prime]. *)
Definition add_row_total (frag : Tile) (m : nat) (init : accum_t) : accum_t :=
  fold_left (fun acc n => fadd acc (frag m n)) (concat (lane_cols m)) init.

Record SoftmaxResult : Type := {
  sr_frag_o : Tile;
  sr_frag : Tile;
  sr_coefs : ScalingCoefs
}.

Definition iterative_softmax
  (kFullColumns kIsFirst kKeepOutputInRF_ : bool)
  (frag_o frag : Tile) (c : ScalingCoefs) (max_col : Z) (scaling : R)
  : SoftmaxResult :=
  (* if (!kIsFirst) m_prime[thread_id] = mi[thread_id] *)
  let m_prime1 := fun t =>
    if negb kIsFirst && in_row t then mi c t else m_prime c t in
  (* first update mi to the max per row *)
  let mi1 := fun m =>
    if in_row m then update_mi kFullColumns max_col scaling frag m (mi c m)
    else mi c m in
  (* frag = (scaling * kLog2e) * frag *)
  let frag1 : Tile := fun m n => fmul (Fin (scaling * kLog2e)%R) (frag m n) in
  (* m_prime_exp = exp2f(kLog2e * (m_prime - mi)) *)
  let m_prime_exp := fun t =>
    exp2f (fmul (Fin kLog2e) (fsub (m_prime1 t) (mi1 t))) in
  let m_prime2 := fun t => if in_row t then m_prime_exp t else m_prime1 t in
  let s_prime1 := fun t =>
    if in_row t then fmul (s_prime c t) (m_prime_exp t) else s_prime c t in
  (* update output fragments *)
  let frag_o1 : Tile :=
    if kKeepOutputInRF_ && negb kIsFirst
    then fun m n => fmul (frag_o m n) (m_prime2 m)
    else frag_o in
  (* frag[idx] = exp2f(frag[idx] - mi_row) or 0 *)
  let frag2 : Tile := fun m n =>
    if kFullColumns || (Z.of_nat n <? max_col)
    then exp2f (fsub (frag1 m n) (fmul (Fin kLog2e) (mi1 m)))
    else Fin 0 in
  (* s_prime[id] += total_row *)
  let s_prime2 := fun t =>
    if sum_row t then add_row_total frag2 t (s_prime1 t) else s_prime1 t in
  {| sr_frag_o := frag_o1;
     sr_frag := frag2;
     sr_coefs := {| m_prime := m_prime2; s_prime := s_prime2; mi := mi1 |} |}.

(** *** MATMUL Attn.V and the epilogues *)

(** [iterator_V]: zero outside [problem_size_1_k] x [problem_size_1_n]. *)
Definition iterator_V (p : Params) (iter_key_start : Z) (n c : nat) : R :=
  if (Z.of_nat n <? problem_size_0_n p iter_key_start)
     && (Z.of_nat c <? head_dim_value p)
  then load (padd (value_ptr p) (iter_key_start * v_strideM p))
            (Z.of_nat n * v_strideM p + Z.of_nat c)
  else 0%R.

(** [mma_pv(gemm_k_iterations, accum_o, iterator_V, accum_o)]: the
    exponentiated tile times the value tile, over the [problem_size_1_k]
    keys of the tile, on top of [src]; [c] is the absolute value column. *)
Definition mma_pv (p : Params) (iter_key_start : Z) (si src : Tile) : Tile :=
  fun m c =>
    fsum (Z.to_nat (problem_size_0_n p iter_key_start))
         (fun n => fmul (si m n) (Fin (iterator_V p iter_key_start n c)))
         (src m c).

(** Columns of the output handled by the value iterations
    [blockN < nBlockN], each [MM1::Mma::Shape::kN = kKeysPerBlock] wide. *)
Definition nBlockN (p : Params) : Z :=
  if kSingleValueIteration cfg then 1
  else ceil_div (head_dim_value p) (kKeysPerBlock cfg).

Definition in_value_blocks (p : Params) (c : nat) : bool :=
  Z.of_nat c <? nBlockN p * kKeysPerBlock cfg.

(** What the output iterators ([createOutputIter], [createOutputAccumIter])
    can reach: rows below [num_queries], columns below [head_dim_value]. *)
Definition in_output (p : Params) (m c : nat) : bool :=
  (Z.of_nat m <? num_queries p) && (Z.of_nat c <? head_dim_value p)
  && in_row m && in_value_blocks p c.

(** Modelled from the spec: [MemoryEfficientAttentionNormalize] of
    epilogue/epilogue_rescale_output.h is not among the sources.  The spec's
    spill mode: "a running rescale-and-add so that each write already
    reflects the softmax statistics known at that point; the final key-tile's
    write additionally divides by s_prime"; nothing is added on the first
    key-tile. *)
Definition rescale (kIsFirst kIsLast : bool) (c : ScalingCoefs) (m : nat)
  (accum source : accum_t) : accum_t :=
  let v := if kIsFirst then accum
           else fadd (fmul (m_prime c m) source) accum in
  if kIsLast then fdiv v (s_prime c m) else v.

(** State carried by the loop over the key tiles: the softmax statistics,
    the output accumulator ([accum_o] when it is kept in registers, the
    [output_accum_ptr] buffer otherwise) and the output buffer. *)
Record LoopState : Type := {
  coefs : ScalingCoefs;
  accum_o : Tile;
  output : nat -> nat -> option accum_t
}.

(** The score tile [accum] handed to [iterative_softmax]. *)
Definition score_tile (p : Params) (query_start iter_key_start : Z) : Tile :=
  mask_causal p query_start iter_key_start
    (add_mask p query_start iter_key_start
       (scale_accum p (mm0 p iter_key_start))).

(** The last argument of the call: [kAddMask ? 1.0f : p.scale]. *)
Definition softmax_scaling (p : Params) : R :=
  if kAddMask cfg then 1%R else scale p.

(** The call of [iterative_softmax] under the two [DISPATCH_BOOL]s:
    [kIsFirst] is [iter_key_start == 0] and [kFullColumns] is
    [p.num_keys - iter_key_start >= kKeysPerBlock]. *)
Definition softmax_call (p : Params) (iter_key_start : Z)
  (frag_o accum : Tile) (c : ScalingCoefs) : SoftmaxResult :=
  iterative_softmax
    (kKeysPerBlock cfg <=? num_keys p - iter_key_start)
    (iter_key_start =? 0) (kKeepOutputInRF cfg)
    frag_o accum c
    (num_keys p - iter_key_start)
    (softmax_scaling p).

Definition loop_body (p : Params) (query_start iter_key_start : Z)
  (st : LoopState) : LoopState :=
  let accum := score_tile p query_start iter_key_start in
  let kIsFirst := iter_key_start =? 0 in
  let r := softmax_call p iter_key_start (accum_o st) accum (coefs st) in
  if kKeepOutputInRF cfg then
    {| coefs := sr_coefs r;
       accum_o :=
         (fun m c =>
            if in_value_blocks p c
            then mma_pv p iter_key_start (sr_frag r) (sr_frag_o r) m c
            else sr_frag_o r m c);
       output := output st |}
  else
    let kIsLast := num_keys p <=? iter_key_start + kKeysPerBlock cfg in
    let pv := mma_pv p iter_key_start (sr_frag r) (fun _ _ => Fin 0) in
    let v := fun m c =>
      rescale kIsFirst kIsLast (sr_coefs r) m (pv m c) (accum_o st m c) in
    {| coefs := sr_coefs r;
       accum_o :=
         (fun m c =>
            if in_output p m c && negb kIsLast then v m c
            else accum_o st m c);
       output :=
         (fun m c =>
            if in_output p m c && kIsLast then Some (v m c)
            else output st m c) |}.

(** [for (iter_key_start = 0; iter_key_start < p.num_keys;
         iter_key_start += kKeysPerBlock)]. *)
Fixpoint key_loop (fuel : nat) (p : Params) (query_start iter_key_start : Z)
  (st : LoopState) : LoopState :=
  match fuel with
  | O => st
  | S fuel' =>
      if iter_key_start <? num_keys p
      then key_loop fuel' p query_start
             (iter_key_start + kKeysPerBlock cfg)
             (loop_body p query_start iter_key_start st)
      else st
  end.

Definition init_coefs : ScalingCoefs :=
  {| m_prime := fun _ => NInf; s_prime := fun _ => Fin 0; mi := fun _ => NInf |}.

Definition init_state (output0 : nat -> nat -> option accum_t) : LoopState :=
  {| coefs := init_coefs; accum_o := fun _ _ => Fin 0; output := output0 |}.

(** The epilogue after the loop when the output is kept in registers
    ([kIsFirst = kIsLast = true]). *)
Definition epilogue_at_end (p : Params) (st : LoopState)
  : nat -> nat -> option accum_t :=
  if kKeepOutputInRF cfg then
    fun m c =>
      if in_output p m c
      then Some (rescale true true (coefs st) m (accum_o st m c) (Fin 0))
      else output st m c
  else output st.

(** "7. Calculate logsumexp": the value written at [logsumexp_ptr[t]], if
    any. *)
Definition logsumexp (p : Params) (c : ScalingCoefs) (t : nat)
  : option accum_t :=
  if negb (logsumexp_ptr p =? nullptr) && in_row t then
    let lse_dim := ceil_div (num_queries p) kAlignLSE * kAlignLSE in
    if Z.of_nat t <? num_queries p
    then Some (fadd (mi c t) (fast_log (s_prime c t)))
    else if Z.of_nat t <? lse_dim then Some PInf
    else None
  else None.

Record KernelResult : Type := {
  kr_output : nat -> nat -> option accum_t;
  kr_logsumexp : nat -> option accum_t;
  kr_coefs : ScalingCoefs
}.

(** [AttentionKernel::attention_kernel] for one block; the loop needs at
    most [num_keys] rounds. *)
Definition attention_kernel (p : Params) (blockIdx : Dim3) : KernelResult :=
  let query_start := dx blockIdx * kQueriesPerBlock cfg in
  let st :=
    key_loop (Z.to_nat (num_keys p)) p query_start 0
             (init_state (fun _ _ => None)) in
  {| kr_output := epilogue_at_end p st;
     kr_logsumexp := logsumexp p (coefs st);
     kr_coefs := coefs st |}.

(** [attention_kernel_batched_impl]. *)
Definition attention_kernel_batched_impl (p : Params) (blockIdx : Dim3)
  : option KernelResult :=
  match advance_to_block p blockIdx with
  | None => None
  | Some p' => Some (attention_kernel p' blockIdx)
  end.

(** *** The reference: unfused attention over a full score matrix *)

Definition varlen (p : Params) : bool := negb (cu_seqlens_q_ptr p =? nullptr).

(** First query / key row of batch [b] and the batch's sequence lengths. *)
Definition ref_q_start (p : Params) (b : Z) : Z :=
  if varlen p
  then iload (ptr_add sizeof_int32 (cu_seqlens_q_ptr p) b) 0 else 0.
Definition ref_k_start (p : Params) (b : Z) : Z :=
  if varlen p
  then iload (ptr_add sizeof_int32 (cu_seqlens_k_ptr p) b) 0 else 0.
Definition ref_num_queries (p : Params) (b : Z) : Z :=
  if varlen p
  then iload (ptr_add sizeof_int32 (cu_seqlens_q_ptr p) b) 1 - ref_q_start p b
  else num_queries p.
Definition ref_num_keys (p : Params) (b : Z) : Z :=
  if varlen p
  then iload (ptr_add sizeof_int32 (cu_seqlens_k_ptr p) b) 1 - ref_k_start p b
  else num_keys p.

Definition batch_off (p : Params) (b strideB : Z) : Z :=
  if varlen p then 0 else b * strideB.

Definition ref_Q (p : Params) (b h : Z) (i k : nat) : R :=
  load (query_ptr p)
       (batch_off p b (q_strideB p)
        + (ref_q_start p b + Z.of_nat i) * q_strideM p + h * q_strideH p
        + Z.of_nat k).
Definition ref_K (p : Params) (b h : Z) (j k : nat) : R :=
  load (key_ptr p)
       (batch_off p b (k_strideB p)
        + (ref_k_start p b + Z.of_nat j) * k_strideM p + h * k_strideH p
        + Z.of_nat k).
Definition ref_V (p : Params) (b h : Z) (j c : nat) : R :=
  load (value_ptr p)
       (batch_off p b (v_strideB p)
        + (ref_k_start p b + Z.of_nat j) * v_strideM p + h * v_strideH p
        + Z.of_nat c).
Definition ref_mask (p : Params) (b h : Z) (i j : nat) : R :=
  load (mask_ptr p)
       (b * mask_strideB p + h * mask_strideH p
        + Z.of_nat i * mask_strideM p + Z.of_nat j).

(** [scale * Q_i . K_j + mask_ij]. *)
Definition ref_logit (p : Params) (b h : Z) (i j : nat) : R :=
  (scale p * sumR (Z.to_nat (head_dim p))
               (fun k => ref_Q p b h i k * ref_K p b h j k)
   + (if kAddMask cfg then ref_mask p b h i j else 0))%R.

(** Softmax-weighted average of [v] over the keys [j < nk] selected by
    [vis], computed from the whole row of logits. *)
Definition softmax_attention (nk : nat) (vis : nat -> bool)
  (l v : nat -> R) : R :=
  (sumR nk (fun j => if vis j then exp (l j) * v j else 0)
   / sumR nk (fun j => if vis j then exp (l j) else 0))%R.

Definition ref_visible (p : Params) (i j : nat) : bool :=
  negb (causal p) || (j <=? i)%nat.

(** Output element [c] of query row [i] of head [h] of batch [b]. *)
Definition attention_ref (p : Params) (b h : Z) (i c : nat) : R :=
  softmax_attention (Z.to_nat (ref_num_keys p b)) (ref_visible p i)
    (ref_logit p b h i) (fun j => ref_V p b h j c).

End Block.

(** ** Objects used in the statements *)

Open Scope Z_scope.

Definition aligned (x alignment : Z) : Prop := Z.rem x alignment = 0.

(** [p] with the runtime field [mask_broadcast_row] replaced. *)
Definition set_mask_broadcast_row (p : Params) (b : bool) : Params :=
  {| query_ptr := query_ptr p; key_ptr := key_ptr p;
     value_ptr := value_ptr p; mask_ptr := mask_ptr p;
     cu_seqlens_q_ptr := cu_seqlens_q_ptr p;
     cu_seqlens_k_ptr := cu_seqlens_k_ptr p;
     output_ptr := output_ptr p; output_accum_ptr := output_accum_ptr p;
     logsumexp_ptr := logsumexp_ptr p; scale := scale p;
     head_dim := head_dim p; head_dim_value := head_dim_value p;
     num_queries := num_queries p; num_keys := num_keys p;
     causal := causal p; mask_broadcast_row := b;
     q_strideM := q_strideM p; k_strideM := k_strideM p;
     v_strideM := v_strideM p; mask_strideM := mask_strideM p;
     q_strideH := q_strideH p; k_strideH := k_strideH p;
     v_strideH := v_strideH p; o_strideH := o_strideH p;
     mask_strideH := mask_strideH p;
     q_strideB := q_strideB p; k_strideB := k_strideB p;
     v_strideB := v_strideB p; o_strideB := o_strideB p;
     mask_strideB := mask_strideB p;
     num_batches := num_batches p; num_heads := num_heads p |}.

(** [cfg] with the template parameter [kMaskBroadcastRow] replaced. *)
Definition set_kMaskBroadcastRow (cfg : Config) (b : bool) : Config :=
  {| sizeof_scalar := sizeof_scalar cfg; kAlignmentA := kAlignmentA cfg;
     kAlignmentB := kAlignmentB cfg; kMaskIsAligned := kMaskIsAligned cfg;
     kQueriesPerBlock := kQueriesPerBlock cfg;
     kKeysPerBlock := kKeysPerBlock cfg;
     kSingleValueIteration := kSingleValueIteration cfg;
     kAddMask := kAddMask cfg; kMaskBroadcastRow := b |}.

(** [p] reading its mask from another buffer with another row stride. *)
Definition set_mask (p : Params) (ptr strideM : Z) : Params :=
  {| query_ptr := query_ptr p; key_ptr := key_ptr p;
     value_ptr := value_ptr p; mask_ptr := ptr;
     cu_seqlens_q_ptr := cu_seqlens_q_ptr p;
     cu_seqlens_k_ptr := cu_seqlens_k_ptr p;
     output_ptr := output_ptr p; output_accum_ptr := output_accum_ptr p;
     logsumexp_ptr := logsumexp_ptr p; scale := scale p;
     head_dim := head_dim p; head_dim_value := head_dim_value p;
     num_queries := num_queries p; num_keys := num_keys p;
     causal := causal p; mask_broadcast_row := mask_broadcast_row p;
     q_strideM := q_strideM p; k_strideM := k_strideM p;
     v_strideM := v_strideM p; mask_strideM := strideM;
     q_strideH := q_strideH p; k_strideH := k_strideH p;
     v_strideH := v_strideH p; o_strideH := o_strideH p;
     mask_strideH := mask_strideH p;
     q_strideB := q_strideB p; k_strideB := k_strideB p;
     v_strideB := v_strideB p; o_strideB := o_strideB p;
     mask_strideB := mask_strideB p;
     num_batches := num_batches p; num_heads := num_heads p |}.

(** Element ([i], [j]) of the mask matrix of a block (after
    [advance_to_block]). *)
Definition mask_elem (cfg : Config) (gmem : Z -> R) (p : Params) (i j : Z)
  : R :=
  load cfg gmem (mask_ptr p) (i * mask_strideM p + j).

(** The instantiation [kQueriesPerBlock = kKeysPerBlock = 64] on 2-byte
    elements, and a small problem for it. *)
Definition cfg64 (single add_mask_ bcast : bool) : Config :=
  {| sizeof_scalar := 2; kAlignmentA := 8; kAlignmentB := 8;
     kMaskIsAligned := true;
     kQueriesPerBlock := 64; kKeysPerBlock := 64;
     kSingleValueIteration := single; kAddMask := add_mask_;
     kMaskBroadcastRow := bcast |}.

Definition params0 (sc : R) (nq nk : Z) (causal_ : bool) : Params :=
  {| query_ptr := 1024; key_ptr := 2048; value_ptr := 4096; mask_ptr := 8192;
     cu_seqlens_q_ptr := nullptr; cu_seqlens_k_ptr := nullptr;
     output_ptr := 16384; output_accum_ptr := nullptr;
     logsumexp_ptr := 32768; scale := sc;
     head_dim := 1; head_dim_value := 1;
     num_queries := nq; num_keys := nk;
     causal := causal_; mask_broadcast_row := false;
     q_strideM := 1; k_strideM := 1; v_strideM := 1; mask_strideM := 0;
     q_strideH := 0; k_strideH := 0; v_strideH := 0; o_strideH := 0;
     mask_strideH := 0;
     q_strideB := 0; k_strideB := 0; v_strideB := 0; o_strideB := 0;
     mask_strideB := 0;
     num_batches := 1; num_heads := 1 |}.

Definition block0 : Dim3 := {| dx := 0; dy := 0; dz := 0 |}.

(** The two warp columns of a 64-wide tile as the coarsest split of a row
    among lanes. *)
Definition warp_cols64 (m : nat) : list (list nat) := [seq 0 32; seq 32 32].

(** Scores are finite or minus infinity; [fle] orders them. *)
Definition is_score (x : accum_t) : Prop :=
  match x with Fin _ | NInf => True | _ => False end.

Definition fle (x y : accum_t) : Prop :=
  match x, y with
  | NInf, (NInf | Fin _) => True
  | Fin a, Fin b => (a <= b)%R
  | _, _ => False
  end.

(** The columns of a tile that take part in the softmax. *)
Definition valid_col (kFullColumns : bool) (max_col : Z) (n : nat) : bool :=
  kFullColumns || (Z.of_nat n <? max_col).

(** The weight [exp(scaling * x - M)] of a score relative to the row
    maximum [M]; a masked score weighs nothing. *)
Definition weight (scaling M : R) (x : accum_t) : R :=
  match x with
  | Fin v => exp (scaling * v - M)
  | _ => 0%R
  end.

Definition list_sumR (l : list R) : R := fold_right Rplus 0%R l.

(** The factor of step (2b), [exp2f(kLog2e * (m_prime - mi))], for a
    finite new maximum [M]. *)
Definition rescale_factor (mp : accum_t) (M : R) : R :=
  match mp with Fin M0 => exp (M0 - M) | _ => 0%R end.

(** The real number held by an unmasked entry of the score tile. *)
Definition tile_logit (cfg : Config) (gmem : Z -> R) (p : Params)
  (query_start iter : Z) (m n : nat) : R :=
  let in_range :=
    (Z.of_nat m <? problem_size_0_m cfg p)
    && (Z.of_nat n <? problem_size_0_n cfg p iter) in
  let raw := if in_range then qk_dot cfg gmem p iter m n else 0%R in
  let scaled := if kAddMask cfg then (scale p * raw)%R else raw in
  if kAddMask cfg && in_range
  then (scaled
        + mask_tensor_ref cfg gmem p query_start iter
            (if kMaskBroadcastRow cfg then O else m) n)%R
  else scaled.

(** Keys seen through the tiling: the tile of key [j] and its column. *)
Definition tile_start (cfg : Config) (j : nat) : Z :=
  kKeysPerBlock cfg * (Z.of_nat j / kKeysPerBlock cfg).
Definition tile_col (cfg : Config) (j : nat) : nat :=
  Z.to_nat (Z.of_nat j mod kKeysPerBlock cfg).

Definition key_score (cfg : Config) (gmem : Z -> R) (p : Params)
  (query_start : Z) (m j : nat) : accum_t :=
  score_tile cfg gmem p query_start (tile_start cfg j) m (tile_col cfg j).

Definition key_weight (cfg : Config) (gmem : Z -> R) (p : Params)
  (query_start : Z) (M : R) (m j : nat) : R :=
  if Z.of_nat j <? num_keys p
  then weight (softmax_scaling cfg p) M (key_score cfg gmem p query_start m j)
  else 0%R.

Definition key_value (cfg : Config) (gmem : Z -> R) (p : Params)
  (j c : nat) : R :=
  load cfg gmem (value_ptr p) (Z.of_nat j * v_strideM p + Z.of_nat c).

(** Running sum and running weighted values over the keys below [N]. *)
Definition S_upto (cfg : Config) (gmem : Z -> R) (p : Params)
  (query_start : Z) (m N : nat) (M : R) : R :=
  sumR N (key_weight cfg gmem p query_start M m).
Definition A_upto (cfg : Config) (gmem : Z -> R) (p : Params)
  (query_start : Z) (m c N : nat) (M : R) : R :=
  sumR N (fun j => key_weight cfg gmem p query_start M m j
                   * key_value cfg gmem p j c)%R.

(** The state of row [m] when the keys below [N] have been processed:
    for some finite maximum [M] the statistics and the accumulator hold the
    sums of the weights relative to [M]. *)
Definition row_inv (cfg : Config) (gmem : Z -> R) (p : Params)
  (query_start : Z) (m N : nat) (st : LoopState) : Prop :=
  exists M : R,
    ((N = 0%nat /\ mi (coefs st) m = NInf /\ m_prime (coefs st) m = NInf)
     \/ ((0 < N)%nat /\ mi (coefs st) m = Fin M
         /\ is_score (m_prime (coefs st) m)))
    /\ s_prime (coefs st) m = Fin (S_upto cfg gmem p query_start m N M)
    /\ forall c, in_output cfg p m c = true ->
         if kKeepOutputInRF cfg
         then accum_o st m c = Fin (A_upto cfg gmem p query_start m c N M)
         else
           (Z.of_nat N < num_keys p -> (0 < N)%nat ->
            accum_o st m c = Fin (A_upto cfg gmem p query_start m c N M))
           /\ (num_keys p <= Z.of_nat N -> (0 < N)%nat ->
               output st m c =
                 Some (Fin (A_upto cfg gmem p query_start m c N M
                            / S_upto cfg gmem p query_start m N M)%R)).

(** What the block makes of key [j] for row [m]: whether it takes part,
    and its logit. *)
Definition key_visible (cfg : Config) (gmem : Z -> R) (p : Params)
  (query_start : Z) (m j : nat) : bool :=
  match key_score cfg gmem p query_start m j with
  | Fin _ => true
  | _ => false
  end.

Definition key_logit (cfg : Config) (gmem : Z -> R) (p : Params)
  (query_start : Z) (m j : nat) : R :=
  match key_score cfg gmem p query_start m j with
  | Fin x => (softmax_scaling cfg p * x)%R
  | _ => 0%R
  end.

(** Two loop states that hold the same data for row [m]. *)
Definition row_eq (m : nat) (st1 st2 : LoopState) : Prop :=
  mi (coefs st1) m = mi (coefs st2) m
  /\ m_prime (coefs st1) m = m_prime (coefs st2) m
  /\ s_prime (coefs st1) m = s_prime (coefs st2) m
  /\ forall c, accum_o st1 m c = accum_o st2 m c
               /\ output st1 m c = output st2 m c.

(** Memories holding zeros, for the small problems. *)
Definition gmem0 : Z -> R := fun _ => 0%R.

(** [gmem0] with the value 1 at one address. *)
Definition gmem_at (a : Z) : Z -> R := fun x => if x =? a then 1%R else 0%R.
Definition imem0 : Z -> Z := fun _ => 0.

(** ** The launch: grids and thread indices *)

(** [Params::getBlocksGrid] and [Params::getThreadsGrid]. *)
Definition getBlocksGrid (cfg : Config) (p : Params) : Dim3 :=
  {| dx := ceil_div (num_queries p) (kQueriesPerBlock cfg);
     dy := num_heads p;
     dz := num_batches p |}.

Definition getThreadsGrid (cfg : Config) : Dim3 :=
  {| dx := kWarpSize; dy := kNumWarpsPerBlock cfg; dz := 1 |}.

(** An index ([blockIdx], [threadIdx]) of a grid ([gridDim], [blockDim]). *)
Definition in_grid (idx grid : Dim3) : Prop :=
  0 <= dx idx < dx grid /\ 0 <= dy idx < dy grid /\ 0 <= dz idx < dz grid.

(** Conversion of an integer to [int8_t] and to [int16_t] (two's
    complement wrap-around). *)
Definition int8_t (x : Z) : Z := (x + 128) mod 256 - 128.
Definition int16_t (x : Z) : Z := (x + 32768) mod 65536 - 32768.

(** [lane_id()], [warp_id()] and [thread_id()]. *)
Definition lane_id (threadIdx : Dim3) : Z := int8_t (dx threadIdx).
Definition warp_id (threadIdx : Dim3) : Z := int8_t (dy threadIdx).
Definition thread_id (threadIdx blockDim : Dim3) : Z :=
  int16_t (dx threadIdx + dy threadIdx * dx blockDim).

(** The entry of [s_prime], [m_prime] and [mi] that a thread initialises
    in [attention_kernel] under [if (thread_id() < kQueriesPerBlock)]. *)
Definition kernel_coef_index (cfg : Config) (threadIdx blockDim : Dim3)
  : option Z :=
  let t := thread_id threadIdx blockDim in
  if t <? kQueriesPerBlock cfg then Some t else None.

(** [iterative_softmax] receives [thread_id()] in its parameter
    [int8_t thread_id]; the entry of [m_prime], [s_prime] that a thread
    updates there under [if (thread_id < kQueriesPerBlock)]. *)
Definition softmax_thread_id (threadIdx blockDim : Dim3) : Z :=
  int8_t (thread_id threadIdx blockDim).

Definition softmax_coef_index (cfg : Config) (threadIdx blockDim : Dim3)
  : option Z :=
  let t := softmax_thread_id threadIdx blockDim in
  if t <? kQueriesPerBlock cfg then Some t else None.

(** The row [id = warp_id * kLinesPerWarp + lane_id] whose total a thread
    folds into [s_prime] under [if (lane_id < kLinesPerWarp)]. *)
Definition softmax_total_row (cfg : Config) (threadIdx : Dim3) : option Z :=
  let lane := int8_t (lane_id threadIdx) in
  let warp := int8_t (warp_id threadIdx) in
  if lane <? kLinesPerWarp cfg
  then Some (warp * kLinesPerWarp cfg + lane) else None.

(** The call of [iterative_softmax] with [p.num_keys - iter_key_start]
    converted to its parameter [int16_t max_col]. *)
Definition softmax_call_int16 (cfg : Config)
  (lane_cols : nat -> list (list nat)) (p : Params) (iter_key_start : Z)
  (frag_o accum : Tile) (c : ScalingCoefs) : SoftmaxResult :=
  iterative_softmax cfg lane_cols
    (kKeysPerBlock cfg <=? num_keys p - iter_key_start)
    (iter_key_start =? 0) (kKeepOutputInRF cfg)
    frag_o accum c
    (int16_t (num_keys p - iter_key_start))
    (softmax_scaling cfg p).

(** [p.logsumexp_ptr[thread_id()]]: the address thread [t] writes. *)
Definition lse_address (p : Params) (t : nat) : Z :=
  ptr_add sizeof_accum (logsumexp_ptr p) (Z.of_nat t).

(** ** [atomicMaxFloat] on the bits of a [float] *)

(** [a >= b] on floats ([false] on NaN). *)
Definition fge (x y : accum_t) : bool :=
  match x, y with
  | NaN, _ | _, NaN => false
  | _, _ => negb (flt x y)
  end.

Module Bits.

(** A [float] is its 32 bits, an integer in [0, 2^32): sign, biased
    exponent and fraction (IEEE-754 binary32). *)
Definition sign_bit (b : Z) : bool := 2147483648 <=? b.
Definition biased_exponent (b : Z) : Z := (b / 8388608) mod 256.
Definition fraction (b : Z) : Z := b mod 8388608.

(** The magnitude of a finite pattern in units of [2^-149]:
    [fraction * 2^-149] for a subnormal,
    [(1 + fraction / 2^23) * 2^(exponent - 127)] otherwise. *)
Definition magnitude (b : Z) : Z :=
  if biased_exponent b =? 0 then fraction b
  else (8388608 + fraction b) * 2 ^ (biased_exponent b - 1).

(** The value of a pattern in the real embedding (both zeros are 0). *)
Definition float_value (b : Z) : accum_t :=
  if biased_exponent b =? 255 then
    if fraction b =? 0 then (if sign_bit b then NInf else PInf) else NaN
  else
    Fin (IZR (if sign_bit b then - magnitude b else magnitude b)
         / IZR (2 ^ 149)).

(** [__float_as_int], [__int_as_float], [__float_as_uint],
    [__uint_as_float]. *)
Definition float_as_int (b : Z) : Z :=
  if b <? 2147483648 then b else b - 4294967296.
Definition int_as_float (i : Z) : Z := i mod 4294967296.
Definition float_as_uint (b : Z) : Z := b.
Definition uint_as_float (u : Z) : Z := u.

(** [atomicMax] on [int] and [atomicMin] on [unsigned int]: the new
    content of the cell and the value returned (the old content). *)
Definition atomicMax (old val : Z) : Z * Z := (Z.max old val, old).
Definition atomicMin (old val : Z) : Z * Z := (Z.min old val, old).

(** [atomicMaxFloat(addr, value)] on the bits held at [addr]: the new bits
    of the cell and the bits of the float returned. *)
Definition atomicMaxFloat (cell value : Z) : Z * Z :=
  if fge (float_value value) (Fin 0)
  then
    let '(new, old) := atomicMax (float_as_int cell) (float_as_int value) in
    (int_as_float new, int_as_float old)
  else
    let '(new, old) := atomicMin (float_as_uint cell) (float_as_uint value) in
    (uint_as_float new, uint_as_float old).

(** The pattern without its sign bit, the magnitude as a function of it,
    and the integer that orders the patterns that are not NaN as [<] orders
    the floats. *)
Definition abs_bits (b : Z) : Z := b mod 2147483648.

Definition mag (a : Z) : Z :=
  if a / 8388608 =? 0 then a mod 8388608
  else (8388608 + a mod 8388608) * 2 ^ (a / 8388608 - 1).

Definition key (b : Z) : Z :=
  if sign_bit b then - magnitude b else magnitude b.

Definition not_nan (b : Z) : Prop := abs_bits b <= 2139095040.

End Bits.

(** ** Further objects used in the statements *)

(** [createOutputIter]: the address of element ([m], [c]) of the output
    tile of a block, [output_ptr + m * o_strideM() + c]. *)
Definition out_address (cfg : Config) (p : Params) (m c : nat) : Z :=
  padd cfg (output_ptr p) (Z.of_nat m * o_strideM p + Z.of_nat c).

(** [createOutputAccumIter]: the address of element ([m], [c]) of the
    accumulation tile of a block, in the buffer of [output_accum_t]. *)
Definition accum_address (p : Params) (m c : nat) : Z :=
  ptr_add sizeof_accum (output_accum_ptr p)
    (Z.of_nat m * o_strideM p + Z.of_nat c).

(** [MM0::MmaCore::WarpCount]: the [ThreadblockShape] of
    [kQueriesPerBlock] x [kKeysPerBlock] cut into warp tiles of
    [WarpShape] = 32 x 32. *)
Definition WarpCount_kM (cfg : Config) : Z := kQueriesPerBlock cfg ÷ 32.
Definition WarpCount_kN (cfg : Config) : Z := kKeysPerBlock cfg ÷ 32.

(** [iteratorC_tile_offset] of a warp (with [tb_tile_offset = {0, 0, 0}]):
    its row and its column among the warp tiles. *)
Definition iteratorC_tile_offset (cfg : Config) (my_warp_id : Z) : Z * Z :=
  (Z.rem my_warp_id (WarpCount_kM cfg), my_warp_id ÷ WarpCount_kM cfg).

(** [addition_storage[accum_m + kQueriesPerBlock * tile_offset.column()]]
    and the number of entries of [addition_storage]. *)
Definition addition_storage_index (cfg : Config) (accum_m column : Z) : Z :=
  accum_m + kQueriesPerBlock cfg * column.
Definition addition_storage_size (cfg : Config) : Z :=
  kQueriesPerBlock cfg * WarpCount_kN cfg.

(** The denominator of the reference softmax of a row. *)
Definition softmax_denominator (nk : nat) (vis : nat -> bool) (l : nat -> R)
  : R :=
  sumR nk (fun j => if vis j then exp (l j) else 0%R).

(** A fixed-length problem without a mask whose tensors are laid out
    contiguously as [batch, head, row, column]. *)
Definition params_bhmk (B H M N K : Z) : Params :=
  {| query_ptr := 1024; key_ptr := 1048576; value_ptr := 2097152;
     mask_ptr := nullptr;
     cu_seqlens_q_ptr := nullptr; cu_seqlens_k_ptr := nullptr;
     output_ptr := 4194304; output_accum_ptr := nullptr;
     logsumexp_ptr := 8388608; scale := 1;
     head_dim := K; head_dim_value := K;
     num_queries := M; num_keys := N;
     causal := false; mask_broadcast_row := false;
     q_strideM := K; k_strideM := K; v_strideM := K; mask_strideM := 0;
     q_strideH := M * K; k_strideH := N * K; v_strideH := N * K;
     o_strideH := M * K; mask_strideH := 0;
     q_strideB := H * (M * K); k_strideB := H * (N * K);
     v_strideB := H * (N * K); o_strideB := H * (M * K);
     mask_strideB := 0;
     num_batches := B; num_heads := H |}.

(** * Properties *)

Open Scope R_scope.

(** ** Arithmetic of [accum_t] *)

Lemma ln2_pos : 0 < ln 2.
Proof. rewrite <- ln_1. apply ln_increasing; lra. Qed.

Lemma kLog2e_ln2 : kLog2e * ln 2 = 1.
Proof. unfold kLog2e. apply Rinv_l. pose proof ln2_pos. lra. Qed.

Lemma kLog2e_pos : 0 < kLog2e.
Proof. unfold kLog2e. apply Rinv_0_lt_compat, ln2_pos. Qed.

Lemma exp2f_kLog2e (x : R) : exp2f (Fin (kLog2e * x)) = Fin (exp x).
Proof.
  simpl. f_equal. f_equal.
  replace (kLog2e * x * ln 2) with (x * (kLog2e * ln 2)) by ring.
  rewrite kLog2e_ln2. ring.
Qed.

Open Scope Z_scope.

Lemma is_score_fin (r : R) : is_score (Fin r).
Proof. exact I. Qed.

Lemma is_score_ninf : is_score NInf.
Proof. exact I. Qed.

Lemma fle_refl (x : accum_t) : is_score x -> fle x x.
Proof. destruct x; simpl; intros; try tauto. lra. Qed.

Lemma fle_trans (x y z : accum_t) : fle x y -> fle y z -> fle x z.
Proof. destruct x, y, z; simpl; intros; try tauto. lra. Qed.

Lemma fle_antisym (x y : accum_t) : fle x y -> fle y x -> x = y.
Proof.
  destruct x, y; simpl; intros; try tauto. f_equal. lra.
Qed.

Lemma fle_ninf (x : accum_t) : is_score x -> fle NInf x.
Proof. destruct x; simpl; tauto. Qed.

Lemma fle_fin_is_fin (r : R) (y : accum_t) : fle (Fin r) y -> is_fin y.
Proof. destruct y; simpl; tauto. Qed.

(** The larger of two scores, as [fast_max] and [atomicMaxFloat] compute
    it. *)
Lemma smax_spec (a b : accum_t) :
  is_score a -> is_score b ->
  let r := if flt a b then b else a in
  is_score r /\ fle a r /\ fle b r /\ (r = a \/ r = b).
Proof.
  destruct a, b; simpl; try tauto; intros _ _.
  - destruct (Rlt_dec r r0); simpl; repeat split; try tauto; lra.
  - repeat split; try tauto; lra.
  - repeat split; try tauto; lra.
Qed.

Lemma fast_max_score (a b : accum_t) :
  is_score a -> is_score b -> fast_max a b = if flt a b then b else a.
Proof. destruct a, b; simpl; tauto. Qed.

Lemma flt_ninf_r (a : accum_t) : is_score a -> flt a NInf = false.
Proof. destruct a; simpl; tauto. Qed.

(** A left fold of "keep the larger" over candidates [g x]. *)
Lemma fold_smax_spec {A : Type} (f : accum_t -> A -> accum_t)
  (g : A -> accum_t) (l : list A) :
  (forall a x, is_score a -> In x l ->
               f a x = if flt a (g x) then g x else a) ->
  (forall x, In x l -> is_score (g x)) ->
  forall init, is_score init ->
    let r := fold_left f l init in
    is_score r /\ fle init r /\ (forall x, In x l -> fle (g x) r)
    /\ (r = init \/ exists x, In x l /\ r = g x).
Proof.
  induction l as [| y l IH]; intros Hf Hg init Hi; cbn [fold_left].
  - repeat split; [assumption | now apply fle_refl | intros x [] | now left].
  - assert (Hy : In y (y :: l)) by now left.
    rewrite (Hf init y Hi Hy).
    destruct (smax_spec init (g y) Hi (Hg y Hy)) as (H1 & H2 & H3 & H4).
    destruct (IH (fun a x Ha Hx => Hf a x Ha (or_intror Hx))
                 (fun x Hx => Hg x (or_intror Hx)) _ H1)
      as (I1 & I2 & I3 & I4).
    repeat split.
    + exact I1.
    + eapply fle_trans; eassumption.
    + intros x [<- | Hx]; [eapply fle_trans; eassumption | now apply I3].
    + destruct I4 as [I4 | (x & Hx & I4)].
      * destruct H4 as [H4 | H4]; rewrite I4, H4;
          [now left | right; exists y; split; [now left | reflexivity]].
      * right. exists x. split; [now right | exact I4].
Qed.

(** ** Sums *)

Open Scope R_scope.

Lemma sumR_ext (n : nat) (f g : nat -> R) :
  (forall k, (k < n)%nat -> f k = g k) -> sumR n f = sumR n g.
Proof.
  induction n as [| n IH]; intros H; [reflexivity |].
  simpl. rewrite IH by (intros; apply H; lia). rewrite H by lia. reflexivity.
Qed.

Lemma sumR_app (a b : nat) (f : nat -> R) :
  sumR (a + b) f = sumR a f + sumR b (fun k => f (a + k)%nat).
Proof.
  induction b as [| b IH].
  - rewrite Nat.add_0_r. simpl. ring.
  - rewrite Nat.add_succ_r. simpl. rewrite IH. ring.
Qed.

Lemma sumR_zero (n : nat) (f : nat -> R) :
  (forall k, (k < n)%nat -> f k = 0) -> sumR n f = 0.
Proof.
  induction n as [| n IH]; intros H; [reflexivity |].
  simpl. rewrite IH by (intros; apply H; lia). rewrite H by lia. ring.
Qed.

Lemma sumR_scal (n : nat) (a : R) (f : nat -> R) :
  sumR n (fun k => f k * a) = sumR n f * a.
Proof. induction n as [| n IH]; simpl; [ring | rewrite IH; ring]. Qed.

Lemma sumR_nonneg (n : nat) (f : nat -> R) :
  (forall k, (k < n)%nat -> 0 <= f k) -> 0 <= sumR n f.
Proof.
  induction n as [| n IH]; intros H; simpl; [lra |].
  pose proof (IH (fun k Hk => H k (Nat.lt_lt_succ_r _ _ Hk))).
  pose proof (H n (Nat.lt_succ_diag_r n)). lra.
Qed.

Lemma sumR_pos (n : nat) (f : nat -> R) (k0 : nat) :
  (forall k, (k < n)%nat -> 0 <= f k) -> (k0 < n)%nat -> 0 < f k0 ->
  0 < sumR n f.
Proof.
  induction n as [| n IH]; intros H Hk Hp; [lia |].
  simpl. pose proof (H n (Nat.lt_succ_diag_r n)).
  pose proof (sumR_nonneg n f (fun k Hk' => H k (Nat.lt_lt_succ_r _ _ Hk'))).
  destruct (Nat.eq_dec k0 n) as [-> | Hne]; [lra |].
  assert (0 < sumR n f) by (apply IH; [intros; apply H; lia | lia | exact Hp]).
  lra.
Qed.

(** Terms beyond [a] that vanish do not count. *)
Lemma sumR_trunc (a b : nat) (f : nat -> R) :
  (a <= b)%nat -> (forall k, (a <= k < b)%nat -> f k = 0) ->
  sumR b f = sumR a f.
Proof.
  intros Hab Hz. replace b with (a + (b - a))%nat by lia.
  rewrite sumR_app, (sumR_zero (b - a)); [ring |].
  intros k Hk. apply Hz. lia.
Qed.

Lemma list_sumR_perm (l l' : list R) :
  Permutation l l' -> list_sumR l = list_sumR l'.
Proof.
  induction 1; simpl; try lra; congruence.
Qed.

Lemma list_sumR_seq (f : nat -> R) (n : nat) :
  list_sumR (map f (seq 0 n)) = sumR n f.
Proof.
  induction n as [| n IH]; [reflexivity |].
  rewrite seq_S, map_app. simpl.
  rewrite <- IH. clear IH. generalize (map f (seq 0 n)) as l.
  induction l as [| x l IHl]; simpl; [ring | rewrite IHl; ring].
Qed.

(** Folding [fadd] over finite terms stays finite and adds them up. *)
Lemma fold_fadd_fin {A : Type} (h : accum_t -> A -> accum_t) (r : A -> R)
  (l : list A) :
  (forall a x, In x l -> h (Fin a) x = Fin (a + r x)) ->
  forall init : R,
    fold_left h l (Fin init) = Fin (init + list_sumR (map r l)).
Proof.
  induction l as [| y l IH]; intros Hh init; simpl.
  - f_equal. ring.
  - rewrite (Hh init y) by now left.
    rewrite IH by (intros; apply Hh; now right). f_equal. ring.
Qed.

Lemma fsum_fin (n : nat) (g : nat -> accum_t) (r : nat -> R) (init : R) :
  (forall k, (k < n)%nat -> g k = Fin (r k)) ->
  fsum n g (Fin init) = Fin (init + sumR n r).
Proof.
  induction n as [| n IH]; intros Hg; simpl.
  - f_equal. ring.
  - rewrite IH by (intros; apply Hg; lia). rewrite Hg by lia. simpl.
    f_equal. ring.
Qed.

Open Scope Z_scope.

(** ** check_supported *)


(** ** The tile coordinate resolver and the causal mask *)

Section Resolver.

Variable cfg : Config.
Variable gmem : Z -> R.
Variable imem : Z -> Z.
Variable lane_cols : nat -> list (list nat).

Lemma key_loop_done (fuel : nat) (p : Params) (qs iter : Z) (st : LoopState) :
  num_keys p <= iter ->
  key_loop cfg gmem lane_cols fuel p qs iter st = st.
Proof.
  intros H. destruct fuel as [| fuel]; [reflexivity |].
  simpl. destruct (Z.ltb_spec iter (num_keys p)); [lia | reflexivity].
Qed.

Lemma advance_num_keys (p p' : Params) (blockIdx : Dim3) :
  advance_to_block cfg imem p blockIdx = Some p' ->
  num_keys p' =
    if causal p
    then Z.min (dx blockIdx * kQueriesPerBlock cfg + kQueriesPerBlock cfg)
               (ref_num_keys imem p (dz blockIdx))
    else ref_num_keys imem p (dz blockIdx).
Proof.
  unfold advance_to_block, ref_num_keys, ref_k_start, varlen.
  destruct (negb (cu_seqlens_q_ptr p =? nullptr)); cbn [andb].
  - destruct (_ <=? _); [discriminate |].
    intros H; injection H as <-. reflexivity.
  - intros H; injection H as <-. reflexivity.
Qed.

(** C4. With [causal] set, [advance_to_block] clamps [num_keys] to
    [min(query_start + kQueriesPerBlock, num_keys)]; in the key loop the
    scores whose absolute key position exceeds their absolute query position
    are overwritten with minus infinity exactly on the iteration with
    [num_keys - iter_key_start <= kKeysPerBlock], which is the last one; on
    every other iteration the tile is left as it is. *)
Theorem causal_clamp_and_last_tile_mask
  (p p' : Params) (blockIdx : Dim3) :
  causal p = true ->
  advance_to_block cfg imem p blockIdx = Some p' ->
  let query_start := dx blockIdx * kQueriesPerBlock cfg in
  num_keys p' =
    Z.min (query_start + kQueriesPerBlock cfg)
          (ref_num_keys imem p (dz blockIdx))
  /\ forall (iter : Z) (m n : nat),
       let unmasked :=
         add_mask cfg gmem p' query_start iter
           (scale_accum cfg p' (mm0 cfg gmem p' iter)) in
       (num_keys p' - iter <= kKeysPerBlock cfg ->
        (query_start + Z.of_nat m < iter + Z.of_nat n ->
         score_tile cfg gmem p' query_start iter m n = NInf)
        /\ (iter + Z.of_nat n <= query_start + Z.of_nat m ->
            score_tile cfg gmem p' query_start iter m n = unmasked m n)
        /\ (forall fuel st,
              key_loop cfg gmem lane_cols fuel p' query_start
                (iter + kKeysPerBlock cfg) st = st))
       /\ (kKeysPerBlock cfg < num_keys p' - iter ->
           score_tile cfg gmem p' query_start iter m n = unmasked m n).
Proof.
  intros Hc Hadv query_start.
  pose proof (advance_num_keys _ _ _ Hadv) as Hnk. rewrite Hc in Hnk.
  split; [exact Hnk |].
  assert (Hc' : causal p' = true).
  { revert Hadv. unfold advance_to_block.
    destruct (_ && _); [discriminate |].
    intros H; injection H as <-. exact Hc. }
  intros iter m n unmasked. unfold score_tile, mask_causal, causal_applies.
  fold unmasked. rewrite Hc'. cbn [andb]. split.
  - intros Hlast.
    destruct (Z.leb_spec (num_keys p' - iter) (kKeysPerBlock cfg)); [| lia].
    repeat split.
    + intros Hgt.
      destruct (Z.ltb_spec (query_start + Z.of_nat m - iter) (Z.of_nat n));
        [reflexivity | lia].
    + intros Hle.
      destruct (Z.ltb_spec (query_start + Z.of_nat m - iter) (Z.of_nat n));
        [lia | reflexivity].
    + intros fuel st. apply key_loop_done. lia.
  - intros Hnot.
    destruct (Z.leb_spec (num_keys p' - iter) (kKeysPerBlock cfg));
      [lia | reflexivity].
Qed.


(** C8. When a log-sum-exp buffer is given, after the key loop a row [t] of
    the block below the remaining query count receives
    [mi[t] + log(s_prime[t])] from the final statistics, and every row past
    the query count and below [ceil_div(num_queries, kAlignLSE) * kAlignLSE],
    with [kAlignLSE = 32], receives plus infinity: these rows are rows of the
    block that holds the end of the sequence ([num_queries <=
    kQueriesPerBlock]). *)
Theorem logsumexp_rows (p : Params) (blockIdx : Dim3) (t : nat) :
  logsumexp_ptr p <> nullptr ->
  Z.rem (kQueriesPerBlock cfg) 32 = 0 ->
  let r := attention_kernel cfg gmem lane_cols p blockIdx in
  kAlignLSE = 32
  /\ (Z.of_nat t < num_queries p -> Z.of_nat t < kQueriesPerBlock cfg ->
      kr_logsumexp r t =
        Some (fadd (mi (kr_coefs r) t) (fast_log (s_prime (kr_coefs r) t))))
  /\ (0 <= num_queries p <= kQueriesPerBlock cfg ->
      num_queries p <= Z.of_nat t ->
      Z.of_nat t < ceil_div (num_queries p) kAlignLSE * kAlignLSE ->
      kr_logsumexp r t = Some PInf).
Proof.
  intros Hp Hrem r. subst r. cbn [kr_logsumexp kr_coefs attention_kernel].
  unfold logsumexp, in_row.
  destruct (Z.eqb_spec (logsumexp_ptr p) nullptr); [contradiction |].
  cbn [negb andb]. split; [reflexivity |]. split.
  - intros Hlt Ht.
    destruct (Z.ltb_spec (Z.of_nat t) (kQueriesPerBlock cfg)); [| lia].
    destruct (Z.ltb_spec (Z.of_nat t) (num_queries p)); [reflexivity | lia].
  - intros Hnq Hge Hdim.
    assert (Ht : Z.of_nat t < kQueriesPerBlock cfg).
    { unfold ceil_div, kAlignLSE in Hdim.
      rewrite Z.quot_div_nonneg in Hdim by lia.
      pose proof (Z.quot_rem' (kQueriesPerBlock cfg) 32) as Eq.
      rewrite Hrem in Eq.
      pose proof (Z.div_mod (num_queries p + 32 - 1) 32 ltac:(lia)).
      pose proof (Z.mod_pos_bound (num_queries p + 32 - 1) 32 ltac:(lia)).
      lia. }
    destruct (Z.ltb_spec (Z.of_nat t) (kQueriesPerBlock cfg)); [| lia].
    destruct (Z.ltb_spec (Z.of_nat t) (num_queries p)); [lia |].
    destruct (Z.ltb_spec (Z.of_nat t)
                (ceil_div (num_queries p) kAlignLSE * kAlignLSE));
      [reflexivity | lia].
Qed.

Lemma loop_body_mbr (p : Params) (b : bool) (qs iter : Z) (st : LoopState) :
  loop_body cfg gmem lane_cols (set_mask_broadcast_row p b) qs iter st
  = loop_body cfg gmem lane_cols p qs iter st.
Proof. reflexivity. Qed.

Lemma key_loop_mbr (p : Params) (b : bool) (qs : Z) (fuel : nat) :
  forall (iter : Z) (st : LoopState),
    key_loop cfg gmem lane_cols fuel (set_mask_broadcast_row p b) qs iter st
    = key_loop cfg gmem lane_cols fuel p qs iter st.
Proof.
  induction fuel as [| fuel IH]; intros iter st; [reflexivity |].
  cbn [key_loop]. change (num_keys (set_mask_broadcast_row p b))
    with (num_keys p).
  destruct (iter <? num_keys p); [| reflexivity].
  rewrite loop_body_mbr. apply IH.
Qed.

Lemma attention_kernel_mbr (p : Params) (b : bool) (blockIdx : Dim3) :
  attention_kernel cfg gmem lane_cols (set_mask_broadcast_row p b) blockIdx
  = attention_kernel cfg gmem lane_cols p blockIdx.
Proof.
  unfold attention_kernel.
  change (num_keys (set_mask_broadcast_row p b)) with (num_keys p).
  rewrite key_loop_mbr. reflexivity.
Qed.

Lemma advance_to_block_mbr (p : Params) (b : bool) (blockIdx : Dim3) :
  advance_to_block cfg imem (set_mask_broadcast_row p b) blockIdx
  = option_map (fun q => set_mask_broadcast_row q b)
               (advance_to_block cfg imem p blockIdx).
Proof.
  unfold advance_to_block.
  cbn [set_mask_broadcast_row cu_seqlens_q_ptr cu_seqlens_k_ptr num_queries].
  destruct (_ && _); reflexivity.
Qed.

(** C10. The result of a block does not depend on the runtime field
    [mask_broadcast_row]: replacing it changes neither the outcome of
    [advance_to_block] nor any output, log-sum-exp or statistics value. *)
Theorem mask_broadcast_row_ignored (p : Params) (b : bool) (blockIdx : Dim3) :
  attention_kernel_batched_impl cfg gmem imem lane_cols
    (set_mask_broadcast_row p b) blockIdx
  = attention_kernel_batched_impl cfg gmem imem lane_cols p blockIdx.
Proof.
  unfold attention_kernel_batched_impl. rewrite advance_to_block_mbr.
  destruct (advance_to_block cfg imem p blockIdx) as [q |]; [| reflexivity].
  cbn [option_map]. rewrite attention_kernel_mbr. reflexivity.
Qed.

End Resolver.

(** ** One call of [iterative_softmax], row by row *)

Open Scope R_scope.

Lemma inf_times_pos (b : bool) (r : R) :
  0 < r -> inf_times b r = if b then PInf else NInf.
Proof.
  intros H. unfold inf_times. destruct (Rlt_dec 0 r); [reflexivity | lra].
Qed.

Lemma fmul_score_pos (x : accum_t) (s : R) :
  0 < s -> is_score x ->
  fmul x (Fin s) = match x with Fin v => Fin (v * s) | _ => NInf end.
Proof.
  intros Hs Hx. destruct x; simpl in *; try tauto.
  now rewrite inf_times_pos.
Qed.

Lemma fmul_score_pos_is_score (x : accum_t) (s : R) :
  0 < s -> is_score x -> is_score (fmul x (Fin s)).
Proof.
  intros Hs Hx. rewrite fmul_score_pos by assumption.
  destruct x; simpl in *; tauto.
Qed.

Lemma fmul_score_pos_mono (x y : accum_t) (s : R) :
  0 < s -> is_score x -> is_score y -> fle x y ->
  fle (fmul x (Fin s)) (fmul y (Fin s)).
Proof.
  intros Hs Hx Hy Hle. rewrite !fmul_score_pos by assumption.
  destruct x, y; simpl in *; try tauto. nra.
Qed.

(** The exponentiated entry of step (2a): [exp2f(frag - kLog2e * mi)] after
    [frag] was multiplied by [scaling * kLog2e]. *)
Lemma exp2f_entry (x : accum_t) (s M : R) :
  0 < s -> is_score x ->
  exp2f (fsub (fmul (Fin (s * kLog2e)) x) (fmul (Fin kLog2e) (Fin M)))
  = Fin (weight s M x).
Proof.
  intros Hs Hx. pose proof kLog2e_pos as Hk.
  destruct x; simpl in Hx; try tauto.
  - cbn [fmul fsub fneg fadd weight].
    replace (s * kLog2e * r + - (kLog2e * M)) with (kLog2e * (s * r - M))
      by ring.
    apply exp2f_kLog2e.
  - cbn [fmul]. rewrite inf_times_pos by nra. reflexivity.
Qed.

Lemma exp2f_factor (mp : accum_t) (M : R) :
  is_score mp ->
  exp2f (fmul (Fin kLog2e) (fsub mp (Fin M))) = Fin (rescale_factor mp M).
Proof.
  intros Hmp. destruct mp; simpl in Hmp; try tauto.
  - cbn [fsub fneg fadd fmul rescale_factor].
    replace (r + - M) with (r - M) by ring. apply exp2f_kLog2e.
  - cbn [fsub fneg fadd fmul]. rewrite inf_times_pos by apply kLog2e_pos.
    reflexivity.
Qed.

Open Scope Z_scope.

Section Softmax.

Variable cfg : Config.
Variable lane_cols : nat -> list (list nat).

Lemma lane_max_spec (kFull : bool) (max_col : Z) (frag : Tile) (m : nat)
  (cols : list nat) :
  (forall n, In n cols -> is_score (frag m n)) ->
  let r := lane_max kFull max_col frag m cols in
  is_score r
  /\ (forall n, In n cols -> valid_col kFull max_col n = true ->
                fle (frag m n) r)
  /\ (r = NInf \/ exists n, In n cols /\ valid_col kFull max_col n = true
                            /\ r = frag m n).
Proof.
  intros Hs r.
  pose (g := fun n => if valid_col kFull max_col n then frag m n else NInf).
  destruct (fold_smax_spec
              (fun mx n => if kFull || (Z.of_nat n <? max_col)
                           then fast_max mx (frag m n) else mx)
              g cols) with (init := NInf) as (H1 & _ & H3 & H4).
  - intros a n Ha Hn. unfold g, valid_col.
    destruct (kFull || (Z.of_nat n <? max_col)).
    + apply fast_max_score; [exact Ha | now apply Hs].
    + now rewrite flt_ninf_r.
  - intros n Hn. unfold g. destruct (valid_col _ _ _); [now apply Hs | exact I].
  - exact I.
  - fold (lane_max kFull max_col frag m cols) in H1, H3, H4. fold r in H1, H3, H4.
    repeat split.
    + exact H1.
    + intros n Hn Hv. specialize (H3 n Hn). unfold g in H3.
      now rewrite Hv in H3.
    + destruct H4 as [H4 | (n & Hn & H4)]; [now left |].
      unfold g in H4. destruct (valid_col kFull max_col n) eqn:Hv.
      * right. exists n. repeat split; assumption.
      * now left.
Qed.

Lemma update_mi_spec (kFull : bool) (max_col : Z) (s : R) (frag : Tile)
  (m : nat) (mi_m : accum_t) :
  (0 < s)%R ->
  (forall n, In n (concat (lane_cols m)) -> is_score (frag m n)) ->
  is_score mi_m ->
  let r := update_mi lane_cols kFull max_col s frag m mi_m in
  is_score r /\ fle mi_m r
  /\ (forall n, In n (concat (lane_cols m)) ->
                valid_col kFull max_col n = true ->
                fle (fmul (frag m n) (Fin s)) r)
  /\ (r = mi_m \/ exists n, In n (concat (lane_cols m))
                            /\ valid_col kFull max_col n = true
                            /\ r = fmul (frag m n) (Fin s)).
Proof.
  intros Hs Hfrag Hmi r.
  assert (Hin : forall cols n, In cols (lane_cols m) -> In n cols ->
                               In n (concat (lane_cols m))).
  { intros cols n Hc Hn. apply in_concat. exists cols. now split. }
  pose (g := fun cols => fmul (lane_max kFull max_col frag m cols) (Fin s)).
  destruct (fold_smax_spec
              (fun acc cols =>
                 atomicMaxFloat acc
                   (fmul (lane_max kFull max_col frag m cols) (Fin s)))
              g (lane_cols m)) with (init := mi_m) as (H1 & H2 & H3 & H4).
  - intros a cols _ _. reflexivity.
  - intros cols Hc. unfold g. apply fmul_score_pos_is_score; [exact Hs |].
    apply lane_max_spec. intros n Hn. apply Hfrag. eapply Hin; eassumption.
  - exact Hmi.
  - fold (update_mi lane_cols kFull max_col s frag m mi_m) in H1, H2, H3, H4.
    fold r in H1, H2, H3, H4. repeat split; try assumption.
    + intros n Hn Hv. apply in_concat in Hn. destruct Hn as (cols & Hc & Hn).
      destruct (lane_max_spec kFull max_col frag m cols) as (L1 & L2 & _).
      { intros k Hk. apply Hfrag. eapply Hin; eassumption. }
      eapply fle_trans; [| apply (H3 cols Hc)]. unfold g.
      apply fmul_score_pos_mono; try assumption.
      * apply Hfrag. eapply Hin; eassumption.
      * now apply L2.
    + destruct H4 as [H4 | (cols & Hc & H4)]; [now left |].
      destruct (lane_max_spec kFull max_col frag m cols) as (_ & _ & L3).
      { intros k Hk. apply Hfrag. eapply Hin; eassumption. }
      unfold g in H4. destruct L3 as [L3 | (n & Hn & Hv & L3)].
      * left. rewrite L3 in H4. cbn [fmul] in H4.
        rewrite inf_times_pos in H4 by exact Hs.
        apply fle_antisym; [rewrite H4; now apply fle_ninf | exact H2].
      * right. exists n. rewrite L3 in H4. repeat split; try assumption.
        eapply Hin; eassumption.
Qed.

End Softmax.

Section SoftmaxRow.

Variable cfg : Config.
Variable lane_cols : nat -> list (list nat).

Let K : nat := Z.to_nat (kKeysPerBlock cfg).

Lemma iterative_softmax_mi (kFull kIsFirst keep : bool) (frag_o frag : Tile)
  (c : ScalingCoefs) (max_col : Z) (s : R) (m : nat) :
  Z.of_nat m < kQueriesPerBlock cfg ->
  mi (sr_coefs (iterative_softmax cfg lane_cols kFull kIsFirst keep
                  frag_o frag c max_col s)) m
  = update_mi lane_cols kFull max_col s frag m (mi c m).
Proof.
  intros Hm. unfold iterative_softmax, in_row. cbn [sr_coefs mi].
  destruct (Z.ltb_spec (Z.of_nat m) (kQueriesPerBlock cfg)); [reflexivity | lia].
Qed.

Lemma iterative_softmax_row (kFull kIsFirst keep : bool) (frag_o frag : Tile)
  (c : ScalingCoefs) (max_col : Z) (s : R) (m : nat) (M' : R) :
  (0 < s)%R ->
  Z.of_nat m < kQueriesPerBlock cfg ->
  sum_row cfg m = true ->
  Permutation (concat (lane_cols m)) (seq 0 K) ->
  (forall n, (n < K)%nat -> is_score (frag m n)) ->
  is_score (mi c m) -> is_score (m_prime c m) ->
  let r := iterative_softmax cfg lane_cols kFull kIsFirst keep
             frag_o frag c max_col s in
  mi (sr_coefs r) m = Fin M' ->
  let mp := if kIsFirst then m_prime c m else mi c m in
  m_prime (sr_coefs r) m = Fin (rescale_factor mp M')
  /\ (forall S, s_prime c m = Fin S ->
        s_prime (sr_coefs r) m =
          Fin (S * rescale_factor mp M'
               + sumR K (fun n => if valid_col kFull max_col n
                                  then weight s M' (frag m n) else 0))%R)
  /\ (forall n, (n < K)%nat ->
        sr_frag r m n =
          Fin (if valid_col kFull max_col n
               then weight s M' (frag m n) else 0%R))
  /\ (forall c', sr_frag_o r m c' =
        if keep && negb kIsFirst
        then fmul (frag_o m c') (Fin (rescale_factor mp M'))
        else frag_o m c').
Proof.
  intros Hs Hm Hsum Hperm Hfrag Hmi Hmp r HM' mp.
  pose proof (iterative_softmax_mi kFull kIsFirst keep frag_o frag c
                max_col s m Hm) as Hmi1.
  fold r in Hmi1. rewrite HM' in Hmi1. clear HM'.
  assert (Hmps : is_score mp) by (subst mp; destruct kIsFirst; assumption).
  assert (Hrow : in_row cfg m = true).
  { unfold in_row. now apply Z.ltb_lt. }
  assert (Hmp1 : (if negb kIsFirst then mi c m else m_prime c m) = mp)
    by (subst mp; now destruct kIsFirst).
  pose proof (exp2f_factor mp M' Hmps) as Hfac.
  assert (Hentry : forall n, (n < K)%nat ->
    (if kFull || (Z.of_nat n <? max_col)
     then exp2f (fsub (fmul (Fin (s * kLog2e)) (frag m n))
                      (fmul (Fin kLog2e) (Fin M')))
     else Fin 0)
    = Fin (if valid_col kFull max_col n
           then weight s M' (frag m n) else 0%R)).
  { intros n Hn. unfold valid_col.
    destruct (kFull || (Z.of_nat n <? max_col)); [| reflexivity].
    apply exp2f_entry; [exact Hs | now apply Hfrag]. }
  subst r. unfold iterative_softmax.
  cbn [sr_coefs sr_frag sr_frag_o m_prime s_prime mi].
  rewrite Hsum, !Hrow, andb_true_r, <- Hmi1, Hmp1, Hfac.
  repeat split.
  - intros S HS. rewrite HS. unfold add_row_total.
    change (fmul (Fin S) (Fin (rescale_factor mp M')))
      with (Fin (S * rescale_factor mp M')).
    rewrite (fold_fadd_fin _
               (fun n => if valid_col kFull max_col n
                         then weight s M' (frag m n) else 0%R)).
    + f_equal. f_equal.
      rewrite (list_sumR_perm _ _ (Permutation_map _ Hperm)).
      apply list_sumR_seq.
    + intros a n Hn. cbv beta. rewrite Hrow, <- Hmi1.
      rewrite Hentry; [reflexivity |].
      apply (Permutation_in _ Hperm) in Hn. apply in_seq in Hn. lia.
  - intros n Hn. rewrite ?Hrow, <- ?Hmi1. now apply Hentry.
  - intros c'. destruct (keep && negb kIsFirst); [| reflexivity].
    now rewrite ?Hrow, ?andb_true_r, <- ?Hmi1, ?Hmp1, ?Hfac.
Qed.

End SoftmaxRow.

(** ** Columns beyond the keys of a partial tile *)

Section PartialTile.

Variable cfg : Config.
Variable lane_cols : nat -> list (list nat).

Lemma lane_max_agree (kFull : bool) (max_col : Z) (frag frag' : Tile)
  (m : nat) (cols : list nat) :
  (forall n, valid_col kFull max_col n = true -> frag m n = frag' m n) ->
  lane_max kFull max_col frag m cols = lane_max kFull max_col frag' m cols.
Proof.
  intros H. unfold lane_max. generalize NInf.
  induction cols as [| n cols IH]; intros acc; [reflexivity |].
  cbn [fold_left]. fold (valid_col kFull max_col n).
  destruct (valid_col kFull max_col n) eqn:Hv.
  - rewrite (H n Hv). apply IH.
  - apply IH.
Qed.

Lemma update_mi_agree (kFull : bool) (max_col : Z) (s : R)
  (frag frag' : Tile) (m : nat) (mi_m : accum_t) :
  (forall n, valid_col kFull max_col n = true -> frag m n = frag' m n) ->
  update_mi lane_cols kFull max_col s frag m mi_m
  = update_mi lane_cols kFull max_col s frag' m mi_m.
Proof.
  intros H. unfold update_mi. revert mi_m.
  induction (lane_cols m) as [| cols l IH]; intros acc; [reflexivity |].
  cbn [fold_left]. rewrite (lane_max_agree _ _ frag frag' m cols H). apply IH.
Qed.

Lemma add_row_total_agree (frag frag' : Tile) (m : nat) (init : accum_t) :
  (forall n, frag m n = frag' m n) ->
  add_row_total lane_cols frag m init = add_row_total lane_cols frag' m init.
Proof.
  intros H. unfold add_row_total. revert init.
  induction (concat (lane_cols m)) as [| n l IH]; intros acc; [reflexivity |].
  cbn [fold_left]. rewrite H. apply IH.
Qed.

Lemma iterative_softmax_agree (kFull kIsFirst keep : bool)
  (frag_o frag frag' : Tile) (c : ScalingCoefs) (max_col : Z) (s : R) :
  (forall m n, valid_col kFull max_col n = true -> frag m n = frag' m n) ->
  let r := iterative_softmax cfg lane_cols kFull kIsFirst keep
             frag_o frag c max_col s in
  let r' := iterative_softmax cfg lane_cols kFull kIsFirst keep
              frag_o frag' c max_col s in
  (forall m, mi (sr_coefs r) m = mi (sr_coefs r') m
             /\ m_prime (sr_coefs r) m = m_prime (sr_coefs r') m
             /\ s_prime (sr_coefs r) m = s_prime (sr_coefs r') m)
  /\ (forall m n, sr_frag r m n = sr_frag r' m n)
  /\ (forall m n, sr_frag_o r m n = sr_frag_o r' m n).
Proof.
  intros H r r'. subst r r'. unfold iterative_softmax.
  cbn [sr_coefs sr_frag sr_frag_o m_prime s_prime mi].
  assert (Hmi : forall m,
    update_mi lane_cols kFull max_col s frag m (mi c m)
    = update_mi lane_cols kFull max_col s frag' m (mi c m)).
  { intros m. apply update_mi_agree. intros n. apply H. }
  assert (Hfrag : forall m n,
    (if kFull || (Z.of_nat n <? max_col)
     then exp2f (fsub (fmul (Fin (s * kLog2e)) (frag m n))
                   (fmul (Fin kLog2e)
                      (if in_row cfg m
                       then update_mi lane_cols kFull max_col s frag m (mi c m)
                       else mi c m)))
     else Fin 0)
    = (if kFull || (Z.of_nat n <? max_col)
       then exp2f (fsub (fmul (Fin (s * kLog2e)) (frag' m n))
                     (fmul (Fin kLog2e)
                        (if in_row cfg m
                         then update_mi lane_cols kFull max_col s frag' m
                                (mi c m)
                         else mi c m)))
       else Fin 0)).
  { intros m n. rewrite Hmi.
    destruct (kFull || (Z.of_nat n <? max_col)) eqn:Hv; [| reflexivity].
    now rewrite (H m n Hv). }
  split; [| split].
  - intros m. rewrite Hmi. repeat split.
    destruct (sum_row cfg m); [| reflexivity].
    apply add_row_total_agree. intros n. cbv beta. apply Hfrag.
  - intros m n. apply Hfrag.
  - intros m n. destruct (keep && negb kIsFirst); [| reflexivity].
    now rewrite Hmi.
Qed.

(** C5. On a partial key tile ([num_keys - iter_key_start <
    kKeysPerBlock]) the columns at index [>= num_keys - iter_key_start] get
    the weight zero and take no part in the row maximum or in the running
    sum: whatever the score tile holds in those columns, the statistics, the
    exponentiated tile and the rescaled output are the same. *)
Theorem partial_tile_columns_excluded
  (p : Params) (iter : Z) (frag_o frag frag' : Tile) (c : ScalingCoefs) :
  num_keys p - iter < kKeysPerBlock cfg ->
  (forall m n, Z.of_nat n < num_keys p - iter -> frag m n = frag' m n) ->
  let r := softmax_call cfg lane_cols p iter frag_o frag c in
  let r' := softmax_call cfg lane_cols p iter frag_o frag' c in
  (forall m n, num_keys p - iter <= Z.of_nat n -> sr_frag r m n = Fin 0)
  /\ (forall m, mi (sr_coefs r) m = mi (sr_coefs r') m
                /\ m_prime (sr_coefs r) m = m_prime (sr_coefs r') m
                /\ s_prime (sr_coefs r) m = s_prime (sr_coefs r') m)
  /\ (forall m n, sr_frag r m n = sr_frag r' m n)
  /\ (forall m n, sr_frag_o r m n = sr_frag_o r' m n).
Proof.
  intros Hpart Hagree r r'. split.
  - intros m n Hn. subst r. unfold softmax_call, iterative_softmax.
    cbn [sr_frag].
    destruct (Z.leb_spec (kKeysPerBlock cfg) (num_keys p - iter)); [lia |].
    destruct (Z.ltb_spec (Z.of_nat n) (num_keys p - iter)); [lia |].
    reflexivity.
  - apply iterative_softmax_agree. intros m n Hv. apply Hagree.
    unfold valid_col in Hv.
    destruct (Z.leb_spec (kKeysPerBlock cfg) (num_keys p - iter)); [lia |].
    cbn [orb] in Hv. now apply Z.ltb_lt.
Qed.

End PartialTile.

(** ** The online-softmax recurrence of one call *)

Section Recurrence.

Variable cfg : Config.
Variable lane_cols : nat -> list (list nat).

Let K : nat := Z.to_nat (kKeysPerBlock cfg).

Lemma iterative_softmax_step (kFull kIsFirst keep : bool)
  (frag_o frag : Tile) (c : ScalingCoefs) (max_col : Z) (s : R) (m : nat)
  (S : R) :
  (0 < s)%R ->
  Z.of_nat m < kQueriesPerBlock cfg ->
  sum_row cfg m = true ->
  Permutation (concat (lane_cols m)) (seq 0 K) ->
  (forall n, (n < K)%nat -> is_score (frag m n)) ->
  is_score (mi c m) -> is_score (m_prime c m) ->
  s_prime c m = Fin S ->
  (exists n, (n < K)%nat /\ valid_col kFull max_col n = true
             /\ is_fin (frag m n))
  \/ is_fin (mi c m) ->
  let r := iterative_softmax cfg lane_cols kFull kIsFirst keep
             frag_o frag c max_col s in
  let mp := if kIsFirst then m_prime c m else mi c m in
  exists M' : R,
    mi (sr_coefs r) m = Fin M'
    /\ fle (mi c m) (Fin M')
    /\ (forall n, (n < K)%nat -> valid_col kFull max_col n = true ->
                  fle (fmul (frag m n) (Fin s)) (Fin M'))
    /\ (Fin M' = mi c m
        \/ exists n, (n < K)%nat /\ valid_col kFull max_col n = true
                     /\ Fin M' = fmul (frag m n) (Fin s))
    /\ m_prime (sr_coefs r) m = Fin (rescale_factor mp M')
    /\ s_prime (sr_coefs r) m =
         Fin (S * rescale_factor mp M'
              + sumR K (fun n => if valid_col kFull max_col n
                                 then weight s M' (frag m n) else 0))%R
    /\ (forall n, (n < K)%nat ->
          sr_frag r m n =
            Fin (if valid_col kFull max_col n
                 then weight s M' (frag m n) else 0%R))
    /\ (forall c', sr_frag_o r m c' =
          if keep && negb kIsFirst
          then fmul (frag_o m c') (Fin (rescale_factor mp M'))
          else frag_o m c').
Proof.
  intros Hs Hm Hsum Hperm Hfrag Hmi Hmp HS Hfin r mp.
  assert (Hin : forall n, In n (concat (lane_cols m)) <-> (n < K)%nat).
  { intros n. split; intros H.
    - apply (Permutation_in _ Hperm) in H. apply in_seq in H. lia.
    - apply (Permutation_in _ (Permutation_sym Hperm)), in_seq. lia. }
  destruct (update_mi_spec lane_cols kFull max_col s frag m (mi c m) Hs)
    as (U1 & U2 & U3 & U4); [intros n Hn; now apply Hfrag, Hin | exact Hmi |].
  pose proof (iterative_softmax_mi cfg lane_cols kFull kIsFirst keep
                frag_o frag c max_col s m Hm) as Hmi1.
  fold r in Hmi1. rewrite <- Hmi1 in U1, U2, U3, U4.
  assert (HM : exists M', mi (sr_coefs r) m = Fin M').
  { destruct Hfin as [(n & Hn & Hv & Hf) | Hf].
    - specialize (U3 n (proj2 (Hin n) Hn) Hv).
      destruct (frag m n) as [v | | |] eqn:E; simpl in Hf; try tauto.
      cbn [fmul] in U3. apply fle_fin_is_fin in U3.
      destruct (mi (sr_coefs r) m); simpl in U3; try tauto. now eexists.
    - destruct (mi c m) as [v | | |]; simpl in Hf; try tauto.
      apply fle_fin_is_fin in U2.
      destruct (mi (sr_coefs r) m); simpl in U2; try tauto. now eexists. }
  destruct HM as (M' & HM). exists M'.
  destruct (iterative_softmax_row cfg lane_cols kFull kIsFirst keep frag_o
              frag c max_col s m M' Hs Hm Hsum Hperm Hfrag Hmi Hmp HM)
    as (R1 & R2 & R3 & R4).
  rewrite HM in U2, U3, U4. repeat split.
  - exact HM.
  - exact U2.
  - intros n Hn Hv. apply U3; [now apply Hin | exact Hv].
  - destruct U4 as [U4 | (n & Hn & Hv & U4)]; [now left |].
    right. exists n. repeat split; try assumption. now apply Hin.
  - exact R1.
  - now apply R2.
  - exact R3.
  - exact R4.
Qed.


End Recurrence.

(** ** Row-broadcast masks *)

Section Broadcast.

Variable cfg : Config.
Variable gmem : Z -> R.
Variable lane_cols : nat -> list (list nat).

Lemma load_padd (ptr a b : Z) :
  load cfg gmem (padd cfg ptr a) b = load cfg gmem ptr (a + b).
Proof. unfold load, padd, ptr_add. f_equal. ring. Qed.

Lemma add_mask_broadcast (p : Params) (ptr_b stride_b : Z) (row : Z -> R)
  (qs iter : Z) :
  (forall j, j < num_keys p ->
     mask_elem cfg gmem (set_mask p ptr_b stride_b) qs j = row j) ->
  (forall i j, qs <= i < qs + num_queries p -> j < num_keys p ->
     mask_elem cfg gmem p i j = row j) ->
  add_mask (set_kMaskBroadcastRow cfg true) gmem
    (set_mask p ptr_b stride_b) qs iter
    (scale_accum (set_kMaskBroadcastRow cfg true) (set_mask p ptr_b stride_b)
       (mm0 (set_kMaskBroadcastRow cfg true) gmem
          (set_mask p ptr_b stride_b) iter))
  = add_mask (set_kMaskBroadcastRow cfg false) gmem p qs iter
      (scale_accum (set_kMaskBroadcastRow cfg false) p
         (mm0 (set_kMaskBroadcastRow cfg false) gmem p iter)).
Proof.
  intros Hb Hf.
  unfold add_mask, scale_accum, mm0, mask_tensor_ref, problem_size_0_m,
    problem_size_0_n.
  cbn [set_mask set_kMaskBroadcastRow kAddMask kMaskBroadcastRow
       kQueriesPerBlock kKeysPerBlock num_queries num_keys mask_ptr
       mask_strideM scale].
  destruct (kAddMask cfg); [| reflexivity].
  extensionality m. extensionality n.
  destruct (Z.ltb_spec (Z.of_nat m)
              (Z.min (kQueriesPerBlock cfg) (num_queries p))) as [Hm | Hm];
    [| reflexivity].
  destruct (Z.ltb_spec (Z.of_nat n)
              (Z.min (kKeysPerBlock cfg) (num_keys p - iter))) as [Hn | Hn];
    [| reflexivity].
  cbn [andb]. change (Z.of_nat 0 <? 1) with true. cbn [andb].
  f_equal. f_equal.
  change (load (set_kMaskBroadcastRow cfg true)) with (load cfg).
  change (load (set_kMaskBroadcastRow cfg false)) with (load cfg).
  change (padd (set_kMaskBroadcastRow cfg true)) with (padd cfg).
  change (padd (set_kMaskBroadcastRow cfg false)) with (padd cfg).
  rewrite !load_padd.
  transitivity (row (iter + Z.of_nat n)).
  - rewrite <- (Hb (iter + Z.of_nat n)) by lia. unfold mask_elem.
    cbn [set_mask mask_ptr mask_strideM]. f_equal. cbn [Z.of_nat]. ring.
  - rewrite <- (Hf (qs + Z.of_nat m) (iter + Z.of_nat n)) by lia.
    unfold mask_elem. f_equal. ring.
Qed.

Lemma score_tile_broadcast (p : Params) (ptr_b stride_b : Z) (row : Z -> R)
  (qs iter : Z) :
  (forall j, j < num_keys p ->
     mask_elem cfg gmem (set_mask p ptr_b stride_b) qs j = row j) ->
  (forall i j, qs <= i < qs + num_queries p -> j < num_keys p ->
     mask_elem cfg gmem p i j = row j) ->
  score_tile (set_kMaskBroadcastRow cfg true) gmem
    (set_mask p ptr_b stride_b) qs iter
  = score_tile (set_kMaskBroadcastRow cfg false) gmem p qs iter.
Proof.
  intros Hb Hf. unfold score_tile.
  rewrite (add_mask_broadcast p ptr_b stride_b row qs iter Hb Hf).
  reflexivity.
Qed.

Lemma loop_body_broadcast (p : Params) (ptr_b stride_b : Z) (row : Z -> R)
  (qs iter : Z) (st : LoopState) :
  (forall j, j < num_keys p ->
     mask_elem cfg gmem (set_mask p ptr_b stride_b) qs j = row j) ->
  (forall i j, qs <= i < qs + num_queries p -> j < num_keys p ->
     mask_elem cfg gmem p i j = row j) ->
  loop_body (set_kMaskBroadcastRow cfg true) gmem lane_cols
    (set_mask p ptr_b stride_b) qs iter st
  = loop_body (set_kMaskBroadcastRow cfg false) gmem lane_cols p qs iter st.
Proof.
  intros Hb Hf. unfold loop_body.
  rewrite (score_tile_broadcast p ptr_b stride_b row qs iter Hb Hf).
  reflexivity.
Qed.

Lemma key_loop_broadcast (p : Params) (ptr_b stride_b : Z) (row : Z -> R)
  (qs : Z) (fuel : nat) :
  (forall j, j < num_keys p ->
     mask_elem cfg gmem (set_mask p ptr_b stride_b) qs j = row j) ->
  (forall i j, qs <= i < qs + num_queries p -> j < num_keys p ->
     mask_elem cfg gmem p i j = row j) ->
  forall (iter : Z) (st : LoopState),
    key_loop (set_kMaskBroadcastRow cfg true) gmem lane_cols fuel
      (set_mask p ptr_b stride_b) qs iter st
    = key_loop (set_kMaskBroadcastRow cfg false) gmem lane_cols fuel
        p qs iter st.
Proof.
  intros Hb Hf. induction fuel as [| fuel IH]; intros iter st; [reflexivity |].
  cbn [key_loop]. change (num_keys (set_mask p ptr_b stride_b))
    with (num_keys p).
  destruct (iter <? num_keys p); [| reflexivity].
  rewrite (loop_body_broadcast p ptr_b stride_b row qs iter st Hb Hf).
  apply IH.
Qed.


End Broadcast.

(** ** The statements at small problems *)

Lemma warp_cols64_partition (m : nat) :
  Permutation (concat (warp_cols64 m))
    (seq 0 (Z.to_nat (kKeysPerBlock (cfg64 true false true)))).
Proof. apply Permutation_refl. Defined.

Lemma causal_clamp_witness :
  exists p',
    advance_to_block (cfg64 true false true) imem0
      (params0 1 64 128 true) block0 = Some p'
    /\ num_keys p' = 64.
Proof.
  eexists. split; [reflexivity |].
  exact (proj1 (causal_clamp_and_last_tile_mask (cfg64 true false true)
                  gmem0 imem0 warp_cols64 (params0 1 64 128 true) _ block0
                  eq_refl eq_refl)).
Defined.


Lemma logsumexp_rows_witness :
  kr_logsumexp
    (attention_kernel (cfg64 true false true) gmem0 warp_cols64
       (params0 1 1 1 false) block0) 1%nat
  = Some PInf.
Proof.
  refine (proj2 (proj2 (logsumexp_rows (cfg64 true false true) gmem0
                          warp_cols64 (params0 1 1 1 false) block0 1%nat
                          _ _)) _ _ _).
  - discriminate.
  - reflexivity.
  - split; discriminate.
  - discriminate.
  - reflexivity.
Defined.

Lemma partial_tile_columns_excluded_witness :
  sr_frag
    (softmax_call (cfg64 true false true) warp_cols64
       (params0 1 1 1 false) 0 (fun _ _ => Fin 0) (fun _ _ => Fin 0)
       init_coefs) 0%nat 1%nat
  = Fin 0.
Proof.
  refine (proj1 (partial_tile_columns_excluded (cfg64 true false true)
                   warp_cols64 (params0 1 1 1 false) 0 (fun _ _ => Fin 0)
                   (fun _ _ => Fin 0)
                   (fun _ n => match n with O => Fin 0 | _ => Fin 1 end)
                   init_coefs _ _) 0%nat 1%nat _).
  - reflexivity.
  - intros m [| n] H; [reflexivity | cbn in H; lia].
  - discriminate.
Defined.




(** ** Well-formed instantiations *)

Lemma config_ok_cases (cfg : Config) :
  config_ok cfg = true ->
  (kQueriesPerBlock cfg = 32 /\ kKeysPerBlock cfg = 64)
  \/ (kQueriesPerBlock cfg = 32 /\ kKeysPerBlock cfg = 128)
  \/ (kQueriesPerBlock cfg = 64 /\ kKeysPerBlock cfg = 64).
Proof.
  unfold config_ok, kNumThreads, kLinesPerWarp, kNumWarpsPerBlock, kWarpSize.
  intros H. repeat (apply andb_prop in H; destruct H as [H ?]).
  apply Z.ltb_lt in H. apply Z.eqb_eq in H4, H3, H0.
  apply Z.ltb_lt in H2. apply Z.leb_le in H1.
  pose proof (Z.quot_rem' (kQueriesPerBlock cfg) 32) as Eq.
  pose proof (Z.quot_rem' (kKeysPerBlock cfg) 32) as Ek.
  rewrite H4 in Eq. rewrite H3 in Ek.
  set (a := kQueriesPerBlock cfg ÷ 32) in *.
  set (b := kKeysPerBlock cfg ÷ 32) in *.
  assert (Eab : (kQueriesPerBlock cfg * kKeysPerBlock cfg) ÷ (32 * 32) = a * b).
  { rewrite Eq, Ek.
    replace ((32 * a + 0) * (32 * b + 0)) with (a * b * (32 * 32)) by ring.
    apply Z.quot_mul. lia. }
  rewrite Eab in *.
  assert (Hab : a * b <= 4) by lia.
  assert (Ha1 : 1 <= a) by lia.
  assert (Hlt : a < a * b) by lia.
  assert (Hb2 : 2 <= b).
  { destruct (Z_le_gt_dec b 1) as [Hle | Hgt]; [| lia].
    pose proof (Z.mul_le_mono_nonneg_l b 1 a ltac:(lia) Hle). lia. }
  assert (Ha : a <= 2).
  { pose proof (Z.mul_le_mono_nonneg_l 2 b a ltac:(lia) Hb2). lia. }
  assert (Hb : b <= 4).
  { pose proof (Z.mul_le_mono_nonneg_r 1 a b ltac:(lia) Ha1). lia. }
  assert (Ca : a = 1 \/ a = 2) by lia.
  assert (Cb : b = 2 \/ b = 3 \/ b = 4) by lia.
  destruct Ca as [Ca | Ca], Cb as [Cb | [Cb | Cb]];
    rewrite Ca, Cb in *; try lia;
    rewrite Eq in H0; cbn in H0; try discriminate H0.
Qed.

Lemma config_ok_facts (cfg : Config) :
  config_ok cfg = true ->
  0 < kQueriesPerBlock cfg /\ 0 < kKeysPerBlock cfg
  /\ (exists d, 0 < d /\ kKeysPerBlock cfg = d * kQueriesPerBlock cfg)
  /\ (forall m, Z.of_nat m < kQueriesPerBlock cfg -> sum_row cfg m = true).
Proof.
  intros H. pose proof H as H'. unfold config_ok in H'.
  repeat (apply andb_prop in H'; destruct H' as [H' ?]).
  apply Z.eqb_eq in H0.
  destruct (config_ok_cases cfg H) as [[Eq Ek] | [[Eq Ek] | [Eq Ek]]].
  - repeat split; try lia.
    + exists 2. lia.
    + intros m Hm. unfold sum_row. rewrite H0. now apply Z.ltb_lt.
  - repeat split; try lia.
    + exists 4. lia.
    + intros m Hm. unfold sum_row. rewrite H0. now apply Z.ltb_lt.
  - repeat split; try lia.
    + exists 1. lia.
    + intros m Hm. unfold sum_row. rewrite H0. now apply Z.ltb_lt.
Qed.

(** ** The score tile, entry by entry *)

Section ScoreTile.

Variable cfg : Config.
Variable gmem : Z -> R.

Lemma score_tile_val (p : Params) (qs iter : Z) (m n : nat) :
  score_tile cfg gmem p qs iter m n =
    if causal_applies cfg p iter && (qs + Z.of_nat m - iter <? Z.of_nat n)
    then NInf
    else Fin (tile_logit cfg gmem p qs iter m n).
Proof.
  unfold score_tile, mask_causal.
  assert (E : add_mask cfg gmem p qs iter
                (scale_accum cfg p (mm0 cfg gmem p iter)) m n
              = Fin (tile_logit cfg gmem p qs iter m n)).
  { unfold add_mask, scale_accum, mm0, tile_logit.
    destruct (kAddMask cfg); cbn [andb].
    - destruct ((Z.of_nat m <? problem_size_0_m cfg p)
                && (Z.of_nat n <? problem_size_0_n cfg p iter));
        [destruct (kMaskBroadcastRow cfg) |]; reflexivity.
    - destruct ((Z.of_nat m <? problem_size_0_m cfg p)
                && (Z.of_nat n <? problem_size_0_n cfg p iter));
        reflexivity. }
  destruct (causal_applies cfg p iter); cbn [andb]; [| exact E].
  destruct (qs + Z.of_nat m - iter <? Z.of_nat n); [reflexivity | exact E].
Qed.

Lemma score_tile_is_score (p : Params) (qs iter : Z) (m n : nat) :
  is_score (score_tile cfg gmem p qs iter m n).
Proof.
  rewrite score_tile_val. destruct (_ && _); exact I.
Qed.

Lemma tile_of_key (t n : nat) :
  0 < kKeysPerBlock cfg ->
  (n < Z.to_nat (kKeysPerBlock cfg))%nat ->
  tile_start cfg (t * Z.to_nat (kKeysPerBlock cfg) + n)
  = Z.of_nat (t * Z.to_nat (kKeysPerBlock cfg))
  /\ tile_col cfg (t * Z.to_nat (kKeysPerBlock cfg) + n) = n.
Proof.
  intros HK Hn. unfold tile_start, tile_col.
  set (K := kKeysPerBlock cfg) in *.
  assert (E : Z.of_nat (t * Z.to_nat K + n) = Z.of_nat t * K + Z.of_nat n).
  { rewrite Nat2Z.inj_add, Nat2Z.inj_mul, Z2Nat.id by lia. reflexivity. }
  rewrite E.
  assert (Hn' : 0 <= Z.of_nat n < K) by lia.
  split.
  - rewrite Z.div_add_l by lia. rewrite (Z.div_small _ _ Hn').
    rewrite Nat2Z.inj_mul, Z2Nat.id by lia. ring.
  - rewrite Z.add_comm, Z.mod_add by lia. rewrite (Z.mod_small _ _ Hn').
    apply Nat2Z.id.
Qed.

End ScoreTile.

(** ** The loop invariant of a row *)

Open Scope R_scope.

Lemma weight_rescale (s M M' : R) (x : accum_t) :
  weight s M x * exp (M - M') = weight s M' x.
Proof.
  destruct x; simpl; try ring.
  rewrite <- exp_plus. f_equal. ring.
Qed.

Lemma weight_nonneg (s M : R) (x : accum_t) : 0 <= weight s M x.
Proof.
  destruct x; simpl; try lra. left. apply exp_pos.
Qed.

Lemma weight_shift (s M : R) (x : accum_t) :
  weight s M x = weight s 0 x * exp (- M).
Proof.
  destruct x; simpl; try ring.
  rewrite <- exp_plus. f_equal. ring.
Qed.

Open Scope Z_scope.

Section RowInvariant.

Variable cfg : Config.
Variable gmem : Z -> R.
Variable lane_cols : nat -> list (list nat).
Variable p : Params.
Variable qs : Z.
Variable m : nat.

Let K : nat := Z.to_nat (kKeysPerBlock cfg).
Let s : R := softmax_scaling cfg p.

Hypothesis Hcfg : config_ok cfg = true.
Hypothesis Hperm :
  Permutation (concat (lane_cols m)) (seq 0 K).
Hypothesis Hs : (0 < softmax_scaling cfg p)%R.
Hypothesis Hqs : 0 <= qs.
Hypothesis Hm : Z.of_nat m < kQueriesPerBlock cfg.

Let SN (N : nat) (M : R) : R := S_upto cfg gmem p qs m N M.
Let AN (c N : nat) (M : R) : R := A_upto cfg gmem p qs m c N M.

Lemma K_pos : (0 < K)%nat /\ Z.of_nat K = kKeysPerBlock cfg.
Proof.
  destruct (config_ok_facts cfg Hcfg) as (_ & HK & _).
  subst K. split; lia.
Qed.

Lemma key_weight_rescale (M M' : R) (j : nat) :
  (key_weight cfg gmem p qs M m j * exp (M - M')
   = key_weight cfg gmem p qs M' m j)%R.
Proof.
  unfold key_weight. destruct (_ <? _); [apply weight_rescale | ring].
Qed.

Lemma key_weight_nonneg (M : R) (j : nat) :
  (0 <= key_weight cfg gmem p qs M m j)%R.
Proof.
  unfold key_weight. destruct (_ <? _); [apply weight_nonneg | lra].
Qed.

Lemma S_rescale (N : nat) (M M' : R) :
  (SN N M * exp (M - M') = SN N M')%R.
Proof.
  subst SN. unfold S_upto. rewrite <- sumR_scal. apply sumR_ext.
  intros j _. apply key_weight_rescale.
Qed.

Lemma A_rescale (c N : nat) (M M' : R) :
  (AN c N M * exp (M - M') = AN c N M')%R.
Proof.
  subst AN. unfold A_upto. rewrite <- sumR_scal. apply sumR_ext.
  intros j _. rewrite <- (key_weight_rescale M M' j). ring.
Qed.

Lemma key_score_0 :
  key_score cfg gmem p qs m 0
  = Fin (tile_logit cfg gmem p qs 0 m 0).
Proof.
  destruct K_pos as [HK HK'].
  unfold key_score, tile_start, tile_col. cbn [Z.of_nat].
  rewrite Z.div_0_l, Z.mod_0_l, Z.mul_0_r by lia. cbn [Z.to_nat].
  rewrite score_tile_val.
  destruct (Z.ltb_spec (qs + Z.of_nat m - 0) (Z.of_nat 0)); [lia |].
  now rewrite andb_false_r.
Qed.

Lemma S_pos (N : nat) (M : R) :
  (0 < N)%nat -> 0 < num_keys p -> (0 < SN N M)%R.
Proof.
  intros HN Hnk. subst SN. unfold S_upto.
  apply (sumR_pos N _ 0%nat); [intros; apply key_weight_nonneg | exact HN |].
  unfold key_weight. cbn [Z.of_nat].
  destruct (Z.ltb_spec 0 (num_keys p)); [| lia].
  rewrite key_score_0. cbn [weight]. apply exp_pos.
Qed.

(** Keys of the tile that starts at key [N = t * K]. *)
Lemma tile_entry (t n : nat) (M' : R) :
  (n < K)%nat ->
  let N := (t * K)%nat in
  let iter := Z.of_nat N in
  (if valid_col (kKeysPerBlock cfg <=? num_keys p - iter)
        (num_keys p - iter) n
   then weight s M' (score_tile cfg gmem p qs iter m n) else 0%R)
  = key_weight cfg gmem p qs M' m (N + n).
Proof.
  intros Hn N iter. destruct K_pos as [HK HK'].
  destruct (tile_of_key cfg t n) as [E1 E2]; [lia | exact Hn |].
  fold K in E1, E2. fold N in E1, E2.
  unfold key_weight, key_score. rewrite E1, E2. fold iter.
  unfold valid_col.
  assert (E : Z.of_nat (N + n) = iter + Z.of_nat n)
    by (subst iter; lia).
  rewrite E.
  destruct (Z.leb_spec (kKeysPerBlock cfg) (num_keys p - iter)) as [Hf | Hf];
    cbn [orb].
  - destruct (Z.ltb_spec (iter + Z.of_nat n) (num_keys p)); [reflexivity | lia].
  - destruct (Z.ltb_spec (Z.of_nat n) (num_keys p - iter));
      destruct (Z.ltb_spec (iter + Z.of_nat n) (num_keys p));
      try reflexivity; lia.
Qed.

Lemma tile_keys_past_end (t n : nat) (M' : R) :
  (Z.to_nat (problem_size_0_n cfg p (Z.of_nat (t * K))) <= n < K)%nat ->
  key_weight cfg gmem p qs M' m (t * K + n) = 0%R.
Proof.
  intros Hn. destruct K_pos as [HK HK']. unfold key_weight.
  unfold problem_size_0_n in Hn.
  destruct (Z.ltb_spec (Z.of_nat (t * K + n)) (num_keys p)); [| reflexivity].
  lia.
Qed.

Lemma problem_size_0_n_le (iter : Z) :
  (Z.to_nat (problem_size_0_n cfg p iter) <= K)%nat.
Proof. unfold problem_size_0_n. subst K. lia. Qed.

Lemma mma_pv_row (t : nat) (si src : Tile) (c : nat) (M' A0 : R) :
  let N := (t * K)%nat in
  (forall n, (n < K)%nat ->
     si m n = Fin (key_weight cfg gmem p qs M' m (N + n))) ->
  src m c = Fin A0 ->
  Z.of_nat c < head_dim_value p ->
  mma_pv cfg gmem p (Z.of_nat N) si src m c
  = Fin (A0 + sumR K (fun n => key_weight cfg gmem p qs M' m (N + n)
                               * key_value cfg gmem p (N + n) c))%R.
Proof.
  intros N Hsi Hsrc Hc. unfold mma_pv. rewrite Hsrc.
  pose proof (problem_size_0_n_le (Z.of_nat N)) as Hle.
  rewrite (fsum_fin _ _
             (fun n => key_weight cfg gmem p qs M' m (N + n)
                       * key_value cfg gmem p (N + n) c)%R).
  - f_equal. f_equal. symmetry. apply sumR_trunc; [exact Hle |].
    intros n Hn. pose proof (tile_keys_past_end t n M' Hn) as E.
    fold N in E. cbv beta. rewrite E. ring.
  - intros n Hn. rewrite Hsi by lia. unfold iterator_V.
    destruct (Z.ltb_spec (Z.of_nat n) (problem_size_0_n cfg p (Z.of_nat N)));
      [| lia].
    destruct (Z.ltb_spec (Z.of_nat c) (head_dim_value p)); [| lia].
    cbn [andb fmul]. f_equal. f_equal. unfold key_value, load, padd, ptr_add.
    f_equal. lia.
Qed.

Lemma fdiv_fin_pos (a b : R) : (0 < b)%R -> fdiv (Fin a) (Fin b) = Fin (a / b).
Proof.
  intros Hb. unfold fdiv. destruct (Rlt_dec 0 b); [reflexivity | contradiction].
Qed.

Lemma row_inv_step (t : nat) (st : LoopState) :
  let N := (t * K)%nat in
  Z.of_nat N < num_keys p ->
  row_inv cfg gmem p qs m N st ->
  row_inv cfg gmem p qs m (N + K)
    (loop_body cfg gmem lane_cols p qs (Z.of_nat N) st).
Proof.
  intros N Hlt (M & Hstate & HS & Hacc).
  destruct K_pos as [HK HK'].
  destruct (config_ok_facts cfg Hcfg) as (_ & _ & _ & Hsum).
  set (iter := Z.of_nat N) in *.
  set (frag := score_tile cfg gmem p qs iter).
  assert (Hfirst : (iter =? 0) = (N =? 0)%nat).
  { subst iter. destruct (Nat.eqb_spec N 0) as [-> | Hne]; [reflexivity |].
    apply Z.eqb_neq. lia. }
  (* the softmax call on this row *)
  destruct (iterative_softmax_step cfg lane_cols
              (kKeysPerBlock cfg <=? num_keys p - iter) (iter =? 0)
              (kKeepOutputInRF cfg) (accum_o st) frag (coefs st)
              (num_keys p - iter) s m (SN N M))
    as (M' & R1 & _ & _ & _ & R5 & R6 & R7 & R8).
  { exact Hs. }
  { exact Hm. }
  { now apply Hsum. }
  { exact Hperm. }
  { intros n _. apply score_tile_is_score. }
  { destruct Hstate as [(_ & -> & _) | (_ & -> & _)]; exact I. }
  { destruct Hstate as [(_ & _ & ->) | (_ & _ & H)]; [exact I | exact H]. }
  { exact HS. }
  { destruct Hstate as [(HN & _ & _) | (_ & -> & _)]; [left | right; exact I].
    exists 0%nat. repeat split; [exact HK | |].
    - unfold valid_col. apply orb_true_iff. right. apply Z.ltb_lt.
      cbn [Z.of_nat]. lia.
    - subst frag. rewrite score_tile_val.
      assert (iter = 0) by (subst iter; lia).
      destruct (Z.ltb_spec (qs + Z.of_nat m - iter) (Z.of_nat 0)); [lia |].
      rewrite andb_false_r. exact I. }
  change (iterative_softmax cfg lane_cols
            (kKeysPerBlock cfg <=? num_keys p - iter) (iter =? 0)
            (kKeepOutputInRF cfg) (accum_o st) frag (coefs st)
            (num_keys p - iter) s)
    with (softmax_call cfg lane_cols p iter (accum_o st) frag (coefs st))
    in R1, R5, R6, R7, R8.
  set (r := softmax_call cfg lane_cols p iter (accum_o st) frag (coefs st))
    in *.
  set (factor := rescale_factor
                   (if iter =? 0 then m_prime (coefs st) m
                    else mi (coefs st) m) M') in *.
  assert (HfS : (SN N M * factor = SN N M')%R).
  { destruct Hstate as [(HN & _ & Hmp) | (HN & Hmi & _)].
    - subst SN. cbv beta. rewrite HN. unfold S_upto. cbn [sumR]. ring.
    - subst factor. rewrite Hfirst.
      destruct (Nat.eqb_spec N 0); [lia |]. rewrite Hmi.
      cbn [rescale_factor]. apply S_rescale. }
  assert (HfA : forall c, (AN c N M * factor = AN c N M')%R).
  { intros c. destruct Hstate as [(HN & _ & Hmp) | (HN & Hmi & _)].
    - subst AN. cbv beta. rewrite HN. unfold A_upto. cbn [sumR]. ring.
    - subst factor. rewrite Hfirst.
      destruct (Nat.eqb_spec N 0); [lia |]. rewrite Hmi.
      cbn [rescale_factor]. apply A_rescale. }
  assert (Hfrag : forall n, (n < K)%nat ->
            sr_frag r m n = Fin (key_weight cfg gmem p qs M' m (N + n))).
  { intros n Hn. rewrite (R7 n Hn). f_equal. subst frag.
    apply (tile_entry t n M' Hn). }
  assert (HS' : s_prime (sr_coefs r) m = Fin (SN (N + K) M')).
  { rewrite R6, HfS. f_equal. subst SN. cbv beta. unfold S_upto.
    rewrite sumR_app. f_equal. apply sumR_ext. intros n Hn. subst frag.
    apply (tile_entry t n M' Hn). }
  assert (HA' : forall c, (AN c (N + K) M'
            = AN c N M' + sumR K (fun n =>
                 key_weight cfg gmem p qs M' m (N + n)
                 * key_value cfg gmem p (N + n) c))%R).
  { intros c. subst AN. cbv beta. unfold A_upto. now rewrite sumR_app. }
  exists M'. split; [| split].
  - right. split; [lia |]. unfold loop_body. fold iter. fold frag. fold r.
    destruct (kKeepOutputInRF cfg); cbn [coefs]; rewrite R1, R5;
      split; [reflexivity | exact I | reflexivity | exact I].
  - unfold loop_body. fold iter. fold frag. fold r.
    destruct (kKeepOutputInRF cfg); cbn [coefs]; exact HS'.
  - intros c Hc. specialize (Hacc c Hc).
    assert (Hc' : Z.of_nat c < head_dim_value p /\ in_value_blocks cfg p c = true).
    { unfold in_output in Hc. repeat (apply andb_prop in Hc; destruct Hc as [Hc ?]).
      split; [now apply Z.ltb_lt | assumption]. }
    destruct Hc' as [Hc1 Hc2].
    unfold loop_body. fold iter. fold frag. fold r.
    destruct (kKeepOutputInRF cfg) eqn:Hkeep; cbn [accum_o output].
    + rewrite Hc2.
      assert (Hsrc : sr_frag_o r m c = Fin (AN c N M')).
      { rewrite R8. rewrite Hfirst.
        destruct (Nat.eqb_spec N 0) as [HN | HN]; cbn [andb negb].
        - rewrite Hacc. f_equal. subst AN. cbv beta. rewrite HN.
          reflexivity.
        - rewrite Hacc. cbn [fmul]. f_equal. apply HfA. }
      pose proof (mma_pv_row t (sr_frag r) (sr_frag_o r) c M' (AN c N M')
                    Hfrag Hsrc Hc1) as E.
      fold N in E. fold iter in E. rewrite E.
      f_equal. symmetry. apply HA'.
    + rewrite Hc. cbn [andb].
      assert (Hpv : mma_pv cfg gmem p iter (sr_frag r) (fun _ _ => Fin 0) m c
                = Fin (0 + sumR K (fun n =>
                     key_weight cfg gmem p qs M' m (N + n)
                     * key_value cfg gmem p (N + n) c))%R).
      { exact (mma_pv_row t (sr_frag r) (fun _ _ => Fin 0) c M' 0%R Hfrag
                 eq_refl Hc1). }
      assert (Hv0 :
        (if iter =? 0
         then mma_pv cfg gmem p iter (sr_frag r) (fun _ _ => Fin 0) m c
         else fadd (fmul (m_prime (sr_coefs r) m) (accum_o st m c))
                   (mma_pv cfg gmem p iter (sr_frag r) (fun _ _ => Fin 0) m c))
        = Fin (AN c (N + K) M')).
      { rewrite Hpv, (HA' c). rewrite Hfirst.
        destruct (Nat.eqb_spec N 0) as [HN | HN].
        - f_equal. subst AN. cbv beta. rewrite HN. unfold A_upto.
          cbn [sumR]. reflexivity.
        - destruct Hacc as [Hacc _]. rewrite Hacc by lia. rewrite R5.
          cbn [fmul fadd]. f_equal. rewrite <- (HfA c).
          change (A_upto cfg gmem p qs m c N M) with (AN c N M). ring. }
      unfold rescale. rewrite Hv0, HS'.
      assert (Hnk : 0 < num_keys p) by lia.
      pose proof (S_pos (N + K) M' ltac:(lia) Hnk) as Hpos.
      split.
      * intros Hnot _.
        destruct (Z.leb_spec (num_keys p) (iter + kKeysPerBlock cfg)); [lia |].
        reflexivity.
      * intros Hdone _.
        destruct (Z.leb_spec (num_keys p) (iter + kKeysPerBlock cfg)); [| lia].
        rewrite fdiv_fin_pos by exact Hpos. reflexivity.
Qed.

Lemma row_inv_init (output0 : nat -> nat -> option accum_t) :
  row_inv cfg gmem p qs m 0 (init_state output0).
Proof.
  exists 0%R. split; [| split].
  - left. repeat split.
  - reflexivity.
  - intros c _. destruct (kKeepOutputInRF cfg); [reflexivity |].
    split; intros _ H; inversion H.
Qed.

Lemma key_loop_inv (fuel : nat) :
  forall (t : nat) (st : LoopState),
    row_inv cfg gmem p qs m (t * K) st ->
    num_keys p - Z.of_nat (t * K) <= Z.of_nat fuel ->
    exists T : nat,
      (t <= T)%nat /\ num_keys p <= Z.of_nat (T * K)
      /\ row_inv cfg gmem p qs m (T * K)
           (key_loop cfg gmem lane_cols fuel p qs (Z.of_nat (t * K)) st).
Proof.
  destruct K_pos as [HK HK'].
  induction fuel as [| fuel IH]; intros t st Hinv Hfuel.
  - exists t. repeat split; [lia | lia | exact Hinv].
  - cbn [key_loop].
    destruct (Z.ltb_spec (Z.of_nat (t * K)) (num_keys p)) as [Hlt | Hge].
    + pose proof (row_inv_step t st Hlt Hinv) as Hstep.
      replace (t * K + K)%nat with (S t * K)%nat in Hstep by lia.
      replace (Z.of_nat (t * K) + kKeysPerBlock cfg)
        with (Z.of_nat (S t * K)) by lia.
      destruct (IH (S t) _ Hstep) as (T & HT & Hdone & HinvT); [lia |].
      exists T. repeat split; [lia | exact Hdone | exact HinvT].
    + exists t. repeat split; [lia | lia | exact Hinv].
Qed.

(** Past the last key the sums do not change. *)
Lemma S_upto_done (N : nat) (M : R) :
  num_keys p <= Z.of_nat N ->
  SN N M = SN (Z.to_nat (num_keys p)) M.
Proof.
  intros HN. subst SN. unfold S_upto. apply sumR_trunc; [lia |].
  intros j Hj. unfold key_weight.
  destruct (Z.ltb_spec (Z.of_nat j) (num_keys p)); [lia | reflexivity].
Qed.

Lemma A_upto_done (c N : nat) (M : R) :
  num_keys p <= Z.of_nat N ->
  AN c N M = AN c (Z.to_nat (num_keys p)) M.
Proof.
  intros HN. subst AN. unfold A_upto. apply sumR_trunc; [lia |].
  intros j Hj. unfold key_weight.
  destruct (Z.ltb_spec (Z.of_nat j) (num_keys p)); [lia | ring].
Qed.

(** The result of the block on row [m]. *)
Lemma attention_kernel_row (blockIdx : Dim3) :
  qs = dx blockIdx * kQueriesPerBlock cfg ->
  0 < num_keys p ->
  let r := attention_kernel cfg gmem lane_cols p blockIdx in
  let nk := Z.to_nat (num_keys p) in
  exists M : R,
    mi (kr_coefs r) m = Fin M
    /\ s_prime (kr_coefs r) m = Fin (SN nk M)
    /\ (0 < SN nk M)%R
    /\ forall c, in_output cfg p m c = true ->
         kr_output r m c = Some (Fin (AN c nk M / SN nk M)).
Proof.
  intros Hq Hnk r nk. subst r. unfold attention_kernel. rewrite <- Hq.
  cbn [kr_coefs kr_output].
  destruct (key_loop_inv (Z.to_nat (num_keys p)) 0
              (init_state (fun _ _ => None))
              (row_inv_init _)) as (T & _ & Hdone & Hinv); [cbn; lia |].
  cbn [Nat.mul Z.of_nat] in Hinv.
  set (st := key_loop cfg gmem lane_cols (Z.to_nat (num_keys p)) p qs 0
               (init_state (fun _ _ => None))) in *.
  destruct Hinv as (M & Hstate & HS & Hacc).
  assert (HT : (0 < T * K)%nat) by lia.
  destruct Hstate as [(H0 & _) | (_ & Hmi & _)]; [lia |].
  pose proof (S_pos (T * K) M HT Hnk) as Hpos.
  rewrite (S_upto_done _ M Hdone) in Hpos. fold nk in Hpos.
  exists M. repeat split.
  - exact Hmi.
  - rewrite HS. f_equal. apply (S_upto_done _ M Hdone).
  - exact Hpos.
  - intros c Hc. specialize (Hacc c Hc). unfold epilogue_at_end.
    destruct (kKeepOutputInRF cfg).
    + rewrite Hc. unfold rescale. rewrite Hacc, HS.
      change (S_upto cfg gmem p qs m (T * K) M) with (SN (T * K) M).
      change (A_upto cfg gmem p qs m c (T * K) M) with (AN c (T * K) M).
      rewrite (S_upto_done _ M Hdone), (A_upto_done c _ M Hdone).
      fold nk. now rewrite fdiv_fin_pos.
    + destruct Hacc as [_ Hout]. rewrite (Hout Hdone HT).
      change (S_upto cfg gmem p qs m (T * K) M) with (SN (T * K) M).
      change (A_upto cfg gmem p qs m c (T * K) M) with (AN c (T * K) M).
      rewrite (S_upto_done _ M Hdone), (A_upto_done c _ M Hdone).
      reflexivity.
Qed.

End RowInvariant.

(** ** From the running sums to the softmax of the row *)

Open Scope R_scope.

Lemma softmax_attention_ext (nk : nat) (vis vis' : nat -> bool)
  (l l' v v' : nat -> R) :
  (forall j, (j < nk)%nat ->
     vis j = vis' j /\ (vis j = true -> l j = l' j /\ v j = v' j)) ->
  softmax_attention nk vis l v = softmax_attention nk vis' l' v'.
Proof.
  intros H. unfold softmax_attention. apply (f_equal2 Rdiv);
    apply sumR_ext; intros j Hj; destruct (H j Hj) as [E1 E2];
    rewrite <- E1; destruct (vis j); try reflexivity;
    destruct (E2 eq_refl) as [El Ev]; rewrite ?El, ?Ev; reflexivity.
Qed.

Lemma softmax_attention_trunc (nk nk' : nat) (vis : nat -> bool)
  (l v : nat -> R) :
  (nk <= nk')%nat ->
  (forall j, (nk <= j < nk')%nat -> vis j = false) ->
  softmax_attention nk' vis l v = softmax_attention nk vis l v.
Proof.
  intros Hle H. unfold softmax_attention. apply (f_equal2 Rdiv);
    apply sumR_trunc; try exact Hle; intros j Hj; now rewrite (H j Hj).
Qed.

Open Scope Z_scope.

Section RowSoftmax.

Variable cfg : Config.
Variable gmem : Z -> R.
Variable lane_cols : nat -> list (list nat).
Variable p : Params.
Variable qs : Z.
Variable m : nat.

Lemma key_weight_shift (M : R) (j : nat) :
  Z.of_nat j < num_keys p ->
  (key_weight cfg gmem p qs M m j
   = (if key_visible cfg gmem p qs m j
      then exp (key_logit cfg gmem p qs m j) else 0) * exp (- M))%R.
Proof.
  intros Hj. unfold key_weight, key_visible, key_logit.
  destruct (Z.ltb_spec (Z.of_nat j) (num_keys p)); [| lia].
  rewrite weight_shift.
  destruct (key_score cfg gmem p qs m j); cbn [weight]; try ring.
  f_equal. f_equal. ring.
Qed.

Lemma sums_softmax (c : nat) (M : R) :
  let nk := Z.to_nat (num_keys p) in
  (0 < S_upto cfg gmem p qs m nk M)%R ->
  (A_upto cfg gmem p qs m c nk M / S_upto cfg gmem p qs m nk M)%R
  = softmax_attention nk (key_visible cfg gmem p qs m)
      (key_logit cfg gmem p qs m) (fun j => key_value cfg gmem p j c).
Proof.
  intros nk Hpos. unfold softmax_attention.
  set (S' := sumR nk (fun j => if key_visible cfg gmem p qs m j
                               then exp (key_logit cfg gmem p qs m j)
                               else 0%R)).
  set (A' := sumR nk (fun j => if key_visible cfg gmem p qs m j
                               then (exp (key_logit cfg gmem p qs m j)
                                     * key_value cfg gmem p j c)%R
                               else 0%R)).
  assert (ES : S_upto cfg gmem p qs m nk M = (S' * exp (- M))%R).
  { unfold S_upto. subst S'. rewrite <- sumR_scal. apply sumR_ext.
    intros j Hj. apply key_weight_shift. lia. }
  assert (EA : A_upto cfg gmem p qs m c nk M = (A' * exp (- M))%R).
  { unfold A_upto. subst A'. rewrite <- sumR_scal. apply sumR_ext.
    intros j Hj. rewrite key_weight_shift by lia.
    destruct (key_visible cfg gmem p qs m j); ring. }
  rewrite ES in Hpos. rewrite ES, EA.
  pose proof (exp_pos (- M)) as He.
  assert (S' <> 0%R) by (intros E; rewrite E in Hpos; lra).
  field. split; lra.
Qed.

End RowSoftmax.

(** ** From the block to the attention problem *)

Section Problem.

Variable cfg : Config.
Variable gmem : Z -> R.
Variable imem : Z -> Z.

Lemma advance_spec (P p : Params) (blockIdx : Dim3) :
  advance_to_block cfg imem P blockIdx = Some p ->
  let b := dz blockIdx in
  let h := dy blockIdx in
  let qs := dx blockIdx * kQueriesPerBlock cfg in
  query_ptr p =
    padd cfg (query_ptr P)
      (batch_off P b (q_strideB P)
       + (ref_q_start imem P b + qs) * q_strideM P + h * q_strideH P)
  /\ key_ptr p =
       padd cfg (key_ptr P)
         (batch_off P b (k_strideB P)
          + ref_k_start imem P b * k_strideM P + h * k_strideH P)
  /\ value_ptr p =
       padd cfg (value_ptr P)
         (batch_off P b (v_strideB P)
          + ref_k_start imem P b * v_strideM P + h * v_strideH P)
  /\ mask_ptr p =
       (if mask_ptr P =? nullptr then mask_ptr P
        else padd cfg (mask_ptr P) (b * mask_strideB P + h * mask_strideH P))
  /\ num_queries p = ref_num_queries imem P b - qs
  /\ num_keys p =
       (if causal P
        then Z.min (qs + kQueriesPerBlock cfg) (ref_num_keys imem P b)
        else ref_num_keys imem P b)
  /\ scale p = scale P /\ causal p = causal P
  /\ head_dim p = head_dim P /\ head_dim_value p = head_dim_value P
  /\ q_strideM p = q_strideM P /\ k_strideM p = k_strideM P
  /\ v_strideM p = v_strideM P /\ mask_strideM p = mask_strideM P
  /\ (varlen P = true -> qs < ref_num_queries imem P b).
Proof.
  unfold advance_to_block, ref_num_queries, ref_num_keys, ref_q_start,
    ref_k_start, batch_off, varlen.
  destruct (negb (cu_seqlens_q_ptr P =? nullptr)); cbn [andb].
  - destruct (Z.leb_spec
                (iload imem
                   (ptr_add sizeof_int32 (cu_seqlens_q_ptr P) (dz blockIdx)) 1
                 - iload imem
                     (ptr_add sizeof_int32 (cu_seqlens_q_ptr P)
                        (dz blockIdx)) 0)
                (dx blockIdx * kQueriesPerBlock cfg)); [discriminate |].
    intros E; injection E as <-.
    cbn [query_ptr key_ptr value_ptr mask_ptr num_queries num_keys scale
         causal head_dim head_dim_value q_strideM k_strideM v_strideM
         mask_strideM].
    repeat split; try reflexivity; try lia;
      unfold padd, ptr_add; ring.
  - intros E; injection E as <-.
    cbn [query_ptr key_ptr value_ptr mask_ptr num_queries num_keys scale
         causal head_dim head_dim_value q_strideM k_strideM v_strideM
         mask_strideM].
    repeat split; try reflexivity; try (intros; discriminate);
      unfold padd, ptr_add; ring.
Qed.

End Problem.

Section Translation.

Variable cfg : Config.
Variable gmem : Z -> R.
Variable imem : Z -> Z.
Variable P p : Params.
Variable blockIdx : Dim3.
Variable m : nat.

Let b : Z := dz blockIdx.
Let h : Z := dy blockIdx.
Let qs : Z := dx blockIdx * kQueriesPerBlock cfg.
Let i : nat := (Z.to_nat qs + m)%nat.

Hypothesis Hcfg : config_ok cfg = true.
Hypothesis Hadv : advance_to_block cfg imem P blockIdx = Some p.
Hypothesis Hdx : 0 <= dx blockIdx.

Lemma qs_nonneg : 0 <= qs /\ Z.of_nat i = qs + Z.of_nat m.
Proof.
  destruct (config_ok_facts cfg Hcfg) as (HQ & _).
  assert (0 <= qs) by (subst qs; apply Z.mul_nonneg_nonneg; lia).
  split; [assumption | subst i; lia].
Qed.

Lemma tile_split (j : nat) :
  let ts := tile_start cfg j in
  let col := tile_col cfg j in
  ts + Z.of_nat col = Z.of_nat j
  /\ 0 <= Z.of_nat col < kKeysPerBlock cfg
  /\ exists q, 0 <= q /\ ts = kKeysPerBlock cfg * q.
Proof.
  destruct (config_ok_facts cfg Hcfg) as (_ & HK & _).
  intros ts col. subst ts col. unfold tile_start, tile_col.
  pose proof (Z.mod_pos_bound (Z.of_nat j) (kKeysPerBlock cfg) HK) as Hb.
  pose proof (Z.div_mod (Z.of_nat j) (kKeysPerBlock cfg) ltac:(lia)) as Hd.
  rewrite Z2Nat.id by lia. repeat split; try lia.
  exists (Z.of_nat j / kKeysPerBlock cfg). split; [| reflexivity].
  apply Z.div_pos; lia.
Qed.

Lemma key_value_ref (j c : nat) :
  key_value cfg gmem p j c = ref_V cfg gmem imem P b h j c.
Proof.
  destruct (advance_spec cfg imem P p blockIdx Hadv)
    as (_ & _ & Ev & _ & _ & _ & _ & _ & _ & _ & _ & _ & Evs & _).
  unfold key_value, ref_V. rewrite Ev, Evs.
  unfold load, padd, ptr_add. f_equal. fold b h. ring.
Qed.

Lemma key_visible_ref (j : nat) :
  Z.of_nat j < num_keys p ->
  key_visible cfg gmem p qs m j = ref_visible P i j.
Proof.
  intros Hj.
  destruct (advance_spec cfg imem P p blockIdx Hadv)
    as (_ & _ & _ & _ & _ & Enk & _ & Ec & _).
  destruct qs_nonneg as [Hqs Hi].
  destruct (tile_split j) as (Hsum & Hcol & q & Hq & Hts).
  unfold key_visible, key_score. rewrite score_tile_val.
  unfold causal_applies, ref_visible. rewrite Ec.
  destruct (causal P) eqn:Hc; cbn [andb negb orb]; [| reflexivity].
  try rewrite Hc in Enk. fold qs in Enk.
  destruct (Z.leb_spec (num_keys p - tile_start cfg j) (kKeysPerBlock cfg))
    as [Hlast | Hnot]; cbn [andb].
  - destruct (Z.ltb_spec (qs + Z.of_nat m - tile_start cfg j)
                (Z.of_nat (tile_col cfg j)));
      destruct (Nat.leb_spec j i); try reflexivity; lia.
  - destruct (Nat.leb_spec j i) as [_ | Hgt]; [reflexivity | exfalso].
    assert (Hq' : qs = dx blockIdx * kQueriesPerBlock cfg) by reflexivity.
    destruct (config_ok_cases cfg Hcfg) as [[Eq Ek] | [[Eq Ek] | [Eq Ek]]];
      rewrite Eq, Ek in *; lia.
Qed.

Lemma key_logit_ref (j : nat) :
  (kAddMask cfg = true -> mask_ptr P <> nullptr) ->
  (kAddMask cfg = true -> kMaskBroadcastRow cfg = true ->
   mask_strideM P = 0) ->
  Z.of_nat j < num_keys p ->
  Z.of_nat m < problem_size_0_m cfg p ->
  key_visible cfg gmem p qs m j = true ->
  key_logit cfg gmem p qs m j = ref_logit cfg gmem imem P b h i j.
Proof.
  intros Hmask Hbc Hj Hm Hvis.
  destruct (advance_spec cfg imem P p blockIdx Hadv)
    as (Eq & Ek & _ & Em & _ & _ & Es & _ & Ehd & _ & Eqs & Eks & _ & Ems & _).
  destruct qs_nonneg as [Hqs Hi].
  destruct (tile_split j) as (Hsum & Hcol & q & Hq & Hts).
  unfold key_visible in Hvis. unfold key_logit.
  unfold key_score in *. rewrite score_tile_val in *.
  destruct (causal_applies cfg p (tile_start cfg j)
            && (qs + Z.of_nat m - tile_start cfg j
                <? Z.of_nat (tile_col cfg j))); [discriminate |].
  unfold tile_logit, ref_logit, softmax_scaling.
  assert (Hn : Z.of_nat (tile_col cfg j)
               < problem_size_0_n cfg p (tile_start cfg j))
    by (unfold problem_size_0_n; lia).
  destruct (Z.ltb_spec (Z.of_nat m) (problem_size_0_m cfg p)); [| lia].
  destruct (Z.ltb_spec (Z.of_nat (tile_col cfg j))
              (problem_size_0_n cfg p (tile_start cfg j))); [| lia].
  cbn [andb].
  assert (Hdot : qk_dot cfg gmem p (tile_start cfg j) m (tile_col cfg j)
                 = sumR (Z.to_nat (head_dim P))
                     (fun k => ref_Q cfg gmem imem P b h i k
                               * ref_K cfg gmem imem P b h j k)%R).
  { unfold qk_dot. rewrite Ehd. apply sumR_ext. intros k _.
    unfold ref_Q, ref_K. rewrite Eq, Ek, Eqs, Eks.
    unfold load, padd, ptr_add. fold b h qs.
    f_equal; f_equal; rewrite ?Hi; try rewrite <- Hsum; ring. }
  rewrite Hdot, Es.
  destruct (kAddMask cfg) eqn:Hk; cbn [andb]; [| ring].
  specialize (Hmask eq_refl). specialize (Hbc eq_refl).
  unfold mask_tensor_ref, ref_mask.
  destruct (Z.eqb_spec (mask_ptr P) nullptr) as [E | _]; [contradiction |].
  rewrite Em, Ems.
  destruct (Z.ltb_spec (Z.of_nat (tile_col cfg j))
              (problem_size_0_n cfg p (tile_start cfg j))); [| lia].
  rewrite andb_true_r.
  destruct (kMaskBroadcastRow cfg).
  - change (Z.of_nat 0 <? 1) with true. cbv iota.
    rewrite (Hbc eq_refl). unfold load, padd, ptr_add. fold b h.
    replace (mask_ptr P + sizeof_scalar cfg * (b * mask_strideB P + h * mask_strideH P)
             + sizeof_scalar cfg * (qs * 0 + tile_start cfg j)
             + sizeof_scalar cfg * (Z.of_nat 0 * 0 + Z.of_nat (tile_col cfg j)))
      with (mask_ptr P
            + sizeof_scalar cfg
              * (b * mask_strideB P + h * mask_strideH P + Z.of_nat i * 0
                 + Z.of_nat j))
      by (rewrite <- Hsum; cbn [Z.of_nat]; ring).
    ring.
  - destruct (Z.ltb_spec (Z.of_nat m) (problem_size_0_m cfg p)); [| lia].
    unfold load, padd, ptr_add. fold b h.
    replace (mask_ptr P + sizeof_scalar cfg * (b * mask_strideB P + h * mask_strideH P)
             + sizeof_scalar cfg * (qs * mask_strideM P + tile_start cfg j)
             + sizeof_scalar cfg
               * (Z.of_nat m * mask_strideM P + Z.of_nat (tile_col cfg j)))
      with (mask_ptr P
            + sizeof_scalar cfg
              * (b * mask_strideB P + h * mask_strideH P
                 + Z.of_nat i * mask_strideM P + Z.of_nat j))
      by (rewrite Hi, <- Hsum; ring).
    ring.
Qed.

End Translation.

(** ** The fused block against the reference *)

Section Reference.

Variable cfg : Config.
Variable gmem : Z -> R.
Variable imem : Z -> Z.
Variable lane_cols : nat -> list (list nat).

Lemma advance_some (P : Params) (blockIdx : Dim3) :
  dx blockIdx * kQueriesPerBlock cfg < ref_num_queries imem P (dz blockIdx) ->
  exists p, advance_to_block cfg imem P blockIdx = Some p.
Proof.
  intros H. unfold advance_to_block.
  unfold ref_num_queries, ref_q_start, varlen in H.
  destruct (negb (cu_seqlens_q_ptr P =? nullptr)); cbn [andb].
  - match goal with
    | |- context [if ?c then None else _] => destruct c eqn:E
    end; [apply Z.leb_le in E; lia | eexists; reflexivity].
  - eexists; reflexivity.
Qed.

Lemma ceil_div_covers (n k : Z) :
  0 < k -> 0 <= n -> n <= ceil_div n k * k.
Proof.
  intros Hk Hn. unfold ceil_div.
  rewrite Z.quot_div_nonneg by lia.
  pose proof (Z.div_mod (n + k - 1) k ltac:(lia)).
  pose proof (Z.mod_pos_bound (n + k - 1) k Hk). nia.
Qed.


End Reference.

(** ** A negative scale without a mask *)

Lemma list_sumR_zeros {A : Type} (l : list A) :
  list_sumR (map (fun _ => 0%R) l) = 0%R.
Proof. induction l as [| x l IH]; simpl; [reflexivity | rewrite IH; lra]. Qed.

Lemma inf_times_neg (b0 : bool) (r : R) :
  (r < 0)%R -> inf_times b0 r = if b0 then NInf else PInf.
Proof.
  intros H. unfold inf_times.
  destruct (Rlt_dec 0 r); [lra |]. destruct (Rlt_dec r 0); [reflexivity | lra].
Qed.

Lemma exp2f_minus_pinf (y : accum_t) :
  exp2f (fsub y (fmul (Fin kLog2e) PInf)) = match y with Fin _ | NInf => Fin 0 | _ => NaN end.
Proof.
  cbn [fmul]. rewrite inf_times_pos by apply kLog2e_pos.
  destruct y; reflexivity.
Qed.

(** One key, no mask, scale -1: the lanes of the second warp column see no
    key, their maximum -inf times the negative scaling is +inf. *)
Lemma negative_scale_statistics (frag_o frag : Tile) (p : Params) :
  num_keys p = 1 -> scale p = (-1)%R ->
  (forall n, is_fin (frag 0%nat n)) ->
  let r := softmax_call (cfg64 true false true) warp_cols64 p 0
             frag_o frag init_coefs in
  mi (sr_coefs r) 0%nat = PInf
  /\ s_prime (sr_coefs r) 0%nat = Fin (0 * 0 + 0)
  /\ (forall n, sr_frag r 0%nat n = Fin 0)
  /\ (forall c, sr_frag_o r 0%nat c = frag_o 0%nat c).
Proof.
  intros Hnk Hsc Hfin r.
  assert (HU : update_mi warp_cols64 false 1 (-1) frag 0 NInf = PInf).
  { pose proof (Hfin 0%nat) as H0. destruct (frag 0%nat 0%nat) as [x0 | | |] eqn:Hx;
      try contradiction.
    rewrite (update_mi_agree warp_cols64 _ _ _ frag (fun _ _ => Fin x0)).
    - unfold update_mi, warp_cols64, lane_max. cbn.
      rewrite inf_times_neg by lra. reflexivity.
    - intros [| n] Hv; [exact Hx |]. unfold valid_col in Hv. cbn in Hv.
      destruct (Z.ltb_spec (Z.pos (Pos.of_succ_nat n)) 1); [lia | discriminate]. }
  assert (Hentry : forall n,
    (if false || (Z.of_nat n <? 1)
     then exp2f (fsub (fmul (Fin (-1 * kLog2e)) (frag 0%nat n))
                   (fmul (Fin kLog2e) PInf))
     else Fin 0) = Fin 0).
  { intros n. destruct (false || (Z.of_nat n <? 1)); [| reflexivity].
    rewrite exp2f_minus_pinf. specialize (Hfin n).
    destruct (frag 0%nat n); try contradiction. reflexivity. }
  subst r. unfold softmax_call, iterative_softmax.
  cbn [sr_frag sr_frag_o sr_coefs mi m_prime s_prime init_coefs].
  rewrite Hnk. unfold softmax_scaling. cbn [kAddMask cfg64]. rewrite Hsc.
  change (in_row (cfg64 true false true) 0) with true.
  change (sum_row (cfg64 true false true) 0) with true.
  change (kKeysPerBlock (cfg64 true false true) <=? 1 - 0) with false.
  change (1 - 0) with 1. change (0 =? 0) with true.
  cbv iota. cbn [negb andb]. rewrite HU.
  repeat split.
  - unfold add_row_total.
    change (fsub NInf PInf) with NInf.
    change (fmul (Fin kLog2e) NInf) with (inf_times false kLog2e).
    rewrite (inf_times_pos false) by apply kLog2e_pos.
    change (fmul (Fin 0) (exp2f NInf)) with (Fin (0 * 0)).
    rewrite (fold_fadd_fin _ (fun _ => 0%R)).
    + now rewrite list_sumR_zeros.
    + intros a n _. cbv beta.
      change (in_row (cfg64 true false true) 0) with true. cbv iota.
      rewrite HU, Hentry. reflexivity.
  - intros n. change (in_row (cfg64 true false true) 0) with true.
    cbv iota. rewrite ?HU. apply Hentry.
Qed.



(** ** A row of the block depends on its own data only *)

Section RowCongruence.

Variable cfg : Config.
Variable lane_cols : nat -> list (list nat).

Lemma lane_max_agree_in (kFull : bool) (max_col : Z) (frag frag' : Tile)
  (m : nat) (cols : list nat) :
  (forall n, In n cols -> frag m n = frag' m n) ->
  lane_max kFull max_col frag m cols = lane_max kFull max_col frag' m cols.
Proof.
  unfold lane_max. generalize NInf.
  induction cols as [| n cols IH]; intros acc H; [reflexivity |].
  cbn [fold_left]. rewrite (H n) by now left.
  apply IH. intros k Hk. apply H. now right.
Qed.

Lemma update_mi_agree_in (kFull : bool) (max_col : Z) (s : R)
  (frag frag' : Tile) (m : nat) (mi_m : accum_t) :
  (forall n, In n (concat (lane_cols m)) -> frag m n = frag' m n) ->
  update_mi lane_cols kFull max_col s frag m mi_m
  = update_mi lane_cols kFull max_col s frag' m mi_m.
Proof.
  unfold update_mi. revert mi_m.
  induction (lane_cols m) as [| cols l IH]; intros acc H; [reflexivity |].
  cbn [fold_left].
  rewrite (lane_max_agree_in _ _ frag frag' m cols).
  - apply IH. intros n Hn. apply H. cbn [concat]. apply in_or_app. now right.
  - intros n Hn. apply H. cbn [concat]. apply in_or_app. now left.
Qed.

Lemma add_row_total_agree_in (frag frag' : Tile) (m : nat) (init : accum_t) :
  (forall n, In n (concat (lane_cols m)) -> frag m n = frag' m n) ->
  add_row_total lane_cols frag m init = add_row_total lane_cols frag' m init.
Proof.
  unfold add_row_total. revert init.
  induction (concat (lane_cols m)) as [| n l IH]; intros acc H;
    [reflexivity |].
  cbn [fold_left]. rewrite (H n) by now left.
  apply IH. intros k Hk. apply H. now right.
Qed.

(** Row [m] of the result of [iterative_softmax] is a function of row [m]
    of its arguments. *)
Lemma iterative_softmax_row_congr (kFull kIsFirst keep : bool)
  (frag_o frag_o' frag frag' : Tile) (c c' : ScalingCoefs)
  (max_col : Z) (s : R) (m : nat) :
  (forall n, In n (concat (lane_cols m)) -> frag m n = frag' m n) ->
  mi c m = mi c' m -> m_prime c m = m_prime c' m ->
  s_prime c m = s_prime c' m ->
  (forall k, frag_o m k = frag_o' m k) ->
  let r := iterative_softmax cfg lane_cols kFull kIsFirst keep
             frag_o frag c max_col s in
  let r' := iterative_softmax cfg lane_cols kFull kIsFirst keep
              frag_o' frag' c' max_col s in
  mi (sr_coefs r) m = mi (sr_coefs r') m
  /\ m_prime (sr_coefs r) m = m_prime (sr_coefs r') m
  /\ s_prime (sr_coefs r) m = s_prime (sr_coefs r') m
  /\ (forall n, frag m n = frag' m n -> sr_frag r m n = sr_frag r' m n)
  /\ (forall k, sr_frag_o r m k = sr_frag_o r' m k).
Proof.
  intros Hfrag Hmi Hmp Hsp Hfo r r'. subst r r'. unfold iterative_softmax.
  cbn [sr_coefs sr_frag sr_frag_o mi m_prime s_prime].
  rewrite <- Hmi, <- Hmp, <- Hsp.
  rewrite <- (update_mi_agree_in kFull max_col s frag frag' m (mi c m) Hfrag).
  assert (Hentry : forall n, frag m n = frag' m n ->
    (if kFull || (Z.of_nat n <? max_col)
     then exp2f (fsub (fmul (Fin (s * kLog2e)) (frag m n))
                   (fmul (Fin kLog2e)
                      (if in_row cfg m
                       then update_mi lane_cols kFull max_col s frag m (mi c m)
                       else mi c m)))
     else Fin 0)
    = (if kFull || (Z.of_nat n <? max_col)
       then exp2f (fsub (fmul (Fin (s * kLog2e)) (frag' m n))
                     (fmul (Fin kLog2e)
                        (if in_row cfg m
                         then update_mi lane_cols kFull max_col s frag m
                                (mi c m)
                         else mi c m)))
       else Fin 0)).
  { intros n E. now rewrite E. }
  repeat split.
  - destruct (sum_row cfg m); [| reflexivity].
    apply add_row_total_agree_in. intros n Hn. cbv beta.
    rewrite <- ?Hmi.
    rewrite <- ?(update_mi_agree_in kFull max_col s frag frag' m (mi c m)
                   Hfrag).
    apply Hentry. now apply Hfrag.
  - intros n E. rewrite <- ?Hmi.
    rewrite <- ?(update_mi_agree_in kFull max_col s frag frag' m (mi c m)
                   Hfrag).
    now apply Hentry.
  - intros k. destruct (keep && negb kIsFirst); [| apply Hfo].
    rewrite Hfo, <- Hmi, <- Hmp.
    now rewrite <- (update_mi_agree_in kFull max_col s frag frag' m (mi c m)
                      Hfrag).
Qed.

End RowCongruence.

(** ** Values that are not finite *)

Lemma inf_times_nonfin (b0 : bool) (r : R) : ~ is_fin (inf_times b0 r).
Proof.
  unfold inf_times.
  destruct (Rlt_dec 0 r); [destruct b0; exact (fun H => H) |].
  destruct (Rlt_dec r 0); [destruct b0; exact (fun H => H) |].
  exact (fun H => H).
Qed.

Lemma fadd_nonfin_l (a b0 : accum_t) : ~ is_fin a -> ~ is_fin (fadd a b0).
Proof. destruct a, b0; simpl; tauto. Qed.

Lemma fadd_nonfin_r (a b0 : accum_t) : ~ is_fin b0 -> ~ is_fin (fadd a b0).
Proof. destruct a, b0; simpl; tauto. Qed.

Lemma fsub_nonfin_l (a b0 : accum_t) : ~ is_fin a -> ~ is_fin (fsub a b0).
Proof. destruct a, b0; simpl; tauto. Qed.

Lemma fmul_nonfin_fin (a : accum_t) (v : R) :
  ~ is_fin a -> ~ is_fin (fmul a (Fin v)).
Proof.
  destruct a; simpl; try tauto; intros _; apply inf_times_nonfin.
Qed.

Lemma fmul_fin_nonfin (a : accum_t) (v : R) :
  ~ is_fin a -> ~ is_fin (fmul (Fin v) a).
Proof.
  destruct a; simpl; try tauto; intros _; apply inf_times_nonfin.
Qed.

Lemma fdiv_nonfin (a b0 : accum_t) :
  ~ is_fin a -> ~ is_fin b0 -> fdiv a b0 = NaN.
Proof. destruct a, b0; simpl; tauto. Qed.

Lemma exp2f_nonfin (y : accum_t) :
  ~ is_fin y -> exp2f y = Fin 0 \/ ~ is_fin (exp2f y).
Proof. destruct y; simpl; tauto. Qed.

Lemma is_fin_dec (x : accum_t) : {is_fin x} + {~ is_fin x}.
Proof. destruct x; simpl; auto. Qed.

Lemma fold_fadd_nonfin {A : Type} (g : A -> accum_t) (l : list A) (x : A) :
  In x l -> ~ is_fin (g x) ->
  forall init, ~ is_fin (fold_left (fun acc y => fadd acc (g y)) l init).
Proof.
  assert (Hkeep : forall l' init, ~ is_fin init ->
            ~ is_fin (fold_left (fun acc y => fadd acc (g y)) l' init)).
  { induction l' as [| y l' IH]; intros init Hi; [exact Hi |].
    cbn [fold_left]. apply IH. now apply fadd_nonfin_l. }
  induction l as [| y l IH]; intros Hin Hx init; [destruct Hin |].
  cbn [fold_left]. destruct Hin as [-> | Hin].
  - apply Hkeep. now apply fadd_nonfin_r.
  - now apply IH.
Qed.

Lemma fsum_nonfin (n : nat) (f : nat -> accum_t) (k : nat) (init : accum_t) :
  (k < n)%nat -> ~ is_fin (f k) -> ~ is_fin (fsum n f init).
Proof.
  induction n as [| n IH]; intros Hk Hf; [lia |].
  cbn [fsum]. destruct (Nat.eq_dec k n) as [-> | Hne].
  - now apply fadd_nonfin_r.
  - apply fadd_nonfin_l. apply IH; [lia | exact Hf].
Qed.

Lemma fsum_ext (n : nat) (f g : nat -> accum_t) (init : accum_t) :
  (forall k, (k < n)%nat -> f k = g k) -> fsum n f init = fsum n g init.
Proof.
  induction n as [| n IH]; intros H; [reflexivity |].
  cbn [fsum]. rewrite IH by (intros; apply H; lia). rewrite H by lia.
  reflexivity.
Qed.

Lemma s_prime_poisoned (cfg : Config) (lane_cols : nat -> list (list nat))
  (kFull kIsFirst keep : bool) (frag_o frag : Tile) (c : ScalingCoefs)
  (max_col : Z) (s : R) (m n0 : nat) :
  sum_row cfg m = true ->
  In n0 (concat (lane_cols m)) ->
  let r := iterative_softmax cfg lane_cols kFull kIsFirst keep
             frag_o frag c max_col s in
  ~ is_fin (sr_frag r m n0) -> ~ is_fin (s_prime (sr_coefs r) m).
Proof.
  intros Hsum Hin r. subst r. unfold iterative_softmax.
  cbn [sr_frag sr_coefs s_prime]. rewrite Hsum. unfold add_row_total.
  intros Hnf. apply fold_fadd_nonfin with (x := n0); assumption.
Qed.

Lemma epilogue_row_eq (cfg : Config) (p : Params) (m : nat)
  (st1 st2 : LoopState) :
  row_eq m st1 st2 ->
  forall c, epilogue_at_end cfg p st1 m c = epilogue_at_end cfg p st2 m c.
Proof.
  intros (_ & _ & Hs & Hacc) c. destruct (Hacc c) as [Ha Ho].
  unfold epilogue_at_end, rescale.
  destruct (kKeepOutputInRF cfg); [| exact Ho].
  destruct (in_output cfg p m c); [| exact Ho].
  now rewrite Ha, Hs.
Qed.

(** ** The causal block on two memories *)

Section CausalBlock.

Variable cfg : Config.
Variable gmem1 gmem2 : Z -> R.
Variable lane_cols : nat -> list (list nat).
Variable p : Params.
Variable qs : Z.
Variable m : nat.

Let K : nat := Z.to_nat (kKeysPerBlock cfg).

Hypothesis Hcfg : config_ok cfg = true.
Hypothesis Hperm : Permutation (concat (lane_cols m)) (seq 0 K).
Hypothesis Hm : Z.of_nat m < kQueriesPerBlock cfg.
Hypothesis Hqs : exists bx, 0 <= bx /\ qs = bx * kQueriesPerBlock cfg.
Hypothesis Hcausal : causal p = true.
Hypothesis Hclamp : num_keys p <= qs + kQueriesPerBlock cfg.
Hypothesis HQ :
  forall k, (k < Z.to_nat (head_dim p))%nat ->
    load cfg gmem1 (query_ptr p) (Z.of_nat m * q_strideM p + Z.of_nat k)
    = load cfg gmem2 (query_ptr p) (Z.of_nat m * q_strideM p + Z.of_nat k).
Hypothesis HK :
  forall j k, Z.of_nat j <= qs + Z.of_nat m ->
    (k < Z.to_nat (head_dim p))%nat ->
    load cfg gmem1 (key_ptr p) (Z.of_nat j * k_strideM p + Z.of_nat k)
    = load cfg gmem2 (key_ptr p) (Z.of_nat j * k_strideM p + Z.of_nat k).
Hypothesis HV :
  forall j c, Z.of_nat j <= qs + Z.of_nat m ->
    Z.of_nat c < head_dim_value p ->
    key_value cfg gmem1 p j c = key_value cfg gmem2 p j c.
Hypothesis HM :
  kAddMask cfg = true ->
  forall i' j', 0 <= i' -> 0 <= j' ->
    mask_elem cfg gmem1 p i' j' = mask_elem cfg gmem2 p i' j'.

Lemma causal_K_pos : (0 < K)%nat /\ Z.of_nat K = kKeysPerBlock cfg.
Proof.
  destruct (config_ok_facts cfg Hcfg) as (_ & HK' & _). subst K. split; lia.
Qed.

Lemma qs_nonneg' : 0 <= qs.
Proof.
  destruct (config_ok_facts cfg Hcfg) as (HQ' & _).
  destruct Hqs as (bx & Hbx & ->). apply Z.mul_nonneg_nonneg; lia.
Qed.

(** Keys of a tile that is not the last one lie at or before the first
    query row of the block. *)
Lemma early_tile_keys (t n : nat) :
  (n < K)%nat ->
  kKeysPerBlock cfg < num_keys p - Z.of_nat (t * K) ->
  Z.of_nat (t * K + n) <= qs + Z.of_nat m.
Proof.
  intros Hn Hearly. destruct causal_K_pos as [HK0 HK1].
  destruct Hqs as (bx & Hbx & Eqs).
  assert (E : Z.of_nat (t * K) = Z.of_nat t * kKeysPerBlock cfg)
    by (rewrite Nat2Z.inj_mul, HK1; reflexivity).
  rewrite Nat2Z.inj_add. rewrite E in *.
  destruct (config_ok_cases cfg Hcfg) as [[Eq Ek] | [[Eq Ek] | [Eq Ek]]];
    rewrite Eq, Ek in *; lia.
Qed.

Lemma tile_logit_agree (t n : nat) :
  Z.of_nat (t * K + n) <= qs + Z.of_nat m ->
  tile_logit cfg gmem1 p qs (Z.of_nat (t * K)) m n
  = tile_logit cfg gmem2 p qs (Z.of_nat (t * K)) m n.
Proof.
  intros Hj. pose proof qs_nonneg' as Hq0. unfold tile_logit.
  set (iter := Z.of_nat (t * K)).
  assert (Hdot : qk_dot cfg gmem1 p iter m n = qk_dot cfg gmem2 p iter m n).
  { unfold qk_dot. apply sumR_ext. intros k Hk.
    rewrite (HQ k Hk).
    assert (E : forall g,
              load cfg g (padd cfg (key_ptr p) (iter * k_strideM p))
                (Z.of_nat n * k_strideM p + Z.of_nat k)
              = load cfg g (key_ptr p)
                  (Z.of_nat (t * K + n) * k_strideM p + Z.of_nat k)).
    { intros g. unfold load, padd, ptr_add. f_equal. subst iter.
      rewrite Nat2Z.inj_add. ring. }
    rewrite !E. now rewrite (HK (t * K + n)%nat k Hj Hk). }
  rewrite Hdot. destruct (kAddMask cfg) eqn:Hk; cbn [andb]; [| reflexivity].
  assert (Hmask : forall m',
            mask_tensor_ref cfg gmem1 p qs iter m' n
            = mask_tensor_ref cfg gmem2 p qs iter m' n).
  { intros m'. unfold mask_tensor_ref.
    destruct (_ && _); [| reflexivity].
    assert (E : forall g,
              load cfg g
                (padd cfg (mask_ptr p) (qs * mask_strideM p + iter))
                (Z.of_nat m' * mask_strideM p + Z.of_nat n)
              = mask_elem cfg g p (qs + Z.of_nat m') (iter + Z.of_nat n)).
    { intros g. unfold mask_elem, load, padd, ptr_add. f_equal. ring. }
    rewrite !E. apply (HM eq_refl); subst iter; lia. }
  rewrite !Hmask. reflexivity.
Qed.

Lemma score_row_agree (t n : nat) :
  (n < K)%nat ->
  score_tile cfg gmem1 p qs (Z.of_nat (t * K)) m n
  = score_tile cfg gmem2 p qs (Z.of_nat (t * K)) m n.
Proof.
  intros Hn. rewrite !score_tile_val. unfold causal_applies. rewrite Hcausal.
  cbn [andb].
  destruct (Z.leb_spec (num_keys p - Z.of_nat (t * K)) (kKeysPerBlock cfg))
    as [Hlast | Hearly]; cbn [andb].
  - destruct (Z.ltb_spec (qs + Z.of_nat m - Z.of_nat (t * K)) (Z.of_nat n));
      [reflexivity |].
    f_equal. apply tile_logit_agree. lia.
  - f_equal. apply tile_logit_agree. now apply early_tile_keys.
Qed.

Lemma iterator_V_agree (t n c : nat) :
  Z.of_nat (t * K + n) <= qs + Z.of_nat m ->
  iterator_V cfg gmem1 p (Z.of_nat (t * K)) n c
  = iterator_V cfg gmem2 p (Z.of_nat (t * K)) n c.
Proof.
  intros Hj. unfold iterator_V.
  destruct (Z.ltb_spec (Z.of_nat c) (head_dim_value p)) as [Hc | Hc];
    [| now rewrite !andb_false_r].
  destruct (Z.of_nat n <? _); [| reflexivity]. cbn [andb].
  assert (E : forall g,
            load cfg g (padd cfg (value_ptr p) (Z.of_nat (t * K) * v_strideM p))
              (Z.of_nat n * v_strideM p + Z.of_nat c)
            = key_value cfg g p (t * K + n) c).
  { intros g. unfold key_value, load, padd, ptr_add. f_equal.
    rewrite Nat2Z.inj_add. ring. }
  rewrite !E. now apply HV.
Qed.

Lemma softmax_rows (t : nat) (st1 st2 : LoopState) :
  row_eq m st1 st2 ->
  let iter := Z.of_nat (t * K) in
  let r1 := softmax_call cfg lane_cols p iter (accum_o st1)
              (score_tile cfg gmem1 p qs iter) (coefs st1) in
  let r2 := softmax_call cfg lane_cols p iter (accum_o st2)
              (score_tile cfg gmem2 p qs iter) (coefs st2) in
  mi (sr_coefs r1) m = mi (sr_coefs r2) m
  /\ m_prime (sr_coefs r1) m = m_prime (sr_coefs r2) m
  /\ s_prime (sr_coefs r1) m = s_prime (sr_coefs r2) m
  /\ (forall n, (n < K)%nat -> sr_frag r1 m n = sr_frag r2 m n)
  /\ (forall k, sr_frag_o r1 m k = sr_frag_o r2 m k).
Proof.
  intros (Hmi & Hmp & Hsp & Hacc) iter r1 r2.
  assert (Hin : forall n, In n (concat (lane_cols m)) -> (n < K)%nat).
  { intros n Hn. apply (Permutation_in _ Hperm) in Hn.
    apply in_seq in Hn. lia. }
  destruct (iterative_softmax_row_congr cfg lane_cols
              (kKeysPerBlock cfg <=? num_keys p - iter) (iter =? 0)
              (kKeepOutputInRF cfg) (accum_o st1) (accum_o st2)
              (score_tile cfg gmem1 p qs iter)
              (score_tile cfg gmem2 p qs iter) (coefs st1) (coefs st2)
              (num_keys p - iter) (softmax_scaling cfg p) m)
    as (R1 & R2 & R3 & R4 & R5); try assumption.
  - intros n Hn. apply score_row_agree. now apply Hin.
  - intros k. apply Hacc.
  - repeat split; try assumption.
    intros n Hn. apply R4. now apply score_row_agree.
Qed.

Lemma loop_body_tile (t : nat) (st1 st2 : LoopState) :
  row_eq m st1 st2 ->
  let iter := Z.of_nat (t * K) in
  let r1 := softmax_call cfg lane_cols p iter (accum_o st1)
              (score_tile cfg gmem1 p qs iter) (coefs st1) in
  let r2 := softmax_call cfg lane_cols p iter (accum_o st2)
              (score_tile cfg gmem2 p qs iter) (coefs st2) in
  (forall n c, (n < Z.to_nat (problem_size_0_n cfg p iter))%nat ->
     fmul (sr_frag r1 m n) (Fin (iterator_V cfg gmem1 p iter n c))
     = fmul (sr_frag r2 m n) (Fin (iterator_V cfg gmem2 p iter n c))) ->
  row_eq m (loop_body cfg gmem1 lane_cols p qs iter st1)
           (loop_body cfg gmem2 lane_cols p qs iter st2).
Proof.
  intros Heq iter r1 r2 Hprod.
  destruct (softmax_rows t st1 st2 Heq) as (R1 & R2 & R3 & R4 & R5).
  fold iter in R1, R2, R3, R4, R5. fold r1 r2 in R1, R2, R3, R4, R5.
  destruct Heq as (_ & _ & _ & Hacc).
  assert (Hpv : forall src1 src2 c, src1 m c = src2 m c ->
            mma_pv cfg gmem1 p iter (sr_frag r1) src1 m c
            = mma_pv cfg gmem2 p iter (sr_frag r2) src2 m c).
  { intros src1 src2 c Hsrc. unfold mma_pv. rewrite Hsrc.
    apply fsum_ext. intros n Hn. now apply Hprod. }
  unfold loop_body. fold r1 r2. unfold row_eq.
  destruct (kKeepOutputInRF cfg); cbn [coefs accum_o output].
  - repeat split; try assumption.
    + destruct (in_value_blocks cfg p c); [now apply Hpv | apply R5].
    + apply Hacc.
  - repeat split; try assumption.
    + unfold rescale. rewrite R2, R3.
      rewrite (Hpv (fun _ _ => Fin 0) (fun _ _ => Fin 0) c eq_refl).
      destruct (Hacc c) as [-> _]. reflexivity.
    + unfold rescale. rewrite R2, R3.
      rewrite (Hpv (fun _ _ => Fin 0) (fun _ _ => Fin 0) c eq_refl).
      destruct (Hacc c) as [-> ->]. reflexivity.
Qed.

(** On a tile that is not the last one every key is visible to row [m]. *)
Lemma early_tile_row_eq (t : nat) (st1 st2 : LoopState) :
  kKeysPerBlock cfg < num_keys p - Z.of_nat (t * K) ->
  row_eq m st1 st2 ->
  row_eq m (loop_body cfg gmem1 lane_cols p qs (Z.of_nat (t * K)) st1)
           (loop_body cfg gmem2 lane_cols p qs (Z.of_nat (t * K)) st2).
Proof.
  intros Hearly Heq. apply loop_body_tile; [exact Heq |].
  intros n c Hn.
  destruct (softmax_rows t st1 st2 Heq) as (_ & _ & _ & R4 & _).
  assert (Hle : (Z.to_nat (problem_size_0_n cfg p (Z.of_nat (t * K))) <= K)%nat)
    by (unfold problem_size_0_n; subst K; lia).
  rewrite R4 by lia.
  rewrite (iterator_V_agree t n c); [reflexivity |].
  apply early_tile_keys; [lia | exact Hearly].
Qed.

(** A masked column of the last tile weighs zero, or is not finite. *)
Lemma late_column (t n : nat) (frag_o : Tile) (c : ScalingCoefs) :
  num_keys p - Z.of_nat (t * K) <= kKeysPerBlock cfg ->
  qs + Z.of_nat m < Z.of_nat (t * K) + Z.of_nat n ->
  let r := softmax_call cfg lane_cols p (Z.of_nat (t * K)) frag_o
             (score_tile cfg gmem1 p qs (Z.of_nat (t * K))) c in
  sr_frag r m n = Fin 0 \/ ~ is_fin (sr_frag r m n).
Proof.
  intros Hlast Hlate r. subst r. unfold softmax_call, iterative_softmax.
  cbn [sr_frag].
  destruct (_ || _); [| now left].
  rewrite score_tile_val. unfold causal_applies. rewrite Hcausal.
  destruct (Z.leb_spec (num_keys p - Z.of_nat (t * K)) (kKeysPerBlock cfg));
    [| lia].
  destruct (Z.ltb_spec (qs + Z.of_nat m - Z.of_nat (t * K)) (Z.of_nat n));
    [| lia].
  cbn [andb]. apply exp2f_nonfin, fsub_nonfin_l, fmul_fin_nonfin.
  exact (fun H => H).
Qed.

Lemma late_columns_dec (t : nat) (frag_o : Tile) (c : ScalingCoefs)
  (N : nat) :
  num_keys p - Z.of_nat (t * K) <= kKeysPerBlock cfg ->
  let r := softmax_call cfg lane_cols p (Z.of_nat (t * K)) frag_o
             (score_tile cfg gmem1 p qs (Z.of_nat (t * K))) c in
  (forall n, (n < N)%nat ->
     qs + Z.of_nat m < Z.of_nat (t * K) + Z.of_nat n ->
     sr_frag r m n = Fin 0)
  \/ (exists n, (n < N)%nat
               /\ qs + Z.of_nat m < Z.of_nat (t * K) + Z.of_nat n
               /\ ~ is_fin (sr_frag r m n)).
Proof.
  intros Hlast r. induction N as [| N IH].
  - left. intros n Hn. lia.
  - destruct IH as [IH | (n & Hn & Hl & Hnf)].
    + destruct (Z_lt_dec (qs + Z.of_nat m) (Z.of_nat (t * K) + Z.of_nat N))
        as [Hl | Hnl].
      * destruct (late_column t N frag_o c Hlast Hl) as [E | Hnf].
        -- left. intros n Hn Hln.
           destruct (Nat.eq_dec n N) as [-> | Hne]; [exact E |].
           apply IH; [lia | exact Hln].
        -- right. exists N. repeat split; [lia | exact Hl | exact Hnf].
      * left. intros n Hn Hln.
        destruct (Nat.eq_dec n N) as [-> | Hne]; [lia |].
        apply IH; [lia | exact Hln].
    + right. exists n. repeat split; [lia | exact Hl | exact Hnf].
Qed.

(** The outputs of row [m] after the last tile. *)
Lemma last_tile_outputs (t : nat) (st1 st2 : LoopState) :
  num_keys p - Z.of_nat (t * K) <= kKeysPerBlock cfg ->
  row_eq m st1 st2 ->
  forall c,
    epilogue_at_end cfg p
      (loop_body cfg gmem1 lane_cols p qs (Z.of_nat (t * K)) st1) m c
    = epilogue_at_end cfg p
        (loop_body cfg gmem2 lane_cols p qs (Z.of_nat (t * K)) st2) m c.
Proof.
  intros Hlast Heq c. destruct causal_K_pos as [HK0 HK1].
  destruct (config_ok_facts cfg Hcfg) as (_ & _ & _ & Hsum).
  set (iter := Z.of_nat (t * K)) in *.
  assert (Hle : (Z.to_nat (problem_size_0_n cfg p iter) <= K)%nat)
    by (unfold problem_size_0_n; subst K; lia).
  destruct (softmax_rows t st1 st2 Heq) as (R1 & R2 & R3 & R4 & R5).
  fold iter in R1, R2, R3, R4, R5.
  set (r1 := softmax_call cfg lane_cols p iter (accum_o st1)
               (score_tile cfg gmem1 p qs iter) (coefs st1)) in *.
  set (r2 := softmax_call cfg lane_cols p iter (accum_o st2)
               (score_tile cfg gmem2 p qs iter) (coefs st2)) in *.
  destruct (late_columns_dec t (accum_o st1) (coefs st1)
              (Z.to_nat (problem_size_0_n cfg p iter)) Hlast)
    as [HA | (n0 & Hn0 & Hl0 & Hnf)];
    fold iter in HA || fold iter in Hnf, Hl0; fold r1 in HA || fold r1 in Hnf.
  - (* every masked column weighs zero *)
    apply epilogue_row_eq. apply loop_body_tile; [exact Heq |].
    fold iter. fold r1 r2. intros n c' Hn.
    destruct (Z_lt_dec (qs + Z.of_nat m) (iter + Z.of_nat n)) as [Hl | Hnl].
    + rewrite <- R4 by lia. rewrite (HA n Hn Hl). cbn [fmul].
      f_equal. ring.
    + rewrite R4 by lia.
      assert (Hj : Z.of_nat (t * K + n) <= qs + Z.of_nat m)
        by (rewrite Nat2Z.inj_add; fold iter; lia).
      pose proof (iterator_V_agree t n c' Hj) as E. fold iter in E.
      now rewrite E.
  - (* a masked column is not finite: the row is poisoned on both sides *)
    assert (Hnf2 : ~ is_fin (sr_frag r2 m n0)) by (rewrite <- R4 by lia; exact Hnf).
    assert (Hin : In n0 (concat (lane_cols m))).
    { apply (Permutation_in _ (Permutation_sym Hperm)), in_seq. lia. }
    assert (Hs1 : ~ is_fin (s_prime (sr_coefs r1) m)).
    { apply (s_prime_poisoned cfg lane_cols _ _ _ _ _ _ _ _ m n0 (Hsum m Hm)
               Hin Hnf). }
    assert (Hs2 : ~ is_fin (s_prime (sr_coefs r2) m))
      by (rewrite <- R3; exact Hs1).
    assert (Hpv : forall g r src,
              ~ is_fin (sr_frag r m n0) ->
              ~ is_fin (mma_pv cfg g p iter (sr_frag r) src m c)).
    { intros g r src Hr. unfold mma_pv.
      apply (fsum_nonfin _ _ n0); [exact Hn0 |].
      now apply fmul_nonfin_fin. }
    destruct Heq as (_ & _ & _ & Hacc). destruct (Hacc c) as [Ha Ho].
    unfold epilogue_at_end, loop_body. fold iter. fold r1 r2.
    destruct (kKeepOutputInRF cfg) eqn:Hkeep; cbn [coefs accum_o output].
    + destruct (in_output cfg p m c) eqn:Hout; [| exact Ho].
      assert (Hvb : in_value_blocks cfg p c = true).
      { unfold in_output in Hout. now apply andb_prop in Hout. }
      rewrite Hvb. unfold rescale.
      rewrite !fdiv_nonfin; auto.
    + destruct (in_output cfg p m c) eqn:Hout; [| exact Ho].
      destruct (Z.leb_spec (num_keys p) (iter + kKeysPerBlock cfg)); [| lia].
      cbn [andb]. unfold rescale.
      destruct (iter =? 0).
      * rewrite !fdiv_nonfin; auto.
      * rewrite !fdiv_nonfin; auto using fadd_nonfin_r.
Qed.

Lemma key_loop_outputs (fuel : nat) :
  forall (t : nat) (st1 st2 : LoopState),
    row_eq m st1 st2 ->
    forall c,
      epilogue_at_end cfg p
        (key_loop cfg gmem1 lane_cols fuel p qs (Z.of_nat (t * K)) st1) m c
      = epilogue_at_end cfg p
          (key_loop cfg gmem2 lane_cols fuel p qs (Z.of_nat (t * K)) st2) m c.
Proof.
  destruct causal_K_pos as [HK0 HK1].
  induction fuel as [| fuel IH]; intros t st1 st2 Heq c.
  - now apply epilogue_row_eq.
  - cbn [key_loop].
    destruct (Z.ltb_spec (Z.of_nat (t * K)) (num_keys p));
      [| now apply epilogue_row_eq].
    destruct (Z_le_gt_dec (num_keys p - Z.of_nat (t * K)) (kKeysPerBlock cfg))
      as [Hlast | Hearly].
    + rewrite !key_loop_done by lia. now apply last_tile_outputs.
    + replace (Z.of_nat (t * K) + kKeysPerBlock cfg)
        with (Z.of_nat (S t * K)) by lia.
      apply IH. apply early_tile_row_eq; [lia | exact Heq].
Qed.

(** Row [m] of the output of the block is the same on the two memories. *)
Lemma causal_block_outputs (blockIdx : Dim3) :
  qs = dx blockIdx * kQueriesPerBlock cfg ->
  forall c,
    kr_output (attention_kernel cfg gmem1 lane_cols p blockIdx) m c
    = kr_output (attention_kernel cfg gmem2 lane_cols p blockIdx) m c.
Proof.
  intros Hq c. unfold attention_kernel. cbn [kr_output]. rewrite <- Hq.
  apply (key_loop_outputs _ 0).
  repeat split; reflexivity.
Qed.

End CausalBlock.

(** ** Causal attention does not look at later keys *)

Section CausalProblem.

Variable cfg : Config.
Variable gmem1 gmem2 : Z -> R.
Variable imem : Z -> Z.
Variable lane_cols : nat -> list (list nat).

Lemma load_query_ref (g : Z -> R) (P p : Params) (blockIdx : Dim3)
  (m k : nat) :
  advance_to_block cfg imem P blockIdx = Some p ->
  0 <= dx blockIdx * kQueriesPerBlock cfg ->
  load cfg g (query_ptr p) (Z.of_nat m * q_strideM p + Z.of_nat k)
  = ref_Q cfg g imem P (dz blockIdx) (dy blockIdx)
      (Z.to_nat (dx blockIdx * kQueriesPerBlock cfg) + m) k.
Proof.
  intros Hadv Hqs.
  destruct (advance_spec cfg imem P p blockIdx Hadv)
    as (Eq & _ & _ & _ & _ & _ & _ & _ & _ & _ & Eqs & _).
  unfold ref_Q. rewrite Eq, Eqs. unfold load, padd, ptr_add. f_equal.
  rewrite Nat2Z.inj_add, Z2Nat.id by exact Hqs. ring.
Qed.

Lemma load_key_ref (g : Z -> R) (P p : Params) (blockIdx : Dim3)
  (j k : nat) :
  advance_to_block cfg imem P blockIdx = Some p ->
  load cfg g (key_ptr p) (Z.of_nat j * k_strideM p + Z.of_nat k)
  = ref_K cfg g imem P (dz blockIdx) (dy blockIdx) j k.
Proof.
  intros Hadv.
  destruct (advance_spec cfg imem P p blockIdx Hadv)
    as (_ & Ek & _ & _ & _ & _ & _ & _ & _ & _ & _ & Eks & _).
  unfold ref_K. rewrite Ek, Eks. unfold load, padd, ptr_add. f_equal. ring.
Qed.

Lemma mask_elem_ref (g : Z -> R) (P p : Params) (blockIdx : Dim3)
  (i' j' : Z) :
  advance_to_block cfg imem P blockIdx = Some p ->
  mask_ptr P <> nullptr -> 0 <= i' -> 0 <= j' ->
  mask_elem cfg g p i' j'
  = ref_mask cfg g P (dz blockIdx) (dy blockIdx) (Z.to_nat i') (Z.to_nat j').
Proof.
  intros Hadv Hnull Hi Hj.
  destruct (advance_spec cfg imem P p blockIdx Hadv)
    as (_ & _ & _ & Em & _ & _ & _ & _ & _ & _ & _ & _ & _ & Ems & _).
  unfold mask_elem, ref_mask. rewrite Em, Ems.
  destruct (Z.eqb_spec (mask_ptr P) nullptr); [contradiction |].
  unfold load, padd, ptr_add. f_equal. rewrite !Z2Nat.id by assumption. ring.
Qed.


End CausalProblem.


(** * Further properties of the kernel *)

Open Scope Z_scope.

(** ** The launch geometry *)

Lemma int8_t_small (x : Z) : -128 <= x < 128 -> int8_t x = x.
Proof. intros H. unfold int8_t. rewrite Z.mod_small by lia. lia. Qed.

Lemma int16_t_small (x : Z) : -32768 <= x < 32768 -> int16_t x = x.
Proof. intros H. unfold int16_t. rewrite Z.mod_small by lia. lia. Qed.

Lemma int8_t_range (x : Z) : -128 <= int8_t x < 128.
Proof.
  unfold int8_t. pose proof (Z.mod_pos_bound (x + 128) 256 ltac:(lia)). lia.
Qed.

Lemma thread_id_block (cfg : Config) (threadIdx : Dim3) :
  0 <= kNumWarpsPerBlock cfg <= 1024 ->
  in_grid threadIdx (getThreadsGrid cfg) ->
  thread_id threadIdx (getThreadsGrid cfg)
  = dx threadIdx + dy threadIdx * 32
  /\ 0 <= dx threadIdx < 32
  /\ 0 <= dy threadIdx < kNumWarpsPerBlock cfg
  /\ dz threadIdx = 0.
Proof.
  intros HW (Hx & Hy & Hz). cbn [getThreadsGrid dx dy dz] in *.
  unfold kWarpSize in *. unfold thread_id. cbn [getThreadsGrid dx].
  unfold kWarpSize. rewrite int16_t_small by lia. lia.
Qed.

Lemma Dim3_eq (a b : Dim3) :
  dx a = dx b -> dy a = dy b -> dz a = dz b -> a = b.
Proof. destruct a, b; cbn; intros -> -> ->; reflexivity. Qed.

(** X1. In a block launched with [getThreadsGrid], the guard
    [thread_id() < kQueriesPerBlock] of [attention_kernel] lets every entry
    of [s_prime], [m_prime] and [mi] be initialised by exactly one thread,
    and no thread indexes outside [0, kQueriesPerBlock) (the [int16_t]
    result of [thread_id()] holds every thread index of a block of at most
    1024 warps). *)
Theorem kernel_coef_index_covers_rows (cfg : Config) :
  0 <= kQueriesPerBlock cfg ->
  kQueriesPerBlock cfg < kNumWarpsPerBlock cfg * kWarpSize ->
  kNumWarpsPerBlock cfg <= 1024 ->
  let blockDim := getThreadsGrid cfg in
  (forall threadIdx t,
     in_grid threadIdx blockDim ->
     kernel_coef_index cfg threadIdx blockDim = Some t ->
     0 <= t < kQueriesPerBlock cfg)
  /\ (forall t, 0 <= t < kQueriesPerBlock cfg ->
        exists threadIdx,
          in_grid threadIdx blockDim
          /\ kernel_coef_index cfg threadIdx blockDim = Some t
          /\ forall threadIdx',
               in_grid threadIdx' blockDim ->
               kernel_coef_index cfg threadIdx' blockDim = Some t ->
               threadIdx' = threadIdx).
Proof.
  intros HQ Hassert HW blockDim. unfold kWarpSize in Hassert.
  assert (HW' : 0 <= kNumWarpsPerBlock cfg <= 1024) by lia.
  split.
  - intros threadIdx t Hin E. unfold kernel_coef_index in E.
    destruct (thread_id_block cfg threadIdx HW' Hin) as (Et & Hx & Hy & _).
    fold blockDim in Et. rewrite Et in E.
    destruct (Z.ltb_spec (dx threadIdx + dy threadIdx * 32)
                (kQueriesPerBlock cfg)); [| discriminate].
    injection E as <-. lia.
  - intros t Ht.
    exists {| dx := t mod 32; dy := t / 32; dz := 0 |}.
    assert (Hin : in_grid {| dx := t mod 32; dy := t / 32; dz := 0 |}
                    blockDim).
    { unfold in_grid. cbn [blockDim getThreadsGrid dx dy dz].
      unfold kWarpSize. Z.to_euclidean_division_equations; lia. }
    split; [exact Hin | split].
    + unfold kernel_coef_index.
      destruct (thread_id_block cfg _ HW' Hin) as (Et & _).
      fold blockDim in Et. rewrite Et. cbn [dx dy].
      replace (t mod 32 + t / 32 * 32) with t
        by (Z.to_euclidean_division_equations; lia).
      destruct (Z.ltb_spec t (kQueriesPerBlock cfg)); [reflexivity | lia].
    + intros threadIdx' Hin' E. unfold kernel_coef_index in E.
      destruct (thread_id_block cfg threadIdx' HW' Hin')
        as (Et & Hx & Hy & Hz).
      fold blockDim in Et. rewrite Et in E.
      destruct (Z.ltb_spec (dx threadIdx' + dy threadIdx' * 32)
                  (kQueriesPerBlock cfg)); [| discriminate].
      injection E as E.
      apply Dim3_eq; cbn [dx dy dz];
        try (Z.to_euclidean_division_equations; lia).
Qed.

Section ThreadIndexing.

Variable cfg : Config.

Hypothesis HQ : 0 < kQueriesPerBlock cfg.
Hypothesis Hassert :
  kQueriesPerBlock cfg < kNumWarpsPerBlock cfg * kWarpSize.

Lemma in_block_spec (threadIdx : Dim3) :
  in_grid threadIdx (getThreadsGrid cfg) <->
  0 <= dx threadIdx < 32 /\ 0 <= dy threadIdx < kNumWarpsPerBlock cfg
  /\ dz threadIdx = 0.
Proof using Type.
  unfold in_grid. cbn [getThreadsGrid dx dy dz]. unfold kWarpSize. lia.
Qed.

Lemma lines_per_warp_bounds :
  0 < kNumWarpsPerBlock cfg
  /\ 0 <= kLinesPerWarp cfg < 32
  /\ kNumWarpsPerBlock cfg * kLinesPerWarp cfg <= kQueriesPerBlock cfg.
Proof using HQ Hassert.
  unfold kWarpSize in Hassert.
  assert (HW : 0 < kNumWarpsPerBlock cfg) by lia.
  split; [exact HW |]. unfold kLinesPerWarp.
  rewrite Z.quot_div_nonneg by lia.
  Z.to_euclidean_division_equations; nia.
Qed.

(** With more than four warps, thread 128 reaches [iterative_softmax] as
    -128 and passes its guard. *)
Lemma softmax_coef_index_wraps :
  4 < kNumWarpsPerBlock cfg ->
  in_grid {| dx := 0; dy := 4; dz := 0 |} (getThreadsGrid cfg)
  /\ softmax_coef_index cfg {| dx := 0; dy := 4; dz := 0 |}
       (getThreadsGrid cfg) = Some (-128).
Proof using HQ.
  intros HW. split; [apply in_block_spec; cbn [dx dy dz]; lia |].
  unfold softmax_coef_index, softmax_thread_id, thread_id.
  cbn [getThreadsGrid dx dy]. unfold kWarpSize.
  change (int8_t (int16_t (0 + 4 * 32))) with (-128).
  destruct (Z.ltb_spec (-128) (kQueriesPerBlock cfg)); [reflexivity | lia].
Qed.

Lemma softmax_coef_index_small (threadIdx : Dim3) (t : Z) :
  kNumWarpsPerBlock cfg <= 4 ->
  in_grid threadIdx (getThreadsGrid cfg) ->
  softmax_coef_index cfg threadIdx (getThreadsGrid cfg) = Some t ->
  0 <= t < kQueriesPerBlock cfg.
Proof using HQ Hassert.
  intros HW Hin E. unfold kWarpSize in Hassert.
  unfold softmax_coef_index, softmax_thread_id in E.
  destruct (thread_id_block cfg threadIdx ltac:(lia) Hin)
    as (Et & Hx & Hy & _).
  rewrite Et in E. rewrite int8_t_small in E by lia.
  destruct (Z.ltb_spec (dx threadIdx + dy threadIdx * 32)
              (kQueriesPerBlock cfg)); [| discriminate].
  injection E as <-. lia.
Qed.

Lemma softmax_total_row_spec (threadIdx : Dim3) (t : Z) :
  kNumWarpsPerBlock cfg <= 128 ->
  in_grid threadIdx (getThreadsGrid cfg) ->
  (softmax_total_row cfg threadIdx = Some t <->
   dx threadIdx < kLinesPerWarp cfg
   /\ t = dy threadIdx * kLinesPerWarp cfg + dx threadIdx).
Proof using Type.
  intros HW Hin. apply in_block_spec in Hin. destruct Hin as (Hx & Hy & _).
  unfold softmax_total_row, lane_id, warp_id.
  rewrite !int8_t_small by (rewrite ?int8_t_small; lia).
  destruct (Z.ltb_spec (dx threadIdx) (kLinesPerWarp cfg)); split.
  - intros E; injection E as <-. split; [lia | reflexivity].
  - intros (_ & ->). reflexivity.
  - discriminate.
  - intros (C & _). lia.
Qed.

Lemma softmax_total_row_exists (t : Z) :
  kNumWarpsPerBlock cfg <= 128 ->
  0 <= t < kNumWarpsPerBlock cfg * kLinesPerWarp cfg ->
  exists threadIdx,
    in_grid threadIdx (getThreadsGrid cfg)
    /\ softmax_total_row cfg threadIdx = Some t.
Proof using HQ Hassert.
  intros HW Ht. destruct lines_per_warp_bounds as (HWpos & HL & _).
  set (L := kLinesPerWarp cfg) in *.
  assert (HLpos : 0 < L) by nia.
  pose proof (Z.mod_pos_bound t L HLpos) as Hmod.
  pose proof (Z.div_mod t L ltac:(lia)) as Hdiv.
  assert (Hq : 0 <= t / L) by (apply Z.div_pos; lia).
  assert (Hq' : t / L < kNumWarpsPerBlock cfg)
    by (apply Z.div_lt_upper_bound; nia).
  exists {| dx := t mod L; dy := t / L; dz := 0 |}.
  assert (Hin : in_grid {| dx := t mod L; dy := t / L; dz := 0 |}
                  (getThreadsGrid cfg)).
  { apply in_block_spec. cbn [dx dy dz]. lia. }
  split; [exact Hin |].
  apply (softmax_total_row_spec _ _ HW Hin). cbn [dx dy]. fold L. nia.
Qed.

(** X2. [iterative_softmax] receives [thread_id()] in a parameter of type
    [int8_t]: every thread that passes its guard
    [thread_id < kQueriesPerBlock] indexes [m_prime] and [s_prime] inside
    [0, kQueriesPerBlock) if and only if the block has at most 128 threads
    (with more, thread 128 arrives as -128, passes the guard and indexes
    out of bounds). *)
Theorem softmax_thread_id_in_bounds :
  let blockDim := getThreadsGrid cfg in
  (forall threadIdx t,
     in_grid threadIdx blockDim ->
     softmax_coef_index cfg threadIdx blockDim = Some t ->
     0 <= t < kQueriesPerBlock cfg)
  <-> kNumThreads cfg <= 128.
Proof using HQ Hassert.
  intros blockDim. subst blockDim. unfold kNumThreads, kWarpSize. split.
  - intros H.
    destruct (Z_le_gt_dec (kNumWarpsPerBlock cfg) 4) as [Hle | Hgt]; [lia |].
    exfalso.
    destruct (softmax_coef_index_wraps ltac:(lia)) as (Hin & E).
    specialize (H _ _ Hin E). lia.
  - intros Hle threadIdx t Hin E.
    apply (softmax_coef_index_small threadIdx t ltac:(lia) Hin E).
Qed.

(** X3. At the end of [iterative_softmax] the threads with
    [lane_id < kLinesPerWarp] fold the total of row
    [warp_id * kLinesPerWarp + lane_id] into [s_prime]: these rows lie in
    [0, kQueriesPerBlock), no row is handled by two threads, they are the
    rows [sum_row] of the block-level embedding, and every row of the tile
    is handled if and only if
    [kNumWarpsPerBlock * kLinesPerWarp = kQueriesPerBlock]. *)
Theorem softmax_total_rows :
  kNumWarpsPerBlock cfg <= 128 ->
  let blockDim := getThreadsGrid cfg in
  (forall threadIdx t,
     in_grid threadIdx blockDim ->
     softmax_total_row cfg threadIdx = Some t ->
     0 <= t < kQueriesPerBlock cfg
     /\ forall threadIdx',
          in_grid threadIdx' blockDim ->
          softmax_total_row cfg threadIdx' = Some t ->
          threadIdx' = threadIdx)
  /\ (forall t : nat,
        sum_row cfg t = true <->
        exists threadIdx,
          in_grid threadIdx blockDim
          /\ softmax_total_row cfg threadIdx = Some (Z.of_nat t))
  /\ ((forall t, 0 <= t < kQueriesPerBlock cfg ->
         exists threadIdx,
           in_grid threadIdx blockDim
           /\ softmax_total_row cfg threadIdx = Some t)
      <-> kNumWarpsPerBlock cfg * kLinesPerWarp cfg = kQueriesPerBlock cfg).
Proof using HQ Hassert.
  intros HW blockDim. subst blockDim.
  destruct lines_per_warp_bounds as (HWpos & HL & HWL).
  split; [| split].
  - intros threadIdx t Hin E.
    apply (softmax_total_row_spec _ _ HW Hin) in E. destruct E as (Hl & ->).
    pose proof (proj1 (in_block_spec _) Hin) as (Hx & Hy & Hz).
    split; [nia |].
    intros threadIdx' Hin' E'.
    apply (softmax_total_row_spec _ _ HW Hin') in E'.
    destruct E' as (Hl' & E').
    pose proof (proj1 (in_block_spec _) Hin') as (Hx' & Hy' & Hz').
    assert (dy threadIdx' = dy threadIdx) by nia.
    apply Dim3_eq; nia.
  - intros t. unfold sum_row. split.
    + intros H. apply Z.ltb_lt in H.
      apply softmax_total_row_exists; [exact HW | lia].
    + intros (threadIdx & Hin & E).
      apply (softmax_total_row_spec _ _ HW Hin) in E. destruct E as (Hl & E).
      pose proof (proj1 (in_block_spec _) Hin) as (Hx & Hy & Hz).
      apply Z.ltb_lt. nia.
  - split.
    + intros H.
      destruct (Z.eq_dec (kNumWarpsPerBlock cfg * kLinesPerWarp cfg)
                  (kQueriesPerBlock cfg)) as [E | E]; [exact E | exfalso].
      destruct (H (kNumWarpsPerBlock cfg * kLinesPerWarp cfg) ltac:(nia))
        as (threadIdx & Hin & E').
      apply (softmax_total_row_spec _ _ HW Hin) in E'.
      pose proof (proj1 (in_block_spec _) Hin) as (Hx & Hy & Hz). nia.
    + intros E t Ht. apply softmax_total_row_exists; [exact HW | lia].
Qed.

End ThreadIndexing.

Lemma kernel_coef_index_covers_rows_witness :
  let cfg := cfg64 true false true in
  (forall threadIdx t,
     in_grid threadIdx (getThreadsGrid cfg) ->
     kernel_coef_index cfg threadIdx (getThreadsGrid cfg) = Some t ->
     0 <= t < kQueriesPerBlock cfg)
  /\ (forall t, 0 <= t < kQueriesPerBlock cfg ->
        exists threadIdx,
          in_grid threadIdx (getThreadsGrid cfg)
          /\ kernel_coef_index cfg threadIdx (getThreadsGrid cfg) = Some t
          /\ forall threadIdx',
               in_grid threadIdx' (getThreadsGrid cfg) ->
               kernel_coef_index cfg threadIdx' (getThreadsGrid cfg)
               = Some t ->
               threadIdx' = threadIdx).
Proof.
  refine (kernel_coef_index_covers_rows (cfg64 true false true) _ _ _).
  - discriminate.
  - reflexivity.
  - discriminate.
Defined.

Lemma softmax_thread_id_in_bounds_witness :
  let cfg := cfg64 true false true in
  (forall threadIdx t,
     in_grid threadIdx (getThreadsGrid cfg) ->
     softmax_coef_index cfg threadIdx (getThreadsGrid cfg) = Some t ->
     0 <= t < kQueriesPerBlock cfg)
  <-> kNumThreads cfg <= 128.
Proof.
  refine (softmax_thread_id_in_bounds (cfg64 true false true) _ _);
    reflexivity.
Defined.

Lemma softmax_total_rows_witness :
  let cfg := cfg64 true false true in
  (forall threadIdx t,
     in_grid threadIdx (getThreadsGrid cfg) ->
     softmax_total_row cfg threadIdx = Some t ->
     0 <= t < kQueriesPerBlock cfg
     /\ forall threadIdx',
          in_grid threadIdx' (getThreadsGrid cfg) ->
          softmax_total_row cfg threadIdx' = Some t ->
          threadIdx' = threadIdx)
  /\ (forall t : nat,
        sum_row cfg t = true <->
        exists threadIdx,
          in_grid threadIdx (getThreadsGrid cfg)
          /\ softmax_total_row cfg threadIdx = Some (Z.of_nat t))
  /\ ((forall t, 0 <= t < kQueriesPerBlock cfg ->
         exists threadIdx,
           in_grid threadIdx (getThreadsGrid cfg)
           /\ softmax_total_row cfg threadIdx = Some t)
      <-> kNumWarpsPerBlock cfg * kLinesPerWarp cfg = kQueriesPerBlock cfg).
Proof.
  refine (softmax_total_rows (cfg64 true false true) _ _ _).
  - reflexivity.
  - reflexivity.
  - discriminate.
Defined.

(** ** [check_supported] and [advance_to_block] *)

Lemma rem_zero_divide (x a : Z) : Z.rem x a = 0 <-> (a | x).
Proof.
  destruct (Z.eq_dec a 0) as [-> | Ha].
  - rewrite Z.rem_0_r_ext by reflexivity. split.
    + intros ->. exists 0. reflexivity.
    + intros (k & ->). lia.
  - apply Z.rem_divide. exact Ha.
Qed.

Lemma rem_zero_offset (ptr sz off a : Z) :
  Z.rem ptr a = 0 -> Z.rem off a = 0 -> Z.rem (ptr_add sz ptr off) a = 0.
Proof.
  rewrite !rem_zero_divide. intros H1 H2. unfold ptr_add.
  apply Z.divide_add_r; [exact H1 |]. now apply Z.divide_mul_r.
Qed.

Lemma rem_zero_add (x y a : Z) :
  Z.rem x a = 0 -> Z.rem y a = 0 -> Z.rem (x + y) a = 0.
Proof. rewrite !rem_zero_divide. apply Z.divide_add_r. Qed.

Lemma rem_zero_mul (k x a : Z) : Z.rem x a = 0 -> Z.rem (k * x) a = 0.
Proof. rewrite !rem_zero_divide. apply Z.divide_mul_r. Qed.

Lemma check_supported_conditions (cfg : Config) (p : Params) :
  check_supported cfg p = true <->
  Z.rem (query_ptr p) (kAlignmentQ cfg) = 0
  /\ Z.rem (key_ptr p) (kAlignmentK cfg) = 0
  /\ Z.rem (value_ptr p) (kAlignmentV cfg) = 0
  /\ Z.rem (mask_ptr p) (kAlignmentM cfg) = 0
  /\ (mask_ptr p <> nullptr ->
      Z.rem (mask_strideB p) (kAlignmentM cfg) = 0
      /\ Z.rem (mask_strideH p) (kAlignmentM cfg) = 0
      /\ Z.rem (mask_strideM p) (kAlignmentM cfg) = 0)
  /\ Z.rem (q_strideM p) (kAlignmentQ cfg) = 0
  /\ Z.rem (k_strideM p) (kAlignmentK cfg) = 0
  /\ Z.rem (v_strideM p) (kAlignmentV cfg) = 0
  /\ Z.rem (q_strideH p) (kAlignmentQ cfg) = 0
  /\ Z.rem (k_strideH p) (kAlignmentK cfg) = 0
  /\ Z.rem (v_strideH p) (kAlignmentV cfg) = 0.
Proof.
  unfold check_supported, CHECK_ALIGNED_PTR, XFORMERS_CHECK.
  destruct (Z.eqb_spec (mask_ptr p) nullptr) as [Hm | Hm]; cbn [negb];
    repeat match goal with
           | |- context [Z.eqb ?a ?b] => destruct (Z.eqb_spec a b)
           end; split; intros H; try discriminate; try tauto;
      repeat split; try assumption; try tauto; try (intros; contradiction).
Qed.

(** X4. Parameters accepted by [check_supported] are still accepted after
    [advance_to_block] has moved the pointers to a block: the query, key
    and mask pointers of every block keep their alignment.  The batch
    strides of the query and of the key, which [check_supported] does not
    test, must be aligned too when the batches have a fixed length (they
    are not read with cumulative sequence lengths). *)
Theorem check_supported_advance_to_block
  (cfg : Config) (imem : Z -> Z) (P p : Params) (blockIdx : Dim3) :
  check_supported cfg P = true ->
  advance_to_block cfg imem P blockIdx = Some p ->
  (cu_seqlens_q_ptr P = nullptr ->
   Z.rem (q_strideB P) (kAlignmentQ cfg) = 0
   /\ Z.rem (k_strideB P) (kAlignmentK cfg) = 0) ->
  check_supported cfg p = true.
Proof.
  intros Hs Hadv HB.
  apply check_supported_conditions in Hs.
  destruct Hs as (Hq & Hk & Hv & Hm & Hms & HqM & HkM & HvM & HqH & HkH & HvH).
  destruct (advance_spec cfg imem P p blockIdx Hadv)
    as (Eq & Ek & Ev & Em & _ & _ & _ & _ & _ & _ & EqM & EkM & EvM & EmM & _).
  assert (EH : q_strideH p = q_strideH P /\ k_strideH p = k_strideH P
               /\ v_strideH p = v_strideH P
               /\ mask_strideH p = mask_strideH P
               /\ mask_strideB p = mask_strideB P).
  { unfold advance_to_block in Hadv.
    destruct (_ && _) in Hadv; [discriminate |].
    injection Hadv as <-. repeat split. }
  destruct EH as (EqH & EkH & EvH & EmH & EmB).
  assert (Hoff : forall strideB a,
            (cu_seqlens_q_ptr P = nullptr -> Z.rem strideB a = 0) ->
            Z.rem (batch_off P (dz blockIdx) strideB) a = 0).
  { intros strideB a H. unfold batch_off, varlen.
    destruct (Z.eqb_spec (cu_seqlens_q_ptr P) nullptr) as [E | E]; cbn [negb].
    - apply rem_zero_mul. now apply H.
    - destruct a; reflexivity. }
  assert (HV1 : forall x, Z.rem x (kAlignmentV cfg) = 0).
  { intros x. unfold kAlignmentV. apply Z.rem_1_r. }
  apply check_supported_conditions.
  rewrite Eq, Ek, Em, EqM, EkM, EmM, EqH, EkH, EmH, EmB.
  repeat match goal with |- _ /\ _ => split end;
    try apply HV1; try assumption.
  - apply rem_zero_offset; [exact Hq |].
    repeat apply rem_zero_add; try (apply rem_zero_mul; assumption).
    apply Hoff. intros E. now apply HB.
  - apply rem_zero_offset; [exact Hk |].
    repeat apply rem_zero_add; try (apply rem_zero_mul; assumption).
    apply Hoff. intros E. now apply HB.
  - destruct (Z.eqb_spec (mask_ptr P) nullptr) as [E | E]; [exact Hm |].
    destruct (Hms E) as (HmB & HmH & _).
    apply rem_zero_offset; [exact Hm |].
    apply rem_zero_add; apply rem_zero_mul; assumption.
  - destruct (Z.eqb_spec (mask_ptr P) nullptr) as [E | E];
      [intros C; contradiction | intros _; now apply Hms].
Qed.

(** ** The grid of blocks *)

Lemma ceil_div_gt (n k x : Z) :
  0 < k -> 0 <= x -> (x < ceil_div n k <-> x * k < n).
Proof.
  intros Hk Hx. unfold ceil_div.
  destruct (Z_lt_le_dec (n + k - 1) 0) as [Hneg | Hpos].
  - assert ((n + k - 1) ÷ k <= 0).
    { rewrite <- (Z.opp_involutive (n + k - 1)), Z.quot_opp_l by lia.
      assert (0 <= (- (n + k - 1)) ÷ k) by (apply Z.quot_pos; lia). lia. }
    split; intros H'; nia.
  - rewrite Z.quot_div_nonneg by lia.
    pose proof (Z.div_mod (n + k - 1) k ltac:(lia)).
    pose proof (Z.mod_pos_bound (n + k - 1) k Hk).
    split; intros H'; nia.
Qed.

(** X5. The grid of [getBlocksGrid] against [advance_to_block], for a
    batch whose sequence is not longer than [num_queries]: a block of the
    grid that has work holds at least one query row, and every query row
    of the batch is a row of the tile of exactly one block, which is in the
    grid and has work. *)
Theorem blocks_grid_partitions_queries
  (cfg : Config) (imem : Z -> Z) (P : Params) (b h : Z) :
  0 < kQueriesPerBlock cfg ->
  ref_num_queries imem P b <= num_queries P ->
  (forall x p,
     0 <= x < dx (getBlocksGrid cfg P) ->
     advance_to_block cfg imem P {| dx := x; dy := h; dz := b |} = Some p ->
     0 < num_queries p)
  /\ (forall i, 0 <= i < ref_num_queries imem P b ->
        exists x p,
          0 <= x < dx (getBlocksGrid cfg P)
          /\ advance_to_block cfg imem P {| dx := x; dy := h; dz := b |}
             = Some p
          /\ x * kQueriesPerBlock cfg <= i
               < x * kQueriesPerBlock cfg + problem_size_0_m cfg p
          /\ forall x' p',
               0 <= x' ->
               advance_to_block cfg imem P {| dx := x'; dy := h; dz := b |}
               = Some p' ->
               x' * kQueriesPerBlock cfg <= i
                 < x' * kQueriesPerBlock cfg + problem_size_0_m cfg p' ->
               x' = x).
Proof.
  intros HQ Hle. cbn [getBlocksGrid dx]. split.
  - intros x p Hx Hadv.
    destruct (advance_spec cfg imem P p _ Hadv)
      as (_ & _ & _ & _ & Enq & _ & _ & _ & _ & _ & _ & _ & _ & _ & Hvar).
    cbn [dx dz] in Enq, Hvar. rewrite Enq.
    destruct (varlen P) eqn:Ev; [specialize (Hvar eq_refl); lia |].
    assert (E : ref_num_queries imem P b = num_queries P).
    { unfold ref_num_queries. now rewrite Ev. }
    rewrite E. destruct Hx as (Hx0 & Hx).
    apply (ceil_div_gt _ _ x HQ Hx0) in Hx. lia.
  - intros i Hi.
    set (x := i / kQueriesPerBlock cfg).
    assert (Hx : 0 <= x /\ x * kQueriesPerBlock cfg <= i
                 < x * kQueriesPerBlock cfg + kQueriesPerBlock cfg).
    { subst x. pose proof (Z.div_mod i (kQueriesPerBlock cfg) ltac:(lia)).
      pose proof (Z.mod_pos_bound i (kQueriesPerBlock cfg) HQ).
      assert (0 <= i / kQueriesPerBlock cfg) by (apply Z.div_pos; lia).
      nia. }
    destruct (advance_some cfg imem P {| dx := x; dy := h; dz := b |})
      as (p & Hadv); [cbn [dx dz]; lia |].
    exists x, p.
    destruct (advance_spec cfg imem P p _ Hadv)
      as (_ & _ & _ & _ & Enq & _).
    cbn [dx dz] in Enq.
    repeat split; try lia.
    + apply (ceil_div_gt _ _ x HQ); lia.
    + exact Hadv.
    + unfold problem_size_0_m. rewrite Enq. lia.
    + intros x' p' Hx' Hadv' Hi'.
      unfold problem_size_0_m in Hi'. nia.
Qed.

(** ** The [int16_t max_col] of [iterative_softmax] *)

(** X6. [iterative_softmax] receives [p.num_keys - iter_key_start] in a
    parameter of type [int16_t].  In every iteration of the loop
    ([iter_key_start < p.num_keys]) the call is the one with the unconverted
    value: either the tile is full and [max_col] is not read
    ([kFullColumns]), or the value is below [kKeysPerBlock] and fits. *)
Theorem softmax_call_max_col_int16
  (cfg : Config) (lane_cols : nat -> list (list nat)) (p : Params)
  (iter_key_start : Z) (frag_o accum : Tile) (c : ScalingCoefs) :
  kKeysPerBlock cfg <= 32768 ->
  iter_key_start < num_keys p ->
  softmax_call_int16 cfg lane_cols p iter_key_start frag_o accum c
  = softmax_call cfg lane_cols p iter_key_start frag_o accum c.
Proof.
  intros HK Hiter. unfold softmax_call_int16, softmax_call.
  destruct (Z.leb_spec (kKeysPerBlock cfg) (num_keys p - iter_key_start))
    as [Hfull | Hpart].
  - reflexivity.
  - rewrite int16_t_small by lia. reflexivity.
Qed.

Lemma check_supported_advance_to_block_witness :
  exists p,
    advance_to_block (cfg64 true false true) imem0
      (params_bhmk 2 2 100 100 8) {| dx := 1; dy := 1; dz := 1 |} = Some p
    /\ check_supported (cfg64 true false true) p = true.
Proof.
  eexists. split; [reflexivity |].
  refine (check_supported_advance_to_block (cfg64 true false true) imem0
            (params_bhmk 2 2 100 100 8) _ {| dx := 1; dy := 1; dz := 1 |}
            eq_refl eq_refl _).
  intros _. split; reflexivity.
Defined.

Lemma blocks_grid_partitions_queries_witness :
  let cfg := cfg64 true false true in
  let P := params_bhmk 2 2 100 100 8 in
  (forall x p,
     0 <= x < dx (getBlocksGrid cfg P) ->
     advance_to_block cfg imem0 P {| dx := x; dy := 1; dz := 1 |} = Some p ->
     0 < num_queries p)
  /\ (forall i, 0 <= i < ref_num_queries imem0 P 1 ->
        exists x p,
          0 <= x < dx (getBlocksGrid cfg P)
          /\ advance_to_block cfg imem0 P {| dx := x; dy := 1; dz := 1 |}
             = Some p
          /\ x * kQueriesPerBlock cfg <= i
               < x * kQueriesPerBlock cfg + problem_size_0_m cfg p
          /\ forall x' p',
               0 <= x' ->
               advance_to_block cfg imem0 P {| dx := x'; dy := 1; dz := 1 |}
               = Some p' ->
               x' * kQueriesPerBlock cfg <= i
                 < x' * kQueriesPerBlock cfg + problem_size_0_m cfg p' ->
               x' = x).
Proof.
  refine (blocks_grid_partitions_queries (cfg64 true false true) imem0
            (params_bhmk 2 2 100 100 8) 1 1 _ _).
  - reflexivity.
  - discriminate.
Defined.

Lemma softmax_call_max_col_int16_witness :
  softmax_call_int16 (cfg64 true false true) warp_cols64
    (params0 1 1 40000 false) 0 (fun _ _ => Fin 0) (fun _ _ => Fin 0)
    init_coefs
  = softmax_call (cfg64 true false true) warp_cols64
      (params0 1 1 40000 false) 0 (fun _ _ => Fin 0) (fun _ _ => Fin 0)
      init_coefs.
Proof.
  refine (softmax_call_max_col_int16 (cfg64 true false true) warp_cols64
            (params0 1 1 40000 false) 0 (fun _ _ => Fin 0)
            (fun _ _ => Fin 0) init_coefs _ _).
  - discriminate.
  - reflexivity.
Defined.

(** ** The loop over the key tiles *)

Section KeyLoop.

Variable cfg : Config.
Variable gmem : Z -> R.
Variable lane_cols : nat -> list (list nat).

(** X7. The loop over the key tiles ends: once the fuel covers the keys
    left, [ceil((num_keys - iter_key_start) / kKeysPerBlock)] rounds, more
    fuel does not change the state it returns.  [attention_kernel] runs it
    from 0 with [num_keys] rounds of fuel. *)
Theorem key_loop_fuel_irrelevant (fuel extra : nat) (p : Params)
  (qs iter : Z) (st : LoopState) :
  0 < kKeysPerBlock cfg ->
  num_keys p - iter <= Z.of_nat fuel * kKeysPerBlock cfg ->
  key_loop cfg gmem lane_cols (fuel + extra) p qs iter st
  = key_loop cfg gmem lane_cols fuel p qs iter st.
Proof.
  intros HK. revert iter st.
  induction fuel as [| fuel IH]; intros iter st Hfuel.
  - cbn [key_loop]. apply key_loop_done. lia.
  - cbn [Nat.add key_loop].
    destruct (Z.ltb_spec iter (num_keys p)); [| reflexivity].
    apply IH. lia.
Qed.

Lemma loop_body_output_outside (p : Params) (qs iter : Z) (st : LoopState)
  (m c : nat) :
  in_output cfg p m c = false ->
  output (loop_body cfg gmem lane_cols p qs iter st) m c = output st m c.
Proof.
  intros H. unfold loop_body.
  destruct (kKeepOutputInRF cfg); cbn [output]; [reflexivity |].
  now rewrite H.
Qed.

Lemma key_loop_output_outside (fuel : nat) (p : Params) (qs : Z) (m c : nat) :
  in_output cfg p m c = false ->
  forall iter st,
    output (key_loop cfg gmem lane_cols fuel p qs iter st) m c = output st m c.
Proof.
  intros H. induction fuel as [| fuel IH]; intros iter st; [reflexivity |].
  cbn [key_loop]. destruct (iter <? num_keys p); [| reflexivity].
  rewrite IH. now apply loop_body_output_outside.
Qed.

Lemma key_loop_output_rf (fuel : nat) (p : Params) (qs : Z) :
  kKeepOutputInRF cfg = true ->
  forall iter st,
    output (key_loop cfg gmem lane_cols fuel p qs iter st) = output st.
Proof.
  intros H. induction fuel as [| fuel IH]; intros iter st; [reflexivity |].
  cbn [key_loop]. destruct (iter <? num_keys p); [| reflexivity].
  rewrite IH. unfold loop_body. now rewrite H.
Qed.

Lemma key_loop_output_inside (fuel : nat) (p : Params) (qs : Z) (m c : nat) :
  0 < kKeysPerBlock cfg ->
  kKeepOutputInRF cfg = false ->
  in_output cfg p m c = true ->
  forall iter st,
    iter < num_keys p ->
    num_keys p - iter <= Z.of_nat fuel ->
    output (key_loop cfg gmem lane_cols fuel p qs iter st) m c <> None.
Proof.
  intros HK Hrf Hin. induction fuel as [| fuel IH]; intros iter st Hlt Hfuel.
  - cbn in Hfuel. lia.
  - cbn [key_loop]. destruct (Z.ltb_spec iter (num_keys p)); [| lia].
    destruct (Z.leb_spec (num_keys p) (iter + kKeysPerBlock cfg))
      as [Hlast | Hmore].
    + rewrite key_loop_done by lia.
      unfold loop_body. rewrite Hrf. cbn [output]. rewrite Hin.
      apply Z.leb_le in Hlast. rewrite Hlast. discriminate.
    + apply IH; lia.
Qed.


(** X9. Without keys ([num_keys <= 0]) the loop body never runs: the
    log-sum-exp of every valid row is [-inf + log 0 = -inf], and when the
    output is not kept in registers the block writes no output element at
    all. *)
Theorem empty_key_sequence (p : Params) (blockIdx : Dim3) :
  num_keys p <= 0 ->
  let r := attention_kernel cfg gmem lane_cols p blockIdx in
  (forall t : nat,
     logsumexp_ptr p <> nullptr ->
     Z.of_nat t < kQueriesPerBlock cfg ->
     Z.of_nat t < num_queries p ->
     kr_logsumexp r t = Some NInf)
  /\ (kKeepOutputInRF cfg = false -> forall m c, kr_output r m c = None).
Proof.
  intros Hnk r. subst r. unfold attention_kernel.
  rewrite key_loop_done by lia. cbn [kr_logsumexp kr_output]. split.
  - intros t Hptr Ht Hq. unfold logsumexp, in_row.
    destruct (Z.eqb_spec (logsumexp_ptr p) nullptr) as [E | _];
      [contradiction |].
    destruct (Z.ltb_spec (Z.of_nat t) (kQueriesPerBlock cfg)); [| lia].
    destruct (Z.ltb_spec (Z.of_nat t) (num_queries p)); [| lia].
    cbn [negb andb init_state coefs init_coefs mi s_prime fast_log].
    destruct (Rlt_dec 0 0) as [C | _]; [lra |]. reflexivity.
  - intros Hrf m c. unfold epilogue_at_end. rewrite Hrf. reflexivity.
Qed.

End KeyLoop.

(** ** Where the log-sum-exp is written *)

Lemma advance_lse (cfg : Config) (imem : Z -> Z) (P p : Params)
  (blockIdx : Dim3) :
  advance_to_block cfg imem P blockIdx = Some p ->
  logsumexp_ptr p =
    if logsumexp_ptr P =? nullptr then logsumexp_ptr P
    else ptr_add sizeof_accum (logsumexp_ptr P)
           (dz blockIdx * (ceil_div (num_queries P) kAlignLSE * kAlignLSE)
              * num_heads P
            + dy blockIdx * (ceil_div (num_queries P) kAlignLSE * kAlignLSE)
            + dx blockIdx * kQueriesPerBlock cfg).
Proof.
  unfold advance_to_block. destruct (_ && _); [discriminate |].
  intros E; injection E as <-. reflexivity.
Qed.

Lemma radix_unique (n q1 r1 q2 r2 : Z) :
  0 <= r1 < n -> 0 <= r2 < n ->
  q1 * n + r1 = q2 * n + r2 -> q1 = q2 /\ r1 = r2.
Proof. intros H1 H2 E. assert (q1 = q2) by nia. subst. lia. Qed.

Section LseWrites.

Variable cfg : Config.
Variable gmem : Z -> R.
Variable imem : Z -> Z.
Variable lane_cols : nat -> list (list nat).
Variable P : Params.

Hypothesis HQ : 0 < kQueriesPerBlock cfg.
Hypothesis HQ32 : Z.rem (kQueriesPerBlock cfg) 32 = 0.
Hypothesis Hnq : 0 <= num_queries P.

Let lse_dim : Z := ceil_div (num_queries P) kAlignLSE * kAlignLSE.

(** The element of the buffer [lse[batch, head, lse_dim]] a thread of a
    block writes. *)
Lemma lse_write_index (blockIdx : Dim3) (p : Params) (t : nat) :
  ref_num_queries imem P (dz blockIdx) <= num_queries P ->
  0 <= dx blockIdx ->
  advance_to_block cfg imem P blockIdx = Some p ->
  kr_logsumexp (attention_kernel cfg gmem lane_cols p blockIdx) t <> None ->
  lse_address p t =
    ptr_add sizeof_accum (logsumexp_ptr P)
      ((dz blockIdx * num_heads P + dy blockIdx) * lse_dim
       + (dx blockIdx * kQueriesPerBlock cfg + Z.of_nat t))
  /\ 0 <= Z.of_nat t < kQueriesPerBlock cfg
  /\ dx blockIdx * kQueriesPerBlock cfg + Z.of_nat t < lse_dim.
Proof.
  intros Hle Hdx Hadv Hw.
  pose proof (advance_lse cfg imem P p blockIdx Hadv) as El.
  destruct (advance_spec cfg imem P p blockIdx Hadv)
    as (_ & _ & _ & _ & Enq & _).
  unfold attention_kernel in Hw. cbn [kr_logsumexp] in Hw.
  unfold logsumexp, in_row in Hw.
  destruct (Z.eqb_spec (logsumexp_ptr p) nullptr) as [E | Hp];
    [now contradiction Hw |].
  destruct (Z.ltb_spec (Z.of_nat t) (kQueriesPerBlock cfg)) as [Ht | Ht];
    [| now contradiction Hw].
  cbn [negb andb] in Hw.
  destruct (Z.eqb_spec (logsumexp_ptr P) nullptr) as [E | HP];
    [rewrite El in Hp; contradiction |].
  fold lse_dim in El.
  split; [| split; [lia |]].
  - unfold lse_address. rewrite El. unfold ptr_add. ring.
  - set (qs := dx blockIdx * kQueriesPerBlock cfg) in *.
    assert (Hqs : exists q, 0 <= q /\ qs = 32 * q).
    { pose proof (Z.quot_rem' (kQueriesPerBlock cfg) 32) as E.
      rewrite HQ32 in E.
      exists (dx blockIdx * (kQueriesPerBlock cfg ÷ 32)). split.
      - apply Z.mul_nonneg_nonneg; [exact Hdx |]. apply Z.quot_pos; lia.
      - subst qs. rewrite E at 1. ring. }
    destruct Hqs as (q & Hq & Eqs).
    assert (Hdim : num_queries P <= lse_dim
                   /\ exists d, lse_dim = 32 * d /\ num_queries P + 31 < 32 * d + 32).
    { subst lse_dim. unfold ceil_div, kAlignLSE.
      rewrite Z.quot_div_nonneg by lia.
      split; [Z.to_euclidean_division_equations; lia |].
      exists ((num_queries P + 32 - 1) / 32). split; [ring |].
      Z.to_euclidean_division_equations; lia. }
    destruct Hdim as (Hdim & d & Ed & Hd).
    destruct (Z.ltb_spec (Z.of_nat t) (num_queries p)) as [Hv | Hv]; [lia |].
    destruct (Z.ltb_spec (Z.of_nat t)
                (ceil_div (num_queries p) kAlignLSE * kAlignLSE))
      as [Hpad | Hpad]; [| now contradiction Hw].
    unfold ceil_div, kAlignLSE in Hpad.
    destruct (Z_lt_le_dec (num_queries p + 32 - 1) 0) as [Hneg | Hpos].
    + exfalso.
      assert ((num_queries p + 32 - 1) ÷ 32 <= 0).
      { rewrite <- (Z.opp_involutive (num_queries p + 32 - 1)),
          Z.quot_opp_l by lia.
        assert (0 <= (- (num_queries p + 32 - 1)) ÷ 32)
          by (apply Z.quot_pos; lia).
        lia. }
      lia.
    + rewrite Z.quot_div_nonneg in Hpad by lia.
      rewrite Enq in Hpad, Hpos. fold qs in Hpad, Hpos.
      rewrite Eqs in *. rewrite Ed.
      Z.to_euclidean_division_equations; lia.
Qed.



End LseWrites.

Lemma key_loop_fuel_irrelevant_witness :
  key_loop (cfg64 true false true) gmem0 warp_cols64 (2 + 5)
    (params0 1 1 100 false) 0 0 (init_state (fun _ _ => None))
  = key_loop (cfg64 true false true) gmem0 warp_cols64 2
      (params0 1 1 100 false) 0 0 (init_state (fun _ _ => None)).
Proof.
  refine (key_loop_fuel_irrelevant (cfg64 true false true) gmem0 warp_cols64
            2 5 (params0 1 1 100 false) 0 0 (init_state (fun _ _ => None))
            _ _).
  - reflexivity.
  - discriminate.
Defined.


Lemma empty_key_sequence_witness :
  let cfg := cfg64 false false true in
  let r := attention_kernel cfg gmem0 warp_cols64 (params0 1 1 0 false)
             block0 in
  (forall t : nat,
     logsumexp_ptr (params0 1 1 0 false) <> nullptr ->
     Z.of_nat t < kQueriesPerBlock cfg ->
     Z.of_nat t < num_queries (params0 1 1 0 false) ->
     kr_logsumexp r t = Some NInf)
  /\ (kKeepOutputInRF cfg = false -> forall m c, kr_output r m c = None).
Proof.
  refine (empty_key_sequence (cfg64 false false true) gmem0 warp_cols64
            (params0 1 1 0 false) block0 _).
  discriminate.
Defined.



(** ** [atomicMaxFloat] on bit patterns *)

Module BitsFacts.

Lemma fields_abs (b : Z) :
  0 <= b < 4294967296 ->
  Bits.biased_exponent b = Bits.abs_bits b / 8388608
  /\ Bits.fraction b = Bits.abs_bits b mod 8388608
  /\ 0 <= Bits.abs_bits b < 2147483648
  /\ b = (if Bits.sign_bit b then 2147483648 else 0) + Bits.abs_bits b.
Proof.
  intros Hb. unfold Bits.biased_exponent, Bits.fraction, Bits.abs_bits, Bits.sign_bit.
  destruct (Z.leb_spec 2147483648 b); repeat split;
    Z.to_euclidean_division_equations; lia.
Qed.

Lemma magnitude_abs (b : Z) :
  0 <= b < 4294967296 -> Bits.magnitude b = Bits.mag (Bits.abs_bits b).
Proof.
  intros Hb. destruct (fields_abs b Hb) as (E & F & _).
  unfold Bits.magnitude, Bits.mag. now rewrite E, F.
Qed.

Lemma mag_nonneg (a : Z) : 0 <= a -> 0 <= Bits.mag a.
Proof.
  intros Ha. unfold Bits.mag.
  destruct (Z.eqb_spec (a / 8388608) 0).
  - Z.to_euclidean_division_equations; lia.
  - assert (0 < 2 ^ (a / 8388608 - 1)).
    { apply Z.pow_pos_nonneg; [lia |].
      Z.to_euclidean_division_equations; lia. }
    assert (0 <= a mod 8388608) by (Z.to_euclidean_division_equations; lia).
    nia.
Qed.

Lemma mag_mono (a b : Z) : 0 <= a -> a < b -> Bits.mag a < Bits.mag b.
Proof.
  intros Ha Hab. unfold Bits.mag.
  set (ea := a / 8388608). set (fa := a mod 8388608).
  set (eb := b / 8388608). set (fb := b mod 8388608).
  assert (Ea : a = 8388608 * ea + fa /\ 0 <= fa < 8388608 /\ 0 <= ea).
  { subst ea fa. Z.to_euclidean_division_equations; lia. }
  assert (Eb : b = 8388608 * eb + fb /\ 0 <= fb < 8388608 /\ 0 <= eb).
  { subst eb fb. Z.to_euclidean_division_equations; lia. }
  destruct Ea as (Ea & Hfa & Hea). destruct Eb as (Eb & Hfb & Heb).
  assert (Hle : ea <= eb) by nia.
  destruct (Z.eqb_spec ea 0) as [Ea0 | Ea0];
    destruct (Z.eqb_spec eb 0) as [Eb0 | Eb0].
  - nia.
  - assert (0 < 2 ^ (eb - 1)) by (apply Z.pow_pos_nonneg; lia). nia.
  - lia.
  - assert (Hpa : 0 < 2 ^ (ea - 1)) by (apply Z.pow_pos_nonneg; lia).
    destruct (Z.eq_dec ea eb) as [E | E].
    + rewrite <- E. nia.
    + assert (Hp : 2 * 2 ^ (ea - 1) <= 2 ^ (eb - 1)).
      { rewrite <- Z.pow_succ_r by lia.
        apply Z.pow_le_mono_r; lia. }
      nia.
Qed.

Lemma mag_zero : Bits.mag 0 = 0.
Proof. reflexivity. Qed.

Lemma float_value_cases (b : Z) :
  0 <= b < 4294967296 ->
  (Bits.abs_bits b < 2139095040
   /\ Bits.float_value b = Fin (IZR (Bits.key b) / IZR (2 ^ 149)))
  \/ (Bits.abs_bits b = 2139095040
      /\ Bits.float_value b = if Bits.sign_bit b then NInf else PInf)
  \/ (2139095040 < Bits.abs_bits b /\ Bits.float_value b = NaN).
Proof.
  intros Hb. destruct (fields_abs b Hb) as (E & F & Ha & _).
  unfold Bits.float_value, Bits.key. rewrite E, F.
  destruct (Z.eqb_spec (Bits.abs_bits b / 8388608) 255) as [E1 | E1].
  - destruct (Z.eqb_spec (Bits.abs_bits b mod 8388608) 0) as [E2 | E2].
    + right. left. split; [| reflexivity].
      Z.to_euclidean_division_equations; lia.
    + right. right. split; [| reflexivity].
      Z.to_euclidean_division_equations; lia.
  - left. split; [| reflexivity].
    Z.to_euclidean_division_equations; lia.
Qed.

Lemma key_bounds (b : Z) :
  0 <= b < 4294967296 ->
  (if Bits.sign_bit b then Bits.key b = - Bits.mag (Bits.abs_bits b)
   else Bits.key b = Bits.mag (Bits.abs_bits b))
  /\ 0 <= Bits.mag (Bits.abs_bits b)
  /\ (Bits.abs_bits b = 0 <-> Bits.mag (Bits.abs_bits b) = 0)
  /\ (Bits.abs_bits b < 2139095040 -> Bits.mag (Bits.abs_bits b) < Bits.mag 2139095040)
  /\ (Bits.abs_bits b = 2139095040 -> Bits.mag (Bits.abs_bits b) = Bits.mag 2139095040).
Proof.
  intros Hb. destruct (fields_abs b Hb) as (_ & _ & Ha & _).
  unfold Bits.key. rewrite (magnitude_abs b Hb).
  repeat split.
  - destruct (Bits.sign_bit b); reflexivity.
  - apply mag_nonneg; lia.
  - intros ->. reflexivity.
  - intros E. destruct (Z.eq_dec (Bits.abs_bits b) 0) as [E0 | E0]; [exact E0 |].
    pose proof (mag_mono 0 (Bits.abs_bits b) ltac:(lia) ltac:(lia)) as H.
    rewrite mag_zero in H. lia.
  - intros H. apply mag_mono; lia.
  - intros ->. reflexivity.
Qed.

Lemma IZR_div_lt (a b : Z) :
  (IZR a / IZR (2 ^ 149) < IZR b / IZR (2 ^ 149))%R <-> a < b.
Proof.
  assert (Hc : (0 < IZR (2 ^ 149))%R) by (apply IZR_lt; reflexivity).
  split; intros H.
  - apply lt_IZR. unfold Rdiv in H.
    apply Rmult_lt_reg_r in H; [exact H |].
    now apply Rinv_0_lt_compat.
  - unfold Rdiv. apply Rmult_lt_compat_r;
      [now apply Rinv_0_lt_compat | now apply IZR_lt].
Qed.

(** Floats that are not NaN are ordered as their keys. *)
Lemma flt_key (a b : Z) :
  0 <= a < 4294967296 -> 0 <= b < 4294967296 ->
  Bits.not_nan a -> Bits.not_nan b ->
  flt (Bits.float_value a) (Bits.float_value b) = (Bits.key a <? Bits.key b).
Proof.
  intros Ha Hb Na Nb. unfold Bits.not_nan in Na, Nb.
  destruct (key_bounds a Ha) as (Ka & Pa & _ & Fa & Ia).
  destruct (key_bounds b Hb) as (Kb & Pb & _ & Fb & Ib).
  assert (HM : 0 < Bits.mag 2139095040).
  { pose proof (mag_mono 0 2139095040 ltac:(lia) ltac:(lia)) as H.
    now rewrite mag_zero in H. }
  set (Minf := Bits.mag 2139095040) in *.
  destruct (float_value_cases a Ha) as [(La & Ea) | [(La & Ea) | (La & _)]];
    [| | lia];
    destruct (float_value_cases b Hb) as [(Lb & Eb) | [(Lb & Eb) | (Lb & _)]];
    try lia; rewrite Ea, Eb.
  - specialize (Fa La). specialize (Fb Lb). cbn [flt].
    destruct (Rlt_dec _ _) as [H | H]; symmetry.
    + apply Z.ltb_lt. now apply IZR_div_lt.
    + apply Z.ltb_ge. apply Z.le_ngt. intros C. apply H. now apply IZR_div_lt.
  - specialize (Fa La). specialize (Ib Lb).
    destruct (Bits.sign_bit a), (Bits.sign_bit b); cbn [flt]; symmetry;
      first [apply Z.ltb_lt; lia | apply Z.ltb_ge; lia].
  - specialize (Ia La). specialize (Fb Lb).
    destruct (Bits.sign_bit a), (Bits.sign_bit b); cbn [flt]; symmetry;
      first [apply Z.ltb_lt; lia | apply Z.ltb_ge; lia].
  - specialize (Ia La). specialize (Ib Lb).
    destruct (Bits.sign_bit a), (Bits.sign_bit b); cbn [flt]; symmetry;
      first [apply Z.ltb_lt; lia | apply Z.ltb_ge; lia].
Qed.

Lemma float_value_key_eq (a b : Z) :
  0 <= a < 4294967296 -> 0 <= b < 4294967296 ->
  Bits.not_nan a -> Bits.not_nan b ->
  Bits.key a = Bits.key b -> Bits.float_value a = Bits.float_value b.
Proof.
  intros Ha Hb Na Nb E. unfold Bits.not_nan in Na, Nb.
  destruct (key_bounds a Ha) as (Ka & Pa & _ & Fa & Ia).
  destruct (key_bounds b Hb) as (Kb & Pb & _ & Fb & Ib).
  assert (HM : 0 < Bits.mag 2139095040).
  { pose proof (mag_mono 0 2139095040 ltac:(lia) ltac:(lia)) as H.
    now rewrite mag_zero in H. }
  set (Minf := Bits.mag 2139095040) in *.
  destruct (float_value_cases a Ha) as [(La & Ea) | [(La & Ea) | (La & _)]];
    [| | lia];
    destruct (float_value_cases b Hb) as [(Lb & Eb) | [(Lb & Eb) | (Lb & _)]];
    try lia; rewrite Ea, Eb.
  - now rewrite E.
  - specialize (Fa La). specialize (Ib Lb). exfalso.
    destruct (Bits.sign_bit a), (Bits.sign_bit b); lia.
  - specialize (Ia La). specialize (Fb Lb). exfalso.
    destruct (Bits.sign_bit a), (Bits.sign_bit b); lia.
  - specialize (Ia La). specialize (Ib Lb).
    destruct (Bits.sign_bit a), (Bits.sign_bit b); try reflexivity; exfalso; lia.
Qed.

Lemma float_value_zero : Bits.float_value 0 = Fin 0.
Proof.
  unfold Bits.float_value. cbn. f_equal. unfold Rdiv. apply Rmult_0_l.
Qed.

Lemma not_nan_spec (b : Z) :
  0 <= b < 4294967296 -> (Bits.float_value b <> NaN <-> Bits.not_nan b).
Proof.
  intros Hb. unfold Bits.not_nan.
  destruct (float_value_cases b Hb) as [(L & E) | [(L & E) | (L & E)]];
    rewrite E; split; intros H; try lia; try discriminate.
  - destruct (Bits.sign_bit b); discriminate.
  - now contradiction H.
Qed.

(** The abstract maximum, read on the keys. *)
Lemma atomicMaxFloat_by_key (x y z : Z) :
  0 <= x < 4294967296 -> 0 <= y < 4294967296 ->
  Bits.not_nan x -> Bits.not_nan y ->
  z = x \/ z = y ->
  Bits.key z = Z.max (Bits.key x) (Bits.key y) ->
  Bits.float_value z = atomicMaxFloat (Bits.float_value x) (Bits.float_value y).
Proof.
  intros Hx Hy Nx Ny Hz Hk. unfold atomicMaxFloat.
  rewrite (flt_key x y Hx Hy Nx Ny).
  destruct (Z.ltb_spec (Bits.key x) (Bits.key y)) as [Hlt | Hge].
  - destruct Hz as [-> | ->]; [| reflexivity].
    apply float_value_key_eq; try assumption. lia.
  - destruct Hz as [-> | ->]; [reflexivity |].
    apply float_value_key_eq; try assumption. lia.
Qed.

End BitsFacts.

(** X12. [atomicMaxFloat] on the bits of the floats: when neither the
    stored float nor [value] is a NaN and [value] is not [-0.0], the cell
    afterwards holds one of the two patterns, its value is the larger of
    the two floats (the maximum the block-level embedding takes), and the
    old content is returned. *)
Theorem atomicMaxFloat_bits_maximum (cell value : Z) :
  0 <= cell < 4294967296 -> 0 <= value < 4294967296 ->
  Bits.float_value cell <> NaN -> Bits.float_value value <> NaN ->
  value <> 2147483648 ->
  let r := Bits.atomicMaxFloat cell value in
  0 <= fst r < 4294967296
  /\ (fst r = cell \/ fst r = value)
  /\ Bits.float_value (fst r)
     = atomicMaxFloat (Bits.float_value cell) (Bits.float_value value)
  /\ snd r = cell.
Proof.
  intros Hc Hv Nc Nv Hz r.
  apply (BitsFacts.not_nan_spec cell Hc) in Nc.
  apply (BitsFacts.not_nan_spec value Hv) in Nv.
  pose proof (BitsFacts.flt_key value 0 Hv ltac:(lia) Nv
                ltac:(unfold Bits.not_nan; cbn; lia)) as Hsign.
  rewrite BitsFacts.float_value_zero in Hsign.
  change (Bits.key 0) with 0 in Hsign.
  destruct (BitsFacts.key_bounds cell Hc) as (Kc & Pc & Zc & _).
  destruct (BitsFacts.key_bounds value Hv) as (Kv & Pv & Zv & _).
  destruct (BitsFacts.fields_abs cell Hc) as (_ & _ & Ac & Dc).
  destruct (BitsFacts.fields_abs value Hv) as (_ & _ & Av & Dv).
  assert (Hfge : fge (Bits.float_value value) (Fin 0)
                 = negb (Bits.key value <? 0)).
  { unfold fge. rewrite <- Hsign.
    destruct (Bits.float_value value) eqn:E; try reflexivity.
    apply (BitsFacts.not_nan_spec value Hv) in Nv. now contradiction Nv. }
  assert (Hmono : forall a b, 0 <= a -> a <= b ->
                              Bits.mag a <= Bits.mag b).
  { intros a b Ha Hab. destruct (Z.eq_dec a b) as [-> | Hne]; [lia |].
    pose proof (BitsFacts.mag_mono a b Ha ltac:(lia)). lia. }
  assert (Hmono' : forall a b, 0 <= a -> 0 <= b ->
                     Bits.mag a <= Bits.mag b -> a <= b).
  { intros a b Ha Hb Hab. destruct (Z_le_gt_dec a b) as [H | H]; [exact H |].
    pose proof (BitsFacts.mag_mono b a Hb ltac:(lia)). lia. }
  subst r. unfold Bits.atomicMaxFloat. rewrite Hfge.
  unfold Bits.atomicMax, Bits.atomicMin, Bits.float_as_int,
    Bits.int_as_float, Bits.float_as_uint, Bits.uint_as_float.
  destruct (Z.ltb_spec (Bits.key value) 0) as [Hneg | Hpos];
    cbn [negb fst snd].
  - (* value < 0: atomicMin on the unsigned patterns *)
    assert (Sv : Bits.sign_bit value = true).
    { destruct (Bits.sign_bit value); [reflexivity | lia]. }
    rewrite Sv in Kv, Dv.
    assert (Hnew : Z.min cell value = cell \/ Z.min cell value = value) by lia.
    split; [lia | split; [exact Hnew | split; [| reflexivity]]].
    apply BitsFacts.atomicMaxFloat_by_key; try assumption.
    destruct (Bits.sign_bit cell) eqn:Sc.
    + destruct (Z.le_ge_cases cell value) as [H | H].
      * rewrite Z.min_l by lia.
        pose proof (Hmono (Bits.abs_bits cell)
                      (Bits.abs_bits value) ltac:(lia) ltac:(lia)).
        lia.
      * rewrite Z.min_r by lia.
        pose proof (Hmono (Bits.abs_bits value)
                      (Bits.abs_bits cell) ltac:(lia) ltac:(lia)).
        lia.
    + rewrite Z.min_l by lia. lia.
  - (* value >= 0: atomicMax on the signed patterns *)
    assert (Sv : Bits.sign_bit value = false).
    { destruct (Bits.sign_bit value) eqn:S; [| reflexivity].
      assert (H0 : Bits.mag (Bits.abs_bits value) = 0) by lia.
      apply Zv in H0. lia. }
    rewrite Sv in Kv, Dv.
    destruct (Z.ltb_spec value 2147483648) as [_ | C]; [| lia].
    destruct (Bits.sign_bit cell) eqn:Sc.
    + destruct (Z.ltb_spec cell 2147483648) as [C | _]; [lia |].
      rewrite Z.max_r by lia. rewrite Z.mod_small by lia.
      split; [lia | split; [now right | split]].
      * apply BitsFacts.atomicMaxFloat_by_key; try assumption; [now right |].
        lia.
      * Z.to_euclidean_division_equations; lia.
    + destruct (Z.ltb_spec cell 2147483648) as [_ | C]; [| lia].
      rewrite !Z.mod_small by lia.
      split; [lia | split; [lia | split; [| reflexivity]]].
      apply BitsFacts.atomicMaxFloat_by_key; try assumption; [lia |].
      destruct (Z.le_ge_cases cell value) as [H | H].
      * rewrite Z.max_r by lia.
        pose proof (Hmono (Bits.abs_bits cell)
                      (Bits.abs_bits value) ltac:(lia) ltac:(lia)).
        lia.
      * rewrite Z.max_l by lia.
        pose proof (Hmono (Bits.abs_bits value)
                      (Bits.abs_bits cell) ltac:(lia) ltac:(lia)).
        lia.
Qed.

Lemma atomicMaxFloat_bits_maximum_witness :
  let r := Bits.atomicMaxFloat 4286578688 1065353216 in
  0 <= fst r < 4294967296
  /\ (fst r = 4286578688 \/ fst r = 1065353216)
  /\ Bits.float_value (fst r)
     = atomicMaxFloat (Bits.float_value 4286578688)
         (Bits.float_value 1065353216)
  /\ snd r = 4286578688.
Proof.
  refine (atomicMaxFloat_bits_maximum 4286578688 1065353216 _ _ _ _ _).
  - split; [discriminate | reflexivity].
  - split; [discriminate | reflexivity].
  - discriminate.
  - apply BitsFacts.not_nan_spec; [split; [discriminate | reflexivity] |].
    discriminate.
  - discriminate.
Defined.

(** X13. [atomicMaxFloat] with [value = -0.0]: [-0.0 >= 0] holds, the
    signed pattern of [-0.0] is the least [int], and the cell is never
    changed.  A cell holding a negative float keeps it, although the larger
    of the two floats is zero. *)
Theorem atomicMaxFloat_bits_negative_zero (cell : Z) :
  0 <= cell < 4294967296 ->
  Bits.float_value 2147483648 = Fin 0
  /\ Bits.atomicMaxFloat cell 2147483648 = (cell, cell)
  /\ (flt (Bits.float_value cell) (Fin 0) = true ->
      Bits.float_value (fst (Bits.atomicMaxFloat cell 2147483648))
      <> atomicMaxFloat (Bits.float_value cell)
           (Bits.float_value 2147483648)).
Proof.
  intros Hc.
  assert (E0 : Bits.float_value 2147483648 = Fin 0).
  { unfold Bits.float_value. cbn. f_equal. unfold Rdiv. apply Rmult_0_l. }
  assert (E1 : Bits.atomicMaxFloat cell 2147483648 = (cell, cell)).
  { unfold Bits.atomicMaxFloat. rewrite E0. cbn [fge flt].
    destruct (Rlt_dec 0 0) as [C | _]; [lra |]. cbn [negb].
    unfold Bits.atomicMax, Bits.float_as_int, Bits.int_as_float.
    change (2147483648 <? 2147483648) with false. cbv iota.
    destruct (Z.ltb_spec cell 2147483648).
    - rewrite Z.max_l by lia. now rewrite Z.mod_small by lia.
    - rewrite Z.max_l by lia. f_equal;
        Z.to_euclidean_division_equations; lia. }
  split; [exact E0 | split; [exact E1 |]].
  intros Hneg. rewrite E1, E0. cbn [fst]. unfold atomicMaxFloat.
  rewrite Hneg. intros E. rewrite E in Hneg. cbn [flt] in Hneg.
  destruct (Rlt_dec 0 0) as [C | _]; [lra | discriminate].
Qed.

(** X14. [atomicMaxFloat] with a NaN [value]: [value >= 0] is false and
    the unsigned minimum is taken.  A NaN whose sign bit is clear replaces
    every stored pattern whose sign bit is set (among them [-inf], the
    initial [mi]); otherwise a stored float that is not a NaN is kept. *)
Theorem atomicMaxFloat_bits_nan_value (cell value : Z) :
  0 <= cell < 4294967296 -> 0 <= value < 4294967296 ->
  Bits.float_value value = NaN ->
  (value < 2147483648 -> 2147483648 <= cell ->
   Bits.atomicMaxFloat cell value = (value, cell))
  /\ (Bits.float_value cell <> NaN ->
      cell < 2147483648 \/ 2147483648 <= value ->
      Bits.atomicMaxFloat cell value = (cell, cell)).
Proof.
  intros Hc Hv Hnan.
  assert (E : Bits.atomicMaxFloat cell value
              = (Z.min cell value, cell)).
  { unfold Bits.atomicMaxFloat. rewrite Hnan. reflexivity. }
  rewrite E.
  destruct (BitsFacts.float_value_cases value Hv)
    as [(_ & C) | [(_ & C) | (Lv & _)]];
    [rewrite Hnan in C; discriminate
    | rewrite Hnan in C; destruct (Bits.sign_bit value); discriminate |].
  destruct (BitsFacts.fields_abs value Hv) as (_ & _ & Av & Dv).
  split.
  - intros H1 H2. rewrite Z.min_r by lia. reflexivity.
  - intros Nc Hcase.
    apply (BitsFacts.not_nan_spec cell Hc) in Nc. unfold Bits.not_nan in Nc.
    destruct (BitsFacts.fields_abs cell Hc) as (_ & _ & Ac & Dc).
    unfold Bits.sign_bit in Dc, Dv.
    destruct (Z.leb_spec 2147483648 cell), (Z.leb_spec 2147483648 value);
      rewrite Z.min_l by lia; reflexivity.
Qed.

(** X15. Among the instantiations that pass the [static_assert]s, the
    thread indexing of [iterative_softmax] is sound (its [int8_t] thread
    index stays inside the statistics, and the total of every row of the
    tile is folded into [s_prime]) exactly for the tiles
    [kQueriesPerBlock] x [kKeysPerBlock] = 32 x 64, 32 x 128 and 64 x 64. *)
Theorem softmax_indexing_sound_instantiations (cfg : Config) :
  Z.rem (kQueriesPerBlock cfg) 32 = 0 ->
  Z.rem (kKeysPerBlock cfg) 32 = 0 ->
  0 < kQueriesPerBlock cfg ->
  kQueriesPerBlock cfg < kNumWarpsPerBlock cfg * kWarpSize ->
  let blockDim := getThreadsGrid cfg in
  ((forall threadIdx t,
      in_grid threadIdx blockDim ->
      softmax_coef_index cfg threadIdx blockDim = Some t ->
      0 <= t < kQueriesPerBlock cfg)
   /\ (forall t, 0 <= t < kQueriesPerBlock cfg ->
         exists threadIdx,
           in_grid threadIdx blockDim
           /\ softmax_total_row cfg threadIdx = Some t))
  <-> ((kQueriesPerBlock cfg = 32 /\ kKeysPerBlock cfg = 64)
       \/ (kQueriesPerBlock cfg = 32 /\ kKeysPerBlock cfg = 128)
       \/ (kQueriesPerBlock cfg = 64 /\ kKeysPerBlock cfg = 64)).
Proof.
  intros HQ32 HK32 HQ Hassert blockDim. subst blockDim.
  destruct (lines_per_warp_bounds cfg HQ Hassert) as (HWpos & HL & HWL).
  assert (Hok : config_ok cfg = true <->
                kNumThreads cfg <= 128
                /\ kNumWarpsPerBlock cfg * kLinesPerWarp cfg
                   = kQueriesPerBlock cfg).
  { unfold config_ok.
    rewrite !andb_true_iff, !Z.eqb_eq, !Z.ltb_lt, Z.leb_le. tauto. }
  split.
  - intros (H1 & H2).
    assert (HW : kNumWarpsPerBlock cfg <= 4).
    { destruct (Z_le_gt_dec (kNumWarpsPerBlock cfg) 4) as [Hle | Hgt];
        [exact Hle | exfalso].
      destruct (softmax_coef_index_wraps cfg HQ ltac:(lia)) as (Hin & E).
      specialize (H1 _ _ Hin E). lia. }
    apply config_ok_cases, Hok. split;
      [unfold kNumThreads, kWarpSize; lia |].
    destruct (Z.eq_dec (kNumWarpsPerBlock cfg * kLinesPerWarp cfg)
                (kQueriesPerBlock cfg)) as [E | E]; [exact E | exfalso].
    destruct (H2 (kNumWarpsPerBlock cfg * kLinesPerWarp cfg) ltac:(nia))
      as (threadIdx & Hin & E').
    apply (softmax_total_row_spec cfg _ _ ltac:(lia) Hin) in E'.
    pose proof (proj1 (in_block_spec cfg _) Hin) as (Hx & Hy & Hz). nia.
  - intros Hcases.
    assert (Hc : config_ok cfg = true).
    { unfold config_ok, kNumThreads, kLinesPerWarp, kNumWarpsPerBlock,
        kWarpSize.
      destruct Hcases as [[-> ->] | [[-> ->] | [-> ->]]]; reflexivity. }
    apply Hok in Hc. destruct Hc as (Hc1 & Hc2).
    unfold kNumThreads, kWarpSize in Hc1. split.
    + intros threadIdx t Hin E.
      apply (softmax_coef_index_small cfg HQ Hassert threadIdx t ltac:(lia)
               Hin E).
    + intros t Ht.
      apply (softmax_total_row_exists cfg HQ Hassert); lia.
Qed.

(** ** Where the output is written *)

Lemma advance_output_ptr (cfg : Config) (imem : Z -> Z) (P p : Params)
  (blockIdx : Dim3) :
  cu_seqlens_q_ptr P = nullptr ->
  advance_to_block cfg imem P blockIdx = Some p ->
  output_ptr p =
    padd cfg (output_ptr P)
      (dz blockIdx * o_strideB P + dy blockIdx * o_strideH P
       + dx blockIdx * kQueriesPerBlock cfg * head_dim_value P)
  /\ num_queries p = num_queries P - dx blockIdx * kQueriesPerBlock cfg
  /\ head_dim_value p = head_dim_value P.
Proof.
  intros Hfix. unfold advance_to_block. rewrite Hfix.
  change (negb (nullptr =? nullptr)) with false. cbv iota. cbn [andb].
  intros E; injection E as <-.
  cbn [output_ptr num_queries head_dim_value].
  repeat split. unfold padd, ptr_add, o_strideM. ring.
Qed.

Lemma output_written_in_output (cfg : Config) (gmem : Z -> R)
  (lane_cols : nat -> list (list nat)) (p : Params) (blockIdx : Dim3)
  (m c : nat) :
  kr_output (attention_kernel cfg gmem lane_cols p blockIdx) m c <> None ->
  in_output cfg p m c = true.
Proof.
  intros H. destruct (in_output cfg p m c) eqn:E; [reflexivity |].
  exfalso. apply H. unfold attention_kernel. cbn [kr_output].
  unfold epilogue_at_end. destruct (kKeepOutputInRF cfg) eqn:Hrf.
  - rewrite E. now rewrite key_loop_output_rf.
  - now rewrite key_loop_output_outside.
Qed.



Lemma atomicMaxFloat_bits_negative_zero_witness :
  Bits.float_value 2147483648 = Fin 0
  /\ Bits.atomicMaxFloat 3212836864 2147483648 = (3212836864, 3212836864)
  /\ (flt (Bits.float_value 3212836864) (Fin 0) = true ->
      Bits.float_value (fst (Bits.atomicMaxFloat 3212836864 2147483648))
      <> atomicMaxFloat (Bits.float_value 3212836864)
           (Bits.float_value 2147483648)).
Proof.
  refine (atomicMaxFloat_bits_negative_zero 3212836864 _).
  split; [discriminate | reflexivity].
Defined.

Lemma atomicMaxFloat_bits_nan_value_witness :
  (2147483647 < 2147483648 -> 2147483648 <= 4286578688 ->
   Bits.atomicMaxFloat 4286578688 2147483647 = (2147483647, 4286578688))
  /\ (Bits.float_value 4286578688 <> NaN ->
      4286578688 < 2147483648 \/ 2147483648 <= 2147483647 ->
      Bits.atomicMaxFloat 4286578688 2147483647
      = (4286578688, 4286578688)).
Proof.
  refine (atomicMaxFloat_bits_nan_value 4286578688 2147483647 _ _ _).
  - split; [discriminate | reflexivity].
  - split; [discriminate | reflexivity].
  - reflexivity.
Defined.

Lemma softmax_indexing_sound_instantiations_witness :
  let cfg := cfg64 true false true in
  ((forall threadIdx t,
      in_grid threadIdx (getThreadsGrid cfg) ->
      softmax_coef_index cfg threadIdx (getThreadsGrid cfg) = Some t ->
      0 <= t < kQueriesPerBlock cfg)
   /\ (forall t, 0 <= t < kQueriesPerBlock cfg ->
         exists threadIdx,
           in_grid threadIdx (getThreadsGrid cfg)
           /\ softmax_total_row cfg threadIdx = Some t))
  <-> ((kQueriesPerBlock cfg = 32 /\ kKeysPerBlock cfg = 64)
       \/ (kQueriesPerBlock cfg = 32 /\ kKeysPerBlock cfg = 128)
       \/ (kQueriesPerBlock cfg = 64 /\ kKeysPerBlock cfg = 64)).
Proof.
  refine (softmax_indexing_sound_instantiations (cfg64 true false true)
            _ _ _ _); reflexivity.
Defined.

(** ** The accumulation buffer and the warp tiles *)

(** X21. Without an accumulation buffer ([output_accum_ptr] null)
    [advance_to_block] lets the accumulation iterator of a block start at
    the block's output pointer ("accumulate directly in the destination
    buffer"): element ([m], [c]) of the accumulator has the address of
    element ([m], [c]) of the output, for all [m] and [c], if and only if
    [scalar_t] is as wide as [accum_t]. *)
Theorem accumulator_aliases_output
  (cfg : Config) (imem : Z -> Z) (P p : Params) (blockIdx : Dim3) :
  advance_to_block cfg imem P blockIdx = Some p ->
  output_accum_ptr P = nullptr ->
  output_accum_ptr p = output_ptr p
  /\ ((forall m c, accum_address p m c = out_address cfg p m c)
      <-> sizeof_scalar cfg = sizeof_accum).
Proof.
  intros Hadv Hnull.
  assert (E : output_accum_ptr p = output_ptr p).
  { unfold advance_to_block in Hadv. rewrite Hnull in Hadv.
    destruct (_ && _) in Hadv; [discriminate |].
    injection Hadv as <-. cbn [output_accum_ptr output_ptr].
    change (nullptr =? nullptr) with true. rewrite orb_true_r.
    reflexivity. }
  split; [exact E |].
  unfold accum_address, out_address, padd, ptr_add. rewrite E. split.
  - intros H. specialize (H 0%nat 1%nat). cbn [Z.of_nat] in H.
    unfold sizeof_accum in *. lia.
  - intros -> m c. reflexivity.
Qed.

Lemma quot32 (x : Z) : Z.rem x 32 = 0 -> x = 32 * (x ÷ 32).
Proof.
  intros H. pose proof (Z.quot_rem' x 32) as E. rewrite H in E. lia.
Qed.

(** X22. For a tile that passes the [static_assert]s, the warps of the
    block are the [WarpCount::kM] x [WarpCount::kN] warp tiles of 32 x 32
    (the [static_assert] of [MM0] on [WarpCount]); [iteratorC_tile_offset]
    maps the warps one-to-one onto the warp tiles of the score tile; and
    the entries [accum_m + kQueriesPerBlock * column] of [addition_storage]
    lie inside its [kQueriesPerBlock * WarpCount::kN] entries and differ
    for different rows or warp columns. *)
Theorem warp_tiles_cover_score_tile (cfg : Config) :
  Z.rem (kQueriesPerBlock cfg) 32 = 0 ->
  Z.rem (kKeysPerBlock cfg) 32 = 0 ->
  0 < kQueriesPerBlock cfg -> 0 < kKeysPerBlock cfg ->
  kNumWarpsPerBlock cfg = WarpCount_kM cfg * WarpCount_kN cfg
  /\ (forall warp, 0 <= warp < kNumWarpsPerBlock cfg ->
        0 <= fst (iteratorC_tile_offset cfg warp) < WarpCount_kM cfg
        /\ 0 <= snd (iteratorC_tile_offset cfg warp) < WarpCount_kN cfg)
  /\ (forall r c, 0 <= r < WarpCount_kM cfg -> 0 <= c < WarpCount_kN cfg ->
        exists warp,
          0 <= warp < kNumWarpsPerBlock cfg
          /\ iteratorC_tile_offset cfg warp = (r, c)
          /\ forall warp',
               0 <= warp' < kNumWarpsPerBlock cfg ->
               iteratorC_tile_offset cfg warp' = (r, c) -> warp' = warp)
  /\ (forall accum_m c,
        0 <= accum_m < kQueriesPerBlock cfg -> 0 <= c < WarpCount_kN cfg ->
        0 <= addition_storage_index cfg accum_m c < addition_storage_size cfg
        /\ forall accum_m' c',
             0 <= accum_m' < kQueriesPerBlock cfg ->
             addition_storage_index cfg accum_m' c'
             = addition_storage_index cfg accum_m c ->
             accum_m' = accum_m /\ c' = c).
Proof.
  intros HQ32 HK32 HQ HK.
  pose proof (quot32 _ HQ32) as EQ. pose proof (quot32 _ HK32) as EK.
  unfold iteratorC_tile_offset, addition_storage_index,
    addition_storage_size, kNumWarpsPerBlock.
  unfold WarpCount_kM, WarpCount_kN.
  set (a := kQueriesPerBlock cfg ÷ 32) in *.
  set (b := kKeysPerBlock cfg ÷ 32) in *.
  assert (Ha : 0 < a) by lia. assert (Hb : 0 < b) by lia.
  assert (EW : (kQueriesPerBlock cfg * kKeysPerBlock cfg) ÷ (32 * 32) = a * b).
  { rewrite EQ, EK.
    replace (32 * a * (32 * b)) with (a * b * (32 * 32)) by ring.
    apply Z.quot_mul. lia. }
  rewrite EW. split; [reflexivity |].
  split; [| split].
  - intros warp Hw. cbn [fst snd].
    rewrite Z.rem_mod_nonneg, Z.quot_div_nonneg by lia.
    pose proof (Z.mod_pos_bound warp a Ha).
    pose proof (Z.div_mod warp a ltac:(lia)).
    assert (0 <= warp / a) by (apply Z.div_pos; lia).
    assert (warp / a < b) by (apply Z.div_lt_upper_bound; nia).
    lia.
  - intros r c Hr Hc. exists (c * a + r).
    assert (Hw : 0 <= c * a + r < a * b) by nia.
    split; [exact Hw | split].
    + rewrite Z.rem_mod_nonneg, Z.quot_div_nonneg by lia.
      rewrite Z.add_comm, Z.mod_add, Z.div_add by lia.
      rewrite Z.mod_small, Z.div_small by lia. reflexivity.
    + intros warp' Hw' E.
      rewrite Z.rem_mod_nonneg, Z.quot_div_nonneg in E by lia.
      injection E as E1 E2.
      pose proof (Z.div_mod warp' a ltac:(lia)). nia.
  - intros accum_m c Hm Hc. split; [nia |].
    intros accum_m' c' Hm' E.
    assert (c' = c) by nia. subst. lia.
Qed.

Lemma accumulator_aliases_output_witness :
  exists p,
    advance_to_block (cfg64 false false true) imem0
      (params_bhmk 2 2 100 100 8) {| dx := 1; dy := 1; dz := 1 |} = Some p
    /\ output_accum_ptr p = output_ptr p
    /\ ((forall m c,
           accum_address p m c = out_address (cfg64 false false true) p m c)
        <-> sizeof_scalar (cfg64 false false true) = sizeof_accum).
Proof.
  eexists. split; [reflexivity |].
  exact (accumulator_aliases_output (cfg64 false false true) imem0
           (params_bhmk 2 2 100 100 8) _ {| dx := 1; dy := 1; dz := 1 |}
           eq_refl eq_refl).
Defined.

Lemma warp_tiles_cover_score_tile_witness :
  let cfg := cfg64 true false true in
  kNumWarpsPerBlock cfg = WarpCount_kM cfg * WarpCount_kN cfg
  /\ (forall warp, 0 <= warp < kNumWarpsPerBlock cfg ->
        0 <= fst (iteratorC_tile_offset cfg warp) < WarpCount_kM cfg
        /\ 0 <= snd (iteratorC_tile_offset cfg warp) < WarpCount_kN cfg)
  /\ (forall r c, 0 <= r < WarpCount_kM cfg -> 0 <= c < WarpCount_kN cfg ->
        exists warp,
          0 <= warp < kNumWarpsPerBlock cfg
          /\ iteratorC_tile_offset cfg warp = (r, c)
          /\ forall warp',
               0 <= warp' < kNumWarpsPerBlock cfg ->
               iteratorC_tile_offset cfg warp' = (r, c) -> warp' = warp)
  /\ (forall accum_m c,
        0 <= accum_m < kQueriesPerBlock cfg -> 0 <= c < WarpCount_kN cfg ->
        0 <= addition_storage_index cfg accum_m c < addition_storage_size cfg
        /\ forall accum_m' c',
             0 <= accum_m' < kQueriesPerBlock cfg ->
             addition_storage_index cfg accum_m' c'
             = addition_storage_index cfg accum_m c ->
             accum_m' = accum_m /\ c' = c).
Proof.
  refine (warp_tiles_cover_score_tile (cfg64 true false true) _ _ _ _);
    reflexivity.
Defined.

(** ** The range of the exponentiated tile *)

Lemma weight_le_1 (s M : R) (x : accum_t) :
  fle (fmul x (Fin s)) (Fin M) -> is_score x -> (0 < s)%R ->
  (0 <= weight s M x <= 1)%R.
Proof.
  intros Hle Hx Hs. split; [apply weight_nonneg |].
  destruct x as [v | | |]; cbn [weight]; try lra; try (simpl in Hx; tauto).
  cbn [fmul fle] in Hle. rewrite <- exp_0.
  destruct (Rle_lt_or_eq_dec (s * v - M) 0 ltac:(lra)) as [Hlt | ->];
    [left; now apply exp_increasing | right; reflexivity].
Qed.



(** ** The statistics of a row against the reference *)

Lemma softmax_attention_bounds (nk : nat) (vis : nat -> bool)
  (l v : nat -> R) (lo hi : R) :
  (0 < softmax_denominator nk vis l)%R ->
  (forall j, (j < nk)%nat -> vis j = true -> (lo <= v j <= hi)%R) ->
  (lo <= softmax_attention nk vis l v <= hi)%R.
Proof.
  intros Hpos Hv. unfold softmax_attention, softmax_denominator in *.
  set (S := sumR nk (fun j => if vis j then exp (l j) else 0%R)) in *.
  set (A := sumR nk (fun j => if vis j then (exp (l j) * v j)%R else 0%R)).
  assert (Hlo : (0 <= A - lo * S)%R).
  { replace (A - lo * S)%R
      with (sumR nk (fun j => (if vis j then (exp (l j) * v j)%R else 0%R)
                              - (if vis j then exp (l j) else 0%R) * lo)%R).
    - apply sumR_nonneg. intros j Hj. specialize (Hv j Hj).
      destruct (vis j); [| lra]. specialize (Hv eq_refl).
      pose proof (exp_pos (l j)). nra.
    - subst A S. clear. induction nk as [| n IH]; simpl; [ring |].
      rewrite IH. ring. }
  assert (Hhi : (0 <= hi * S - A)%R).
  { replace (hi * S - A)%R
      with (sumR nk (fun j => (if vis j then exp (l j) else 0%R) * hi
                              - (if vis j then (exp (l j) * v j)%R
                                 else 0%R))%R).
    - apply sumR_nonneg. intros j Hj. specialize (Hv j Hj).
      destruct (vis j); [| lra]. specialize (Hv eq_refl).
      pose proof (exp_pos (l j)). nra.
    - subst A S. clear. induction nk as [| n IH]; simpl; [ring |].
      rewrite IH. ring. }
  split.
  - apply Rmult_le_reg_r with (r := S); [exact Hpos |].
    unfold Rdiv. rewrite Rmult_assoc, Rinv_l by lra. lra.
  - apply Rmult_le_reg_r with (r := S); [exact Hpos |].
    unfold Rdiv. rewrite Rmult_assoc, Rinv_l by lra. lra.
Qed.

Section RowReference.

Variable cfg : Config.
Variable gmem : Z -> R.
Variable imem : Z -> Z.
Variable lane_cols : nat -> list (list nat).
Variable P : Params.
Variable blockIdx : Dim3.
Variable m : nat.

Let b : Z := dz blockIdx.
Let h : Z := dy blockIdx.
Let qs : Z := dx blockIdx * kQueriesPerBlock cfg.
Let i : nat := (Z.to_nat qs + m)%nat.

Hypothesis Hcfg : config_ok cfg = true.
Hypothesis Hperm :
  forall m', Z.of_nat m' < kQueriesPerBlock cfg ->
    Permutation (concat (lane_cols m'))
      (seq 0 (Z.to_nat (kKeysPerBlock cfg))).
Hypothesis Hscale : kAddMask cfg = true \/ (0 < scale P)%R.
Hypothesis Hmask : kAddMask cfg = true -> mask_ptr P <> nullptr.
Hypothesis Hbc :
  kAddMask cfg = true -> kMaskBroadcastRow cfg = true -> mask_strideM P = 0.
Hypothesis Hdx : 0 <= dx blockIdx.
Hypothesis Hnk : 0 < ref_num_keys imem P b.
Hypothesis Hi : Z.of_nat i < ref_num_queries imem P b.
Hypothesis Hm : Z.of_nat m < kQueriesPerBlock cfg.

(** The block's result on row [m] in terms of the reference: the running
    maximum is some finite [M], the running sum is the reference
    denominator scaled by [exp (- M)], and the outputs are the reference
    values. *)
Lemma block_row_reference :
  exists p M,
    advance_to_block cfg imem P blockIdx = Some p
    /\ Z.of_nat m < num_queries p
    /\ let r := attention_kernel cfg gmem lane_cols p blockIdx in
       let D := softmax_denominator (Z.to_nat (ref_num_keys imem P b))
                  (ref_visible P i) (ref_logit cfg gmem imem P b h i) in
       mi (kr_coefs r) m = Fin M
       /\ s_prime (kr_coefs r) m = Fin (D * exp (- M))
       /\ (0 < D)%R
       /\ forall c,
            Z.of_nat c < head_dim_value P ->
            (kSingleValueIteration cfg = true ->
             Z.of_nat c < kKeysPerBlock cfg) ->
            kr_output r m c
            = Some (Fin (attention_ref cfg gmem imem P b h i c)).
Proof.
  destruct (config_ok_facts cfg Hcfg) as (HQ & HK & _ & _).
  assert (Hqs : 0 <= qs) by (subst qs; apply Z.mul_nonneg_nonneg; lia).
  assert (Hi' : Z.of_nat i = qs + Z.of_nat m) by (subst i; lia).
  destruct (advance_some cfg imem P blockIdx) as (p & Hadv); [fold qs b; lia |].
  destruct (advance_spec cfg imem P p blockIdx Hadv)
    as (_ & _ & _ & _ & Enq & Enk & Es & Ec & _ & Ehdv & _).
  fold qs b in Enq, Enk.
  assert (Hnkp : 0 < num_keys p).
  { rewrite Enk. destruct (causal P); lia. }
  assert (Hsp : (0 < softmax_scaling cfg p)%R).
  { unfold softmax_scaling. destruct (kAddMask cfg); [lra |].
    rewrite Es. destruct Hscale as [E | E]; [discriminate | exact E]. }
  exists p.
  destruct (attention_kernel_row cfg gmem lane_cols p qs m Hcfg
              (Hperm m Hm) Hsp Hqs Hm blockIdx eq_refl Hnkp)
    as (M & Hmi & HS & Hpos & Hout).
  exists M. split; [exact Hadv |]. split; [lia |].
  assert (Hle : (Z.to_nat (num_keys p)
                 <= Z.to_nat (ref_num_keys imem P b))%nat).
  { rewrite Enk. destruct (causal P); lia. }
  assert (Hvis : forall j, (j < Z.to_nat (num_keys p))%nat ->
            key_visible cfg gmem p qs m j = ref_visible P i j).
  { intros j Hj.
    apply (key_visible_ref cfg gmem imem P p blockIdx m Hcfg Hadv Hdx j).
    lia. }
  assert (Hlog : forall j, (j < Z.to_nat (num_keys p))%nat ->
            key_visible cfg gmem p qs m j = true ->
            key_logit cfg gmem p qs m j = ref_logit cfg gmem imem P b h i j).
  { intros j Hj Hv.
    apply (key_logit_ref cfg gmem imem P p blockIdx m Hcfg Hadv Hdx j
             Hmask Hbc); [lia | | exact Hv].
    unfold problem_size_0_m. rewrite Enq. lia. }
  assert (Hlate : forall j,
            (Z.to_nat (num_keys p) <= j
             < Z.to_nat (ref_num_keys imem P b))%nat ->
            ref_visible P i j = false).
  { intros j Hj. unfold ref_visible. rewrite Enk in Hj.
    destruct (causal P); cbn [negb orb]; [| lia].
    apply Nat.leb_gt. lia. }
  assert (ED : S_upto cfg gmem p qs m (Z.to_nat (num_keys p)) M
               = (softmax_denominator (Z.to_nat (ref_num_keys imem P b))
                    (ref_visible P i) (ref_logit cfg gmem imem P b h i)
                  * exp (- M))%R).
  { unfold S_upto, softmax_denominator.
    rewrite (sumR_trunc _ _ _ Hle);
      [| intros j Hj; now rewrite (Hlate j Hj)].
    rewrite <- sumR_scal. apply sumR_ext. intros j Hj.
    rewrite (key_weight_shift cfg gmem p qs m M j) by lia.
    rewrite (Hvis j Hj). destruct (ref_visible P i j) eqn:Ev; [| reflexivity].
    rewrite Hlog; [reflexivity | exact Hj |]. now rewrite Hvis. }
  intros r D. subst r. fold D in ED. repeat split.
  - exact Hmi.
  - rewrite HS. f_equal. exact ED.
  - rewrite ED in Hpos. pose proof (exp_pos (- M)). nra.
  - intros c Hc Hsingle. rewrite (Hout c).
    + f_equal. f_equal.
      rewrite (sums_softmax cfg gmem p qs m c M Hpos).
      unfold attention_ref.
      rewrite (softmax_attention_trunc _ _ _ _ _ Hle Hlate).
      apply softmax_attention_ext. intros j Hj. split; [now apply Hvis |].
      intros Hv. split; [now apply Hlog |].
      apply (key_value_ref cfg gmem imem P p blockIdx Hadv).
    + unfold in_output, in_row, in_value_blocks, nBlockN.
      rewrite Enq, Ehdv.
      destruct (Z.ltb_spec (Z.of_nat m) (ref_num_queries imem P b - qs));
        [| lia].
      destruct (Z.ltb_spec (Z.of_nat c) (head_dim_value P)); [| lia].
      destruct (Z.ltb_spec (Z.of_nat m) (kQueriesPerBlock cfg)); [| lia].
      cbn [andb]. apply Z.ltb_lt.
      destruct (kSingleValueIteration cfg);
        [specialize (Hsingle eq_refl); lia |].
      pose proof (ceil_div_covers (head_dim_value P) (kKeysPerBlock cfg) HK
                    ltac:(lia)). lia.
Qed.

End RowReference.

Section RowProperties.

Variable cfg : Config.
Variable imem : Z -> Z.
Variable lane_cols : nat -> list (list nat).
Variable P : Params.
Variable blockIdx : Dim3.
Variable m : nat.

Let b : Z := dz blockIdx.
Let h : Z := dy blockIdx.
Let qs : Z := dx blockIdx * kQueriesPerBlock cfg.
Let i : nat := (Z.to_nat qs + m)%nat.
Let nk : nat := Z.to_nat (ref_num_keys imem P b).

Hypothesis Hcfg : config_ok cfg = true.
Hypothesis Hperm :
  forall m', Z.of_nat m' < kQueriesPerBlock cfg ->
    Permutation (concat (lane_cols m'))
      (seq 0 (Z.to_nat (kKeysPerBlock cfg))).
Hypothesis Hscale : kAddMask cfg = true \/ (0 < scale P)%R.
Hypothesis Hmask : kAddMask cfg = true -> mask_ptr P <> nullptr.
Hypothesis Hbc :
  kAddMask cfg = true -> kMaskBroadcastRow cfg = true -> mask_strideM P = 0.
Hypothesis Hdx : 0 <= dx blockIdx.
Hypothesis Hnk : 0 < ref_num_keys imem P b.
Hypothesis Hi : Z.of_nat i < ref_num_queries imem P b.
Hypothesis Hm : Z.of_nat m < kQueriesPerBlock cfg.




End RowProperties.



